(** * radix-ts: a path-compressed radix tree persisted through a key-value store

    Shallow embedding of [Radix] (has, get, set, del, loop), of
    [buildQueryFilter] and of [jsonEncode], and the properties of the
    specification checked against them.

    Strings are Rocq strings; a character stands for one code unit and
    strings are ordered code unit by code unit, as the JavaScript
    operators [<], [<=], [>], [>=] order them. *)

From Stdlib Require Import Ascii String NArith ZArith DecimalString DecimalPos
  DecimalZ Lia.
From stdpp Require Import gmap strings list fin_maps sorting.

#[local] Arguments String.append : simpl nomatch.

(** ** JavaScript string primitives used by the source *)

Module JS.

(** [s[0]]: the first code unit, [undefined] (here [None]) on the empty string. *)
Definition head (s : string) : option ascii :=
  match s with
  | EmptyString => None
  | String c _ => Some c
  end.

(** [s.slice(0, n)] for [0 <= n]. *)
Fixpoint take (n : nat) (s : string) : string :=
  match n, s with
  | S n', String c s' => String c (take n' s')
  | _, _ => EmptyString
  end.

(** [s.slice(n, s.length)] for [0 <= n]. *)
Fixpoint drop (n : nat) (s : string) : string :=
  match n, s with
  | S n', String _ s' => drop n' s'
  | _, _ => s
  end.

(** [a < b] on strings. *)
Definition lt (a b : string) : bool :=
  match String.compare a b with Lt => true | _ => false end.

(** [a <= b] on strings. *)
Definition le (a b : string) : bool :=
  match String.compare a b with Gt => false | _ => true end.

(** [a > b] and [a >= b]. *)
Definition gt (a b : string) : bool := lt b a.
Definition ge (a b : string) : bool := le b a.

(** [!s] is true exactly on the empty string. *)
Definition empty (s : string) : bool :=
  match s with EmptyString => true | _ => false end.

Definition option_ascii_eqb (a b : option ascii) : bool :=
  match a, b with
  | None, None => true
  | Some x, Some y => Ascii.eqb x y
  | _, _ => false
  end.

End JS.

(** ** The persisted data model *)

(** [string | [string]]: a bare string is the id of another node, a
    one-element array wraps the encoded text of a leaf. *)
Inductive target : Type :=
| Branch (id : string)
| Leaf (enc : string).

(** An edge: a label and a target. *)
Abbreviation edge := (string * target)%type.

(** [type RNode = [string, string | [string]][]] *)
Abbreviation RNode := (list (string * target)).

Definition NODE_ROOT : string := "_".

Definition isArray (v : target) : bool :=
  match v with Leaf _ => true | Branch _ => false end.

#[global] Instance target_eq_dec : EqDecision target.
Proof. solve_decision. Defined.

(** A call of the store that changes it: [store.set] of a node record,
    [store.set("#", n)] of the id counter, [store.del]. *)
Inductive store_call : Type :=
| StoreSet (id : string) (node : RNode)
| StoreSetCounter (n : N)
| StoreDel (id : string).

(** The state of one [Radix] object together with its store.

    [cells] holds the node records of the store (under ["_"] and under the
    allocated ids) and [counter] the number kept under the reserved key
    ["#"], which no node id spells.  [m_id] is the cached [m_id.next]
    ([None] for the initial [-1]) and [m_recycleIds] the recycle set in
    insertion order.  [shares] tells whether [store.get] hands out the
    stored array itself, as the [Map]-backed store of the test suite and
    of the README does, or a copy of it: the difference shows where the
    source changes an array in place and returns without [store.set].
    [journal] lists the calls that changed the store so far, the oldest
    first. *)
Record Radix : Type := mkRadix {
  cells : gmap string RNode;
  counter : option N;
  m_id : option N;
  m_recycleIds : list string;
  shares : bool;
  journal : list store_call
}.

Definition empty_radix (sh : bool) : Radix :=
  mkRadix ∅ None None [] sh [].

(** [await this.store.get<RNode>(id) ?? []] *)
Definition load (c : gmap string RNode) (id : string) : RNode :=
  default [] (c !! id).

(** [store.get(v as string) ?? []] in [has] and [get], where [v] may be a
    leaf: the array is no key of the store, so nothing is found. *)
Definition load_target (c : gmap string RNode) (v : target) : RNode :=
  match v with
  | Branch id => load c id
  | Leaf _ => []
  end.

(** ** The descent shared by [has], [get] and [del]

    The [for] loop over the edges of a node: skip the edges whose first
    character differs from that of the key, stop at the first one whose
    whole label starts the key.  The index is kept for [del]. *)
Fixpoint scan (i : nat) (node : RNode) (key : string)
  : option (nat * string * target) :=
  match node with
  | [] => None
  | (n, v) :: rest =>
      if negb (JS.option_ascii_eqb (JS.head n) (JS.head key)) then
        scan (S i) rest key
      else if String.eqb (JS.take (String.length n) key) n then
        Some (i, n, v)
      else scan (S i) rest key
  end.

(** The [while] loop of [get], up to the text handed to [JSON.parse]:
    [Some None] is [undefined], [None] is fuel run out. *)
Fixpoint get_loop (fuel : nat) (c : gmap string RNode) (node : RNode)
  (key : string) : option (option string) :=
  match fuel with
  | O => None
  | S fuel' =>
      match scan 0 node key with
      | None => Some None
      | Some (_, n, v) =>
          let key' := JS.drop (String.length n) key in
          match JS.empty key', v with
          | true, Leaf enc => Some (Some enc)
          | _, _ => get_loop fuel' c (load_target c v) key'
          end
      end
  end.

Fixpoint has_loop (fuel : nat) (c : gmap string RNode) (node : RNode)
  (key : string) : option bool :=
  match fuel with
  | O => None
  | S fuel' =>
      match scan 0 node key with
      | None => Some false
      | Some (_, n, v) =>
          let key' := JS.drop (String.length n) key in
          if JS.empty key' && isArray v then Some true
          else has_loop fuel' c (load_target c v) key'
      end
  end.

(** [Radix.has]: [None] when the fuel runs out before the walk ends. *)
Definition has (fuel : nat) (r : Radix) (key : string) : option bool :=
  has_loop fuel (cells r) (load (cells r) NODE_ROOT) key.

(** What [Radix.get] does: return [undefined], return the parsed value, or
    let the [SyntaxError] of [JSON.parse] escape. *)
Inductive got (V : Type) : Type :=
| Undefined
| Value (v : V)
| Raised.
Arguments Undefined {V}.
Arguments Value {V} v.
Arguments Raised {V}.

Section GetValue.
Context {V : Type}.
(** [JSON.parse], [None] where it throws. *)
Variable JSON_parse : string -> option V.

Definition parsed (enc : string) : got V :=
  match JSON_parse enc with
  | Some v => Value v
  | None => Raised
  end.

(** [Radix.get]: [None] when the fuel runs out before the walk ends. *)
Definition get (fuel : nat) (r : Radix) (key : string) : option (got V) :=
  match get_loop fuel (cells r) (load (cells r) NODE_ROOT) key with
  | None => None
  | Some None => Some Undefined
  | Some (Some enc) => Some (parsed enc)
  end.
End GetValue.

(** The encoded text [get] finds, before [JSON.parse]. *)
Definition get_enc (fuel : nat) (r : Radix) (key : string)
  : option (option string) :=
  get_loop fuel (cells r) (load (cells r) NODE_ROOT) key.

(** ** Store calls and the id allocator *)

(** [await this.store.set(id, node)] *)
Definition store_set (id : string) (node : RNode) (r : Radix) : Radix :=
  mkRadix (<[id := node]> (cells r)) (counter r) (m_id r) (m_recycleIds r)
    (shares r) (journal r ++ [StoreSet id node]).

(** [await this.store.del(id)] *)
Definition store_del (id : string) (r : Radix) : Radix :=
  mkRadix (delete id (cells r)) (counter r) (m_id r) (m_recycleIds r)
    (shares r) (journal r ++ [StoreDel id]).

(** [this.m_recycleIds.add(id)]: a set, so an id already there stays where
    it is. *)
Definition recycle (id : string) (r : Radix) : Radix :=
  mkRadix (cells r) (counter r) (m_id r)
    (if bool_decide (id ∈ m_recycleIds r) then m_recycleIds r
     else m_recycleIds r ++ [id])
    (shares r) (journal r).

(** An array changed in place: a store that hands out its own arrays sees
    the change at once, without any [store.set]. *)
Definition in_place (id : string) (node : RNode) (r : Radix) : Radix :=
  if shares r then
    mkRadix (<[id := node]> (cells r)) (counter r) (m_id r) (m_recycleIds r)
      (shares r) (journal r)
  else r.

(** One digit of [Number.prototype.toString(36)]. *)
Definition digit36 (d : N) : ascii :=
  if (d <? 10)%N then ascii_of_N (48 + d) else ascii_of_N (87 + d).

Fixpoint toString36_go (fuel : nat) (n : N) (acc : string) : string :=
  match fuel with
  | O => acc
  | S fuel' =>
      let acc' := String (digit36 (n mod 36)) acc in
      if (n / 36 =? 0)%N then acc' else toString36_go fuel' (n / 36)%N acc'
  end.

(** [n.toString(36)] for a natural number [n]. *)
Definition toString36 (n : N) : string :=
  toString36_go (S (N.to_nat (N.log2 n))) n "".

(** [Radix.nextId].  The id counter is a natural number here; the source
    counts in doubles, which follow the natural numbers below [2^53]. *)
Definition nextId (r : Radix) : string * Radix :=
  match m_recycleIds r with
  | id :: rest =>
      (id, mkRadix (cells r) (counter r) (m_id r) rest (shares r) (journal r))
  | [] =>
      let next :=
        match m_id r with
        | Some n => n
        | None => default 0%N (counter r)
        end in
      (toString36 next,
       mkRadix (cells r) (Some (next + 1)%N) (Some (next + 1)%N) []
         (shares r) (journal r ++ [StoreSetCounter (next + 1)%N]))
  end.

(** ** [nodeSort]

    [node.sort((a, b) => +(a[0] > b[0]) - 0.5)]: the comparator says
    "after" when the first label is greater and "before" otherwise, also
    on equal labels.  On labels that are pairwise different every sorting
    procedure returns the one sorted arrangement; insertion is taken
    here. *)
Fixpoint sort_insert (e : edge) (node : RNode) : RNode :=
  match node with
  | [] => [e]
  | x :: rest =>
      if JS.gt (fst e) (fst x) then x :: sort_insert e rest
      else e :: x :: rest
  end.

Definition nodeSort (node : RNode) : RNode :=
  foldr sort_insert [] node.

(** ** [Radix.set] *)

(** The inner [while] of [set]: moves the common start of the label and of
    the key to [kNew]; returns [(kNew, kLeft, key)]. *)
Fixpoint common (kLeft key : string) : string * string * string :=
  match kLeft, key with
  | String a kLeft', String b key' =>
      if Ascii.eqb a b then
        let '(kNew, l, k) := common kLeft' key' in (String a kNew, l, k)
      else ("", kLeft, key)
  | _, _ => ("", kLeft, key)
  end.

(** The first edge whose label starts with the first character of the key. *)
Fixpoint scan_head (i : nat) (node : RNode) (key : string)
  : option (nat * string * target) :=
  match node with
  | [] => None
  | (k, v) :: rest =>
      if negb (JS.option_ascii_eqb (JS.head k) (JS.head key)) then
        scan_head (S i) rest key
      else Some (i, k, v)
  end.

(** [node.splice(i, 1)] *)
Definition splice_out (i : nat) (node : RNode) : RNode :=
  take i node ++ drop (S i) node.

(** [node.splice(i, 1, e)] *)
Definition splice_in (i : nat) (e : edge) (node : RNode) : RNode :=
  take i node ++ e :: drop (S i) node.

Fixpoint set_loop (fuel : nat) (val : string) (nodePathOld : string)
  (node : RNode) (key : string) (r : Radix) : option Radix :=
  match fuel with
  | O => None
  | S fuel' =>
      match scan_head 0 node key with
      | None =>
          Some (store_set nodePathOld (nodeSort (node ++ [(key, Leaf val)])) r)
      | Some (i, k, v) =>
          let '(kNew, kLeft, key') := common k key in
          let split :=
            let '(nodePathNew, r1) := nextId r in
            let r2 :=
              store_set nodePathOld
                (nodeSort (splice_out i node ++ [(kNew, Branch nodePathNew)]))
                r1 in
            store_set nodePathNew
              (nodeSort [(key', Leaf val); (kLeft, v)]) r2 in
          if (negb (JS.empty key') && JS.empty kLeft) || String.eqb k kNew then
            match v with
            | Leaf _ =>
                if String.eqb key' kLeft && JS.empty kLeft then
                  Some (store_set nodePathOld (<[i := (k, Leaf val)]> node) r)
                else Some split
            | Branch id =>
                set_loop fuel' val id (load (cells r) id) key' r
            end
          else Some split
      end
  end.

Section SetValue.
Context {V : Type}.
(** [jsonEncode] *)
Variable encode : V -> string.

(** [Radix.set]: [None] when the fuel runs out before the walk ends. *)
Definition set (fuel : nat) (r : Radix) (key : string) (value : V)
  : option Radix :=
  set_loop fuel (encode value) NODE_ROOT (load (cells r) NODE_ROOT) key r.
End SetValue.

(** ** [Radix.del] *)

(** An entry of [prevNodes]: the index and the label of the edge followed,
    the id of the node it leads to, and that node as it was read (which
    is the stored array itself as long as no node lies below itself). *)
Abbreviation frame := (nat * string * string * list (string * target))%type.

(** [prevNodes.pop()] *)
Definition pop (prevNodes : list frame) : option (frame * list frame) :=
  match reverse prevNodes with
  | [] => None
  | f :: rest => Some (f, reverse rest)
  end.

Fixpoint del_loop (fuel : nat) (curNodePath : string) (node : RNode)
  (prevNodes : list frame) (key : string) (r : Radix)
  : option (bool * Radix) :=
  match fuel with
  | O => None
  | S fuel' =>
      match scan 0 node key with
      | None => Some (false, r)
      | Some (i, n, v) =>
          let key' := JS.drop (String.length n) key in
          match v with
          | Leaf _ =>
              let node1 := splice_out i node in
              let r1 := in_place curNodePath node1 r in
              match node1 with
              | [] =>
                  match pop prevNodes with
                  | None => Some (true, r1)
                  | Some ((curI, _, curNodePath', _), _) =>
                      let r2 := recycle curNodePath' (store_del curNodePath' r1) in
                      match cells r2 !! curNodePath' with
                      | None => Some (true, r2)
                      | Some node2 =>
                          Some (true,
                                store_set curNodePath' (splice_out curI node2) r2)
                      end
                  end
              | [(l, t)] =>
                  let r2 := recycle curNodePath (store_del curNodePath r1) in
                  match pop prevNodes with
                  | None => Some (true, r2)
                  | Some ((prevI, prevN, _, _), rest) =>
                      let '(_, _, curNodePath', node2) :=
                        match pop rest with
                        | Some (f, _) => f
                        | None => (0, "", NODE_ROOT, []) (* [-1, '', NODE_ROOT, []] *)
                        end in
                      let fieldNew := (prevN +:+ l, t) in
                      Some (true,
                            store_set curNodePath'
                              (splice_in prevI fieldNew node2) r2)
                  end
              | _ => Some (true, store_set curNodePath node1 r1)
              end
          | Branch id =>
              match cells r !! id with
              | None => Some (false, r)
              | Some node' =>
                  del_loop fuel' id node' (prevNodes ++ [(i, n, id, node')])
                    key' r
              end
          end
      end
  end.

(** [Radix.del]: [None] when the fuel runs out before the walk ends. *)
Definition del (fuel : nat) (r : Radix) (key : string)
  : option (bool * Radix) :=
  match cells r !! NODE_ROOT with
  | None => Some (false, r)
  | Some node => del_loop fuel NODE_ROOT node [] key r
  end.

(** ** [buildQueryFilter] *)

(** [type Query]; the fields carry a [q_] in front, the source's names
    being taken in Rocq. *)
Record Query : Type := mkQuery {
  q_prefix : option string;
  q_prefixNot : option string;
  q_prefixSome : option (list string);
  q_gt : option string;
  q_gte : option string;
  q_lt : option string;
  q_lte : option string;
  q_count : option Z;
  q_sort : option Z
}.

Definition no_query : Query :=
  mkQuery None None None None None None None None None.

Definition quote_char : ascii := Ascii.ascii_of_nat 39.
Definition backslash : ascii := Ascii.ascii_of_nat 92.

(** [value.replaceAll(/'/g, "\\'")]: the text [escape] puts between the two
    quotes of the literal it builds. *)
Fixpoint escape_quotes (value : string) : string :=
  match value with
  | EmptyString => EmptyString
  | String c rest =>
      if Ascii.eqb c quote_char then
        String backslash (String quote_char (escape_quotes rest))
      else String c (escape_quotes rest)
  end.

(** The string a single-quoted JavaScript literal with the given text
    between its quotes denotes, as [Function] reads the generated source:
    a backslash takes the next character with it ([\n], [\t], [\r], [\b],
    [\f], [\v] name control characters, any other character that starts no
    numeric escape stands for itself).  [None] where the text is no single
    literal (a quote that no backslash protects, a lone backslash at the
    end, a line break) or uses a numeric escape, which is not modelled. *)
Fixpoint literal_value (body : string) : option string :=
  match body with
  | EmptyString => Some EmptyString
  | String c rest =>
      if Ascii.eqb c backslash then
        match rest with
        | EmptyString => None
        | String d rest' =>
            let plain (x : ascii) := String x <$> literal_value rest' in
            if Ascii.eqb d "n" then plain (Ascii.ascii_of_nat 10)
            else if Ascii.eqb d "t" then plain (Ascii.ascii_of_nat 9)
            else if Ascii.eqb d "r" then plain (Ascii.ascii_of_nat 13)
            else if Ascii.eqb d "b" then plain (Ascii.ascii_of_nat 8)
            else if Ascii.eqb d "f" then plain (Ascii.ascii_of_nat 12)
            else if Ascii.eqb d "v" then plain (Ascii.ascii_of_nat 11)
            else if Ascii.eqb d "x" || Ascii.eqb d "u"
                    || ((48 <=? nat_of_ascii d) && (nat_of_ascii d <=? 57))
                    || Ascii.eqb d (Ascii.ascii_of_nat 10)
                    || Ascii.eqb d (Ascii.ascii_of_nat 13) then None
            else plain d
        end
      else if Ascii.eqb c quote_char
              || Ascii.eqb c (Ascii.ascii_of_nat 10)
              || Ascii.eqb c (Ascii.ascii_of_nat 13) then None
      else String c <$> literal_value rest
  end.

(** The value of the literal [escape(value, ...)] writes into the rules. *)
Definition escape (value : string) : option string :=
  literal_value (escape_quotes value).

(** [(t ? filter.slice(0, v.length) : filter)] *)
Definition trimmed (filter v : string) (t : bool) : string :=
  if t then JS.take (String.length v) filter else filter.

Definition QueryFilter : Type := string -> bool -> bool.

Definition noFilter : QueryFilter := fun _ _ => true.

(** One rule per field; a field that is [undefined] adds no rule. *)
Definition rule (bound : option string) (test : string -> QueryFilter)
  : option QueryFilter :=
  match bound with
  | None => Some noFilter
  | Some x => test <$> escape x
  end.

Definition rule_gt (x : string) : QueryFilter :=
  fun v t => if t then JS.ge v (JS.take (String.length v) x) else JS.gt v x.
Definition rule_gte (x : string) : QueryFilter :=
  fun v t => JS.ge v (trimmed x v t).
Definition rule_lt (x : string) : QueryFilter :=
  fun v t => if t then JS.le v (JS.take (String.length v) x) else JS.lt v x.
Definition rule_lte (x : string) : QueryFilter :=
  fun v t => JS.le v (trimmed x v t).
Definition rule_prefixSome (xs : list string) : QueryFilter :=
  fun v t =>
    existsb (fun x => let e := trimmed x v t in
                      String.eqb (JS.take (String.length e) v) e) xs.
(** [len] is [query.prefix.length], the length of the bound as given. *)
Definition rule_prefix (len : nat) (x : string) : QueryFilter :=
  fun v t => String.eqb (JS.take len v) (trimmed x v t).
Definition rule_prefixNot (len : nat) (x : string) : QueryFilter :=
  fun v _ => negb (String.eqb (JS.take len v) x).

(** All literals of a list, [None] if one of them is none. *)
Fixpoint escape_all (xs : list string) : option (list string) :=
  match xs with
  | [] => Some []
  | x :: rest =>
      match escape x, escape_all rest with
      | Some y, Some ys => Some (y :: ys)
      | _, _ => None
      end
  end.

(** [buildQueryFilter(query)]: the function [Function] makes of the rules,
    [None] where a literal of the generated source is none. *)
Definition buildQueryFilter (query : option Query) : option QueryFilter :=
  match query with
  | None => Some noFilter
  | Some q =>
      f_gt ← rule (q_gt q) rule_gt;
      f_gte ← rule (q_gte q) rule_gte;
      f_lt ← rule (q_lt q) rule_lt;
      f_lte ← rule (q_lte q) rule_lte;
      f_some ← match q_prefixSome q with
               | None => Some noFilter
               | Some xs => rule_prefixSome <$> escape_all xs
               end;
      f_prefix ← rule (q_prefix q)
                   (rule_prefix (String.length (default "" (q_prefix q))));
      f_not ← rule (q_prefixNot q)
                (rule_prefixNot (String.length (default "" (q_prefixNot q))));
      Some (fun v t =>
              f_gt v t && f_gte v t && f_lt v t && f_lte v t
              && f_some v t && f_prefix v t && f_not v t)
  end.

(** ** [Radix._loop] and [Radix.loop] *)

(** The edges in the order [_loop] visits them: as stored for [sort = 1],
    from the last to the first for [sort = 0]. *)
Definition visit_order (sort : bool) (node : RNode) : RNode :=
  if sort then node else reverse node.

(** The [for] loop of [_loop] over the edges [l] still to visit: the pairs
    it reaches, each with the encoded text [JSON.parse] is given before
    the [yield], and [query.count] as the loop leaves it.  The query object is one object shared by all the
    nested calls, so the count is threaded through them.  [nested] is the
    call of [_loop] on a referenced node. *)
Fixpoint loop_edges
  (nested : Z -> string -> string -> option (list (string * string) * Z))
  (filter : QueryFilter) (key : string) (l : RNode) (count : Z)
  : option (list (string * string) * Z) :=
  match l with
  | [] => Some ([], count)
  | (k, v) :: rest =>
      let keyAcc := key +:+ k in
      match v with
      | Leaf enc =>
          if negb (filter keyAcc false) then
            loop_edges nested filter key rest count
          else
            let count' := (count - 1)%Z in
            if (count' =? 0)%Z then Some ([(keyAcc, enc)], count')
            else
              '(ys, n) ← loop_edges nested filter key rest count';
              Some ((keyAcc, enc) :: ys, n)
      | Branch id =>
          if negb (filter keyAcc true) then
            loop_edges nested filter key rest count
          else
            '(xs, n) ← nested count keyAcc id;
            '(ys, n') ← loop_edges nested filter key rest n;
            Some (xs ++ ys, n')
      end
  end.

(** [_loop]: [None] when the fuel runs out. *)
Fixpoint _loop (fuel : nat) (c : gmap string RNode) (sort : bool)
  (filter : QueryFilter) (count : Z) (key : string) (root : string)
  : option (list (string * string) * Z) :=
  match fuel with
  | O => None
  | S fuel' =>
      if (count =? 0)%Z then Some ([], count)
      else
        loop_edges (_loop fuel' c sort filter) filter key
          (visit_order sort (load c root)) count
  end.

(** What [loop] does: yield pairs to the end, or yield pairs and then let
    an exception escape (the [SyntaxError] of [Function], before any pair,
    or that of [JSON.parse]). *)
Inductive looped (V : Type) : Type :=
| Yields (l : list (string * V))
| Throws (l : list (string * V)).
Arguments Yields {V} l.
Arguments Throws {V} l.

Section LoopValue.
Context {V : Type}.
(** [JSON.parse], [None] where it throws. *)
Variable JSON_parse : string -> option V.

(** [yield [keyAcc, JSON.parse(v[0])]] along the pairs [_loop] reaches: they
    come out decoded, up to the first text on which [JSON.parse] throws. *)
Fixpoint decoded (l : list (string * string)) : looped V :=
  match l with
  | [] => Yields []
  | (key, enc) :: rest =>
      match JSON_parse enc with
      | None => Throws []
      | Some v =>
          match decoded rest with
          | Yields ys => Yields ((key, v) :: ys)
          | Throws ys => Throws ((key, v) :: ys)
          end
      end
  end.

(** [Radix.loop]: [None] when the fuel runs out. *)
Definition loop (fuel : nat) (r : Radix) (query : option Query)
  : option (looped V) :=
  let count := default (-1)%Z (query ≫= q_count) in
  let sort := negb (bool_decide (query ≫= q_sort = Some (-1)%Z)) in
  match buildQueryFilter query with
  | None => Some (Throws [])
  | Some filter =>
      '(ys, _) ← _loop fuel (cells r) sort filter count "" NODE_ROOT;
      Some (decoded ys)
  end.
End LoopValue.

(** ** [jsonEncode] *)

(** The numbers the model tells apart: the integers (a double holds those
    below [2^53] in size exactly, and [JSON.stringify] writes them digit
    by digit), the two infinities and [NaN]. *)
Inductive JNumber : Type :=
| Finite (z : Z)
| Infinity
| NegInfinity
| NaN.

(** [type JValue = JArray | JObject | JSimple] *)
#[warnings="-register-all"]
Inductive JValue : Type :=
| JNull
| JBool (b : bool)
| JNum (n : JNumber)
| JStr (s : string)
| JArr (items : list JValue)
| JObj (fields : list (string * JValue)).

(** [jsonSerializer]: what the replacer makes of one value. *)
Definition jsonSerializer (value : JValue) : JValue :=
  match value with
  | JNum Infinity => JStr "9e999"
  | JNum NegInfinity => JStr "-9e999"
  | _ => value
  end.

Definition dquote : ascii := Ascii.ascii_of_nat 34.

Definition hex_digit (n : nat) : ascii :=
  if n <? 10 then Ascii.ascii_of_nat (48 + n) else Ascii.ascii_of_nat (87 + n).

(** The text [JSON.stringify] writes for the characters of a string. *)
Fixpoint quote_chars (s : string) : string :=
  match s with
  | EmptyString => EmptyString
  | String c rest =>
      let n := nat_of_ascii c in
      let two (d : ascii) := String backslash (String d (quote_chars rest)) in
      if Ascii.eqb c dquote then two dquote
      else if Ascii.eqb c backslash then two backslash
      else if n =? 8 then two "b"%char
      else if n =? 9 then two "t"%char
      else if n =? 10 then two "n"%char
      else if n =? 12 then two "f"%char
      else if n =? 13 then two "r"%char
      else if n <? 32 then
        String backslash
          (String "u" (String "0" (String "0"
             (String (hex_digit (n / 16))
                (String (hex_digit (n mod 16)) (quote_chars rest))))))
      else String c (quote_chars rest)
  end.

Definition quoted (s : string) : string :=
  String dquote (quote_chars s +:+ String dquote EmptyString).

Definition number_text (n : JNumber) : string :=
  match n with
  | Finite z => NilZero.string_of_int (Z.to_int z)
  | _ => "null"
  end.

Fixpoint joined (parts : list string) : string :=
  match parts with
  | [] => ""
  | [p] => p
  | p :: rest => p +:+ "," +:+ joined rest
  end.

(** What [JSON.stringify] writes for a value that is no array and no
    object, once the replacer has seen it. *)
Definition simple_text (value : JValue) : string :=
  match value with
  | JNull => "null"
  | JBool true => "true"
  | JBool false => "false"
  | JNum n => number_text n
  | JStr s => quoted s
  | _ => ""
  end.

(** [JSON.stringify(data, jsonSerializer)]: the replacer sees every value
    before it is written; it leaves arrays and objects as they are. *)
Fixpoint stringify (data : JValue) : string :=
  match data with
  | JArr items => "[" +:+ joined (map stringify items) +:+ "]"
  | JObj fields =>
      "{" +:+ joined (map (fun '(k, v) => quoted k +:+ ":" +:+ stringify v)
                        fields) +:+ "}"
  | _ => simple_text (jsonSerializer data)
  end.

(** [text.replaceAll(/"(-?9e999)"/g, (_str, grp) => grp)]: [skip] counts
    the characters of a match still to be passed over. *)
Fixpoint unquote_9e999 (skip : nat) (text : string) : string :=
  match text with
  | EmptyString => EmptyString
  | String c rest =>
      match skip with
      | S skip' => unquote_9e999 skip' rest
      | O =>
          if String.prefix (quoted "9e999") text then
            "9e999" +:+ unquote_9e999 6 rest
          else if String.prefix (quoted "-9e999") text then
            "-9e999" +:+ unquote_9e999 7 rest
          else String c (unquote_9e999 0 rest)
      end
  end.

(** [jsonEncode] *)
Definition jsonEncode (data : JValue) : string :=
  unquote_9e999 0 (stringify data).

(** ** Sequences of public calls *)

Inductive call : Type :=
| CallSet (key : string) (value : JValue)
| CallDel (key : string).

(** One public call on the tree; the result of [del] is dropped. *)
Definition step (fuel : nat) (r : Radix) (c : call) : option Radix :=
  match c with
  | CallSet key value => set jsonEncode fuel r key value
  | CallDel key => snd <$> del fuel r key
  end.

Fixpoint run (fuel : nat) (r : Radix) (calls : list call) : option Radix :=
  match calls with
  | [] => Some r
  | c :: rest => r' ← step fuel r c; run fuel r' rest
  end.

(** The states the public calls [set] and [del] lead to from an empty
    store. *)
Inductive reachable : Radix -> Prop :=
| reachable_empty sh : reachable (empty_radix sh)
| reachable_set fuel r key value r' :
    reachable r -> set jsonEncode fuel r key value = Some r' -> reachable r'
| reachable_del fuel r key b r' :
    reachable r -> del fuel r key = Some (b, r') -> reachable r'.

Definition num (z : Z) : JValue := JNum (Finite z).

Definition is_Some_bool {A : Type} (o : option A) : bool :=
  match o with
  | Some _ => true
  | None => false
  end.

Definition is_defined {V : Type} (g : got V) : bool :=
  match g with
  | Undefined => false
  | _ => true
  end.

(** ** The structural invariant *)

(** The place of a label among the edges of a node: [0] for the empty
    label, which has no first character, and one more than the code of the
    first character otherwise. *)
Definition hcode (l : string) : N :=
  match l with
  | EmptyString => 0%N
  | String c _ => N.succ (N_of_ascii c)
  end.

(** The first characters grow strictly along the edges. *)
Definition heads_sorted (node : RNode) : Prop :=
  StronglySorted (fun a b : edge => (hcode (fst a) < hcode (fst b))%N) node.

(** What holds of every node: the first characters grow strictly, and the
    label of an edge to another node is not empty. *)
Definition node_ok (node : RNode) : Prop :=
  heads_sorted node /\ forall l id, (l, Branch id) ∈ node -> l <> "".

(** The same in the words of the specification, with the one difference
    that a leaf edge may carry the empty label: edges ascending by label,
    no two edges with the same first character (the empty label counting
    as having none), labels of edges to other nodes not empty, and a node
    other than the root without edges or with two or more. *)
Definition node_invariant (id : string) (node : RNode) : Prop :=
  StronglySorted (fun a b : edge => JS.lt (fst a) (fst b) = true) node
  /\ NoDup (map (fun e : edge => JS.head (fst e)) node)
  /\ (forall l t, (l, Branch t) ∈ node -> l <> "")
  /\ (id <> NODE_ROOT -> length node = 0 \/ 2 <= length node).

(** The invariant as the specification words it: every label non-empty. *)
Definition stated_invariant (id : string) (node : RNode) : Prop :=
  StronglySorted (fun a b : edge => JS.lt (fst a) (fst b) = true) node
  /\ NoDup (map (fun e : edge => JS.head (fst e)) node)
  /\ (forall l t, (l, t) ∈ node -> l <> "")
  /\ (id <> NODE_ROOT -> length node = 0 \/ 2 <= length node).

(** The node records a call has persisted: the [store.set] calls the
    journal has gained. *)
Definition persisted (before after : Radix) : list (string * RNode) :=
  omap (fun w => match w with StoreSet id node => Some (id, node) | _ => None end)
    (drop (length (journal before)) (journal after)).

(** Every node of the store is well formed, and a node other than the root
    has two edges or more. *)
Definition nodes_ok (c : gmap string RNode) : Prop :=
  forall id node, c !! id = Some node ->
    node_ok node /\ (id <> NODE_ROOT -> 2 <= length node).

(** The node stored under [id] has an edge with the label [l] to the node
    [t]. *)
Definition refs (c : gmap string RNode) (id l t : string) : Prop :=
  exists node, c !! id = Some node /\ (l, Branch t) ∈ node.

(** No edge leads to a node that is not stored, the root apart. *)
Definition closed (c : gmap string RNode) : Prop :=
  forall id l t, refs c id l t -> t <> NODE_ROOT -> is_Some (c !! t).

(** A node other than the root is referenced by one edge at most. *)
Definition unshared (c : gmap string RNode) : Prop :=
  forall id1 l1 id2 l2 t,
    t <> NODE_ROOT -> refs c id1 l1 t -> refs c id2 l2 t ->
    id1 = id2 /\ l1 = l2.

(** [rk] decreases along every edge: no node is below itself. *)
Definition ranked (rk : string -> nat) (c : gmap string RNode) : Prop :=
  forall id l t, refs c id l t -> rk t < rk id.

(** The three properties of the store that do not depend on a rank. *)
Definition cells_ok (c : gmap string RNode) : Prop :=
  nodes_ok c /\ closed c /\ unshared c.

(** The next ordinal [nextId] draws when the recycle set is empty. *)
Definition next_ordinal (r : Radix) : N :=
  match m_id r with
  | Some n => n
  | None => default 0%N (counter r)
  end.

(** The ids the allocator may hand out are free: those of the recycle set
    [pool] (the id of the root apart, which [del] may have put there) and
    those of the ordinals from [next] on, which are not in the recycle
    set either. *)
Definition alloc_free (pool : list string) (next : N)
  (c : gmap string RNode) : Prop :=
  NoDup pool
  /\ (forall p, p ∈ pool -> p <> NODE_ROOT -> c !! p = None)
  /\ (forall n, (next <= n)%N -> c !! toString36 n = None)
  /\ (forall p n, p ∈ pool -> (next <= n)%N -> p <> toString36 n).

Definition alloc_ok (r : Radix) : Prop :=
  alloc_free (m_recycleIds r) (next_ordinal r) (cells r).

(** What a call may persist: a well-formed node, with two edges or more
    unless it is the root. *)
Definition write_ok (w : store_call) : Prop :=
  match w with
  | StoreSet id node => node_ok node /\ (id <> NODE_ROOT -> 2 <= length node)
  | _ => True
  end.

(** The invariant of the states the public calls lead to. *)
Definition Inv (r : Radix) : Prop :=
  cells_ok (cells r) /\ (exists rk, ranked rk (cells r)) /\ alloc_ok r.

(** The places of the labels of a node. *)
Definition heads (node : RNode) : list N :=
  map (fun e : edge => hcode (fst e)) node.

(** The value of a digit of [toString(36)] and of a string of them, read
    from the left on top of [acc]. *)
Definition digit_value (c : ascii) : N :=
  let x := N_of_ascii c in
  if (x <? 58)%N then (x - 48)%N else (x - 87)%N.

Fixpoint value36 (s : string) (acc : N) : N :=
  match s with
  | EmptyString => acc
  | String c rest => value36 rest (acc * 36 + digit_value c)%N
  end.

(** What a call leaves behind: the invariant, and a journal grown by
    writes that are all well formed. *)
Definition kept (r r' : Radix) : Prop :=
  Inv r' /\ shares r' = shares r
  /\ exists ws, journal r' = journal r ++ ws /\ Forall write_ok ws.

(** What [del] knows of the way down when it stands at the node [cur]:
    nothing at the root; below it, the last entry of [prevNodes] is that of
    [cur], and the node it was reached from (the root, or the node of the
    entry before) holds the edge followed at the index kept. *)
Definition frames_ok (c : gmap string RNode) (prevNodes : list frame)
  (cur : string) (node : RNode) : Prop :=
  (prevNodes = [] /\ cur = NODE_ROOT)
  \/ exists fs i n P pnode,
       prevNodes = fs ++ [(i, n, cur, node)] /\ cur <> NODE_ROOT
       /\ c !! P = Some pnode /\ pnode !! i = Some (n, Branch cur)
       /\ ((fs = [] /\ P = NODE_ROOT)
           \/ exists fs' i' n', fs = fs' ++ [(i', n', P, pnode)]).

(** ** Keys as paths *)

(** A key is the concatenation of the labels along a path from a node to
    a leaf edge; [finds c node key enc] says that such a path starts at
    [node], spells [key] and ends in the leaf with the text [enc]. *)
Inductive finds (c : gmap string RNode) : RNode -> string -> string -> Prop :=
| finds_leaf node n enc :
    (n, Leaf enc) ∈ node -> finds c node n enc
| finds_branch node n id s enc :
    (n, Branch id) ∈ node -> finds c (load c id) s enc ->
    finds c node (n +:+ s) enc.

(** The pairs below the node [root] in the order [_loop] visits them, when
    nothing is filtered out and the count never runs out. *)
Fixpoint walk (fuel : nat) (c : gmap string RNode) (sort : bool)
  (key : string) (root : string) : list (string * string) :=
  match fuel with
  | O => []
  | S fuel' =>
      visit_order sort (load c root) ≫=
        (fun e : edge =>
           match snd e with
           | Leaf enc => [(key +:+ fst e, enc)]
           | Branch id => walk fuel' c sort (key +:+ fst e) id
           end)
  end.

Definition sort_query (s : Z) : Query :=
  mkQuery None None None None None None None None (Some s).

(** The pairs below one edge. *)
Definition below (f : string -> string -> list (string * string))
  (key : string) (e : edge) : list (string * string) :=
  match snd e with
  | Leaf enc => [(key +:+ fst e, enc)]
  | Branch id => f (key +:+ fst e) id
  end.


(** A state to try the properties on: seven keys with a common start
    (those of the test "has no deleted value"), one of them deleted. *)
Definition sample_calls : list call :=
  [CallSet "co" (num 1); CallSet "coin" (num 2); CallSet "coinbase" (num 3);
   CallSet "community" (num 4); CallSet "cow" (num 5); CallSet "coweb" (num 6);
   CallSet "coworker" (num 7); CallDel "coin"].

Definition sample : Radix :=
  default (empty_radix true) (run 9 (empty_radix true) sample_calls).


(** A decoder to try the properties with: it reads the texts of the
    numbers [1] to [7] and throws on every other text. *)
Definition sample_parse (enc : string) : option Z :=
  if String.eqb enc "1" then Some 1%Z
  else if String.eqb enc "2" then Some 2%Z
  else if String.eqb enc "3" then Some 3%Z
  else if String.eqb enc "4" then Some 4%Z
  else if String.eqb enc "5" then Some 5%Z
  else if String.eqb enc "6" then Some 6%Z
  else if String.eqb enc "7" then Some 7%Z
  else None.

Definition count_query (n : Z) : Query :=
  mkQuery None None None None None None None (Some n) None.

Definition gte_query (x : string) : Query :=
  mkQuery None None None None (Some x) None None None None.

(** The keys a run of [loop] has yielded, whether it ended or threw. *)
Definition yielded_keys {V : Type} (o : option (looped V)) : option (list string) :=
  match o with
  | Some (Yields l) | Some (Throws l) => Some (l.*1)
  | None => None
  end.

(** The stores of the tests: the keys given, with the numbers from [1] on
    as values, set in this order on an empty store. *)
Definition stored (keys : list string) : option Radix :=
  run 9 (empty_radix true)
    (imap (fun i key => CallSet key (num (Z.of_nat (S i)))) keys).

Definition query_of (gt gte lt lte prefix : option string) : Query :=
  mkQuery prefix None None gt gte lt lte None None.

(** ** What a query asks for *)

(** [key.startsWith(x)] *)
Definition starts_with (x key : string) : bool :=
  String.eqb (JS.take (String.length x) key) x.

Definition holds (bound : option string) (test : string -> bool) : bool :=
  match bound with
  | None => true
  | Some x => test x
  end.

(** The clauses of a query on a full key, all of them to hold: [gt] and
    [lt] exclusive, [gte] and [lte] inclusive, [prefix], [prefixNot] and
    [prefixSome] as tests of how the key starts. *)
Definition satisfies (q : Query) (key : string) : bool :=
  holds (q_gt q) (fun x => JS.gt key x)
  && holds (q_gte q) (fun x => JS.ge key x)
  && holds (q_lt q) (fun x => JS.lt key x)
  && holds (q_lte q) (fun x => JS.le key x)
  && match q_prefixSome q with
     | None => true
     | Some xs => existsb (fun x => starts_with x key) xs
     end
  && holds (q_prefix q) (fun x => starts_with x key)
  && holds (q_prefixNot q) (fun x => negb (starts_with x key)).

(** A bound that the generated source reads back as it was given. *)
Definition literal_safe (x : string) : Prop := escape x = Some x.

Definition safe_bound (bound : option string) : Prop :=
  forall x, bound = Some x -> literal_safe x.

Definition bounds_safe (q : Query) : Prop :=
  safe_bound (q_gt q) /\ safe_bound (q_gte q) /\ safe_bound (q_lt q)
  /\ safe_bound (q_lte q) /\ safe_bound (q_prefix q)
  /\ safe_bound (q_prefixNot q)
  /\ (forall xs, q_prefixSome q = Some xs -> Forall literal_safe xs).

(** The test on a branch never turns away a prefix that a key passing the
    test on leaves starts with. *)
Definition conservative (f : QueryFilter) : Prop :=
  forall p s, f p true = false -> f (p +:+ s) false = false.

(** The filter a rule stands for once its literal is read: none for a
    field that is [undefined]. *)
Definition ruled (bound : option string) (test : string -> QueryFilter)
  : QueryFilter :=
  match bound with
  | None => noFilter
  | Some x => test x
  end.

(** ** Nodes below a node *)

(** [child c a b]: the node stored under [a] has an edge to the node [b];
    [desc c a b]: [b] is [a] or lies below it. *)
Definition child (c : gmap string RNode) (a b : string) : Prop :=
  exists l, refs c a l b.

Definition desc (c : gmap string RNode) : string -> string -> Prop :=
  rtc (child c).

(** The keys that start with one edge: the label itself for a leaf edge,
    the label followed by a key of the node the edge leads to otherwise. *)
Definition via (c : gmap string RNode) (ed : edge) (k e : string) : Prop :=
  match snd ed with
  | Leaf e0 => k = fst ed /\ e = e0
  | Branch t => exists s, k = fst ed +:+ s /\ finds c (load c t) s e
  end.
(** The value a sequence of assignments leaves for a key: that of the
    last pair with this key. *)
Fixpoint assigned (kvs : list (string * JValue)) (key : string)
  : option JValue :=
  match kvs with
  | [] => None
  | (k, v) :: rest =>
      match assigned rest key with
      | Some w => Some w
      | None => if String.eqb k key then Some v else None
      end
  end.

(** The calls [set(k, v)] for the pairs of a list, in its order. *)
Definition set_calls (kvs : list (string * JValue)) : list call :=
  map (fun kv => CallSet (fst kv) (snd kv)) kvs.

(** Every edge of [c'] is an edge of [c], or an edge of [c] to a node
    joined with an edge of that node. *)
Definition explained (c c' : gmap string RNode) : Prop :=
  forall id l v, (l, v) ∈ load c' id ->
    (l, v) ∈ load c id
    \/ exists n m cur,
         l = n +:+ m /\ (n, Branch cur) ∈ load c id /\ (m, v) ∈ load c cur.

(** ** What a count lets through

    [counted count full ys count']: [_loop], entered with [query.count]
    at [count] over the pairs [full] it would reach without a count, has
    yielded [ys] and left [count'].  A negative count lets everything
    through.  A positive one lets everything through while it lasts; once
    it has run out, a part of what follows may still come, for the count
    is tested on entering a node and after a yield of the node itself. *)
Definition counted (count : Z) (full ys : list (string * string)) (count' : Z)
  : Prop :=
  ((count < 0)%Z /\ ys = full /\ count' = (count - Z.of_nat (length full))%Z)
  \/ (count = 0%Z /\ sublist ys full /\ (count' <= 0)%Z)
  \/ ((Z.of_nat (length full) < count)%Z /\ ys = full
      /\ count' = (count - Z.of_nat (length full))%Z)
  \/ ((0 < count <= Z.of_nat (length full))%Z
      /\ exists rest,
           ys = take (Z.to_nat count) full ++ rest
           /\ sublist rest (drop (Z.to_nat count) full)
           /\ (count' <= 0)%Z).

(** A string without a backslash and without a line break (line feed,
    carriage return). *)
Definition plain_char (c : ascii) : bool :=
  negb (Ascii.eqb c backslash || Ascii.eqb c (Ascii.ascii_of_nat 10)
        || Ascii.eqb c (Ascii.ascii_of_nat 13)).

Fixpoint plain (s : string) : bool :=
  match s with
  | EmptyString => true
  | String c rest => plain_char c && plain rest
  end.

(** ** [new Radix(store)]

    The constructor on a store that holds what the state [r] holds: the
    recycle set of the new object is empty; [m_id] is the object kept in
    [nextIds] for this store when there is one ([known], the same process
    and the same store object), and [{ next: -1 }] otherwise, so that the
    next id is read from the store. *)
Definition Radix_new (known : bool) (r : Radix) : Radix :=
  mkRadix (cells r) (counter r) (if known then m_id r else None) []
    (shares r) (journal r).

(** The states reached when, besides [set] and [del], a new [Radix] may
    take the place of the one in use. *)
Inductive opened : Radix -> Prop :=
| opened_empty sh : opened (empty_radix sh)
| opened_new known r : opened r -> opened (Radix_new known r)
| opened_set fuel r key value r' :
    opened r -> set jsonEncode fuel r key value = Some r' -> opened r'
| opened_del fuel r key b r' :
    opened r -> del fuel r key = Some (b, r') -> opened r'.

(** The cached [m_id.next] is the number kept in the store. *)
Definition synced (r : Radix) : Prop :=
  forall n, m_id r = Some n -> counter r = Some n.

(** The store calls one [set] may make. *)
Definition set_footprint (ws : list store_call) : Prop :=
  (exists id node, ws = [StoreSet id node])
  \/ (exists old n1 new n2, ws = [StoreSet old n1; StoreSet new n2])
  \/ (exists k old n1 new n2,
        ws = [StoreSetCounter k; StoreSet old n1; StoreSet new n2]).

(** The store calls one [del] may make. *)
Definition del_footprint (ws : list store_call) : Prop :=
  ws = []
  \/ (exists id node, ws = [StoreSet id node])
  \/ (exists id, ws = [StoreDel id])
  \/ (exists id P node, ws = [StoreDel id; StoreSet P node]).

(** The text [JSON.stringify] writes for a string after the opening
    quote: its characters and the closing quote. *)
Definition quoted_tail (s : string) : string :=
  quote_chars s +:+ String dquote EmptyString.

(** The store calls of a [del] that does not take the root away and does
    not write it anew from an empty array: one [store.set], or a
    [store.del] followed by the [store.set] of a node other than the
    root. *)
Definition del_in_place (ws : list store_call) : Prop :=
  (exists id node, ws = [StoreSet id node])
  \/ (exists id P node, ws = [StoreDel id; StoreSet P node] /\ P <> NODE_ROOT).

(** A query whose bounds hold no backslash and no line break. *)
Definition plain_bound (bound : option string) : bool :=
  match bound with
  | None => true
  | Some x => plain x
  end.

Definition plain_query (q : Query) : bool :=
  plain_bound (q_gt q) && plain_bound (q_gte q) && plain_bound (q_lt q)
  && plain_bound (q_lte q) && plain_bound (q_prefix q)
  && plain_bound (q_prefixNot q)
  && match q_prefixSome q with
     | None => true
     | Some xs => forallb plain xs
     end.

(** A text without a double quote. *)
Fixpoint quote_free (text : string) : bool :=
  match text with
  | EmptyString => true
  | String c rest => negb (Ascii.eqb c dquote) && quote_free rest
  end.

(** The same state over a store of the other kind: one that hands out its
    own arrays ([true]) or copies of them ([false]). *)
Definition with_shares (b : bool) (r : Radix) : Radix :=
  mkRadix (cells r) (counter r) (m_id r) (m_recycleIds r) b (journal r).

(** The ids under which nodes are stored: the id of the root, and the
    numbers of the id counter written in base 36. *)
Definition id_ok (id : string) : Prop :=
  id = NODE_ROOT \/ exists n, id = toString36 n.

(** Every id in use, as the key of a node or in the recycle set, is one
    of them. *)
Definition ids_ok (r : Radix) : Prop :=
  forall id, is_Some (cells r !! id) \/ id ∈ m_recycleIds r -> id_ok id.

(** A value whose encoded text [JSON.parse] rejects: an object with the
    key [9e999], which [jsonEncode] writes without its quotes. *)
Definition unquoted_key : JValue := JObj [("9e999", num 1)].

(** A pair [loop] yields for a stored pair: the key, with the value
    [JSON.parse] makes of the text. *)
Definition read_as {V : Type} (JSON_parse : string -> option V)
  (p : string * string) (v : string * V) : Prop :=
  fst v = fst p /\ JSON_parse (snd p) = Some (snd v).

(** [JSON.parse] accepts every text of a list of stored pairs. *)
Definition all_parse {V : Type} (JSON_parse : string -> option V)
  (l : list (string * string)) : Prop :=
  Forall (fun p => is_Some (JSON_parse (snd p))) l.

(** The id counter is a number that [++] still changes: the source counts
    in doubles, which follow the natural numbers as far as [2^53]. *)
Definition counter_exact (r : Radix) : Prop := (next_ordinal r < 2 ^ 53)%N.

(** [Number.isSafeInteger]: the integers a double holds exactly, which
    [JSON.stringify] writes digit by digit. *)
Definition safe_integer (z : Z) : Prop := (- 2 ^ 53 < z < 2 ^ 53)%Z.

(** * Properties *)

Lemma reachable_run fuel calls r r' :
  reachable r -> run fuel r calls = Some r' -> reachable r'.
Proof.
  revert r. induction calls as [|c calls IH]; intros r Hr Hrun; simpl in Hrun.
  - by inversion Hrun; subst.
  - destruct (step fuel r c) as [r1|] eqn:Hstep; [|done]. simpl in Hrun.
    apply (IH r1); [|done]. destruct c as [key value|key]; simpl in Hstep.
    + by eapply reachable_set.
    + destruct (del fuel r key) as [[b r2]|] eqn:Hdel; [|done].
      simpl in Hstep. inversion Hstep; subst. by eapply reachable_del.
Qed.


(** ** [has] and [get] walk alike *)

Lemma has_loop_get_loop fuel c node key :
  has_loop fuel c node key = is_Some_bool <$> get_loop fuel c node key.
Proof.
  revert node key. induction fuel as [|fuel IH]; intros node key; [done|].
  simpl. destruct (scan 0 node key) as [[[i n] v]|]; [|done].
  destruct (JS.empty _), v; simpl; auto.
Qed.

(** X24. [has] and [get] make the same walk: on every state and key,
    [has] answers [false] exactly where [get] returns [undefined], and
    [true] exactly where [get] finds a text, which it then hands to
    [JSON.parse]: [get] returns the parsed value or lets the [SyntaxError]
    escape.  With the same fuel, one runs out exactly where the other
    does. *)
Theorem has_iff_get {V : Type} (JSON_parse : string -> option V) fuel r key :
  has fuel r key = is_defined <$> get JSON_parse fuel r key.
Proof.
  unfold has, get. rewrite has_loop_get_loop.
  destruct (get_loop _ _ _ _) as [[enc|]|]; simpl; [|done..].
  unfold parsed. by destruct (JSON_parse enc).
Qed.

(** ** Strings *)

Lemma str_append_nil_r (s : string) : s +:+ "" = s.
Proof. induction s as [|c s IH]; simpl; [done|by rewrite IH]. Qed.

Lemma str_append_assoc (a b c : string) : (a +:+ b) +:+ c = a +:+ (b +:+ c).
Proof. induction a as [|x a IH]; simpl; [done|by rewrite IH]. Qed.

Lemma str_append_inv_l (p a b : string) : p +:+ a = p +:+ b -> a = b.
Proof. induction p as [|x p IH]; simpl; [done|]. intros [= H]. auto. Qed.

Lemma str_take_append (n s : string) : JS.take (String.length n) (n +:+ s) = n.
Proof. induction n as [|c n IH]; simpl; [by destruct s|by rewrite IH]. Qed.

Lemma str_drop_append (n s : string) : JS.drop (String.length n) (n +:+ s) = s.
Proof. induction n as [|c n IH]; simpl; [by destruct s|done]. Qed.

Lemma str_take_drop (k : nat) (s : string) : JS.take k s +:+ JS.drop k s = s.
Proof.
  revert s. induction k as [|k IH]; intros [|c s]; simpl; try done.
  by rewrite IH.
Qed.

(** [key.slice(0, n.length) === n] says that [n] starts [key]. *)
Lemma str_take_eq_iff (n key : string) :
  JS.take (String.length n) key = n <-> key = n +:+ JS.drop (String.length n) key.
Proof.
  split; intros H.
  - rewrite <- H at 1. by rewrite str_take_drop.
  - rewrite H. apply str_take_append.
Qed.

Lemma empty_true (s : string) : JS.empty s = true <-> s = "".
Proof. by destruct s. Qed.

Lemma empty_false (s : string) : JS.empty s = false <-> s <> "".
Proof. by destruct s. Qed.

Lemma ascii_compare_refl (c : ascii) : Ascii.compare c c = Eq.
Proof. unfold Ascii.compare. apply N.compare_refl. Qed.

Lemma str_compare_refl (s : string) : String.compare s s = Eq.
Proof.
  induction s as [|c s IH]; simpl; [done|]. by rewrite ascii_compare_refl.
Qed.

Lemma str_compare_append (p a b : string) :
  String.compare (p +:+ a) (p +:+ b) = String.compare a b.
Proof.
  induction p as [|c p IH]; simpl; [done|]. by rewrite ascii_compare_refl.
Qed.

Lemma hcode_eq_head (a b : string) :
  JS.option_ascii_eqb (JS.head a) (JS.head b) = true <-> hcode a = hcode b.
Proof.
  destruct a as [|x a], b as [|y b]; simpl; try (split; [done|lia]); try done.
  rewrite Ascii.eqb_eq. split; [by intros ->|].
  intros H. apply N.succ_inj in H.
  by rewrite <- (ascii_N_embedding x), <- (ascii_N_embedding y), H.
Qed.

Lemma hcode_zero (s : string) : hcode s = 0%N <-> s = "".
Proof. destruct s; simpl; split; try done; lia. Qed.

Lemma hcode_append (a b : string) : a <> "" -> hcode (a +:+ b) = hcode a.
Proof. by destruct a. Qed.

Lemma hcode_lt_compare (a b : string) :
  (hcode a < hcode b)%N -> String.compare a b = Lt.
Proof.
  destruct a as [|x a], b as [|y b]; simpl; try lia; [done|].
  intros H. unfold Ascii.compare.
  assert (N_of_ascii x < N_of_ascii y)%N as Hlt by lia.
  by rewrite (proj2 (N.compare_lt_iff _ _) Hlt).
Qed.

Lemma hcode_lt_lt (a b : string) : (hcode a < hcode b)%N -> JS.lt a b = true.
Proof. intros H. unfold JS.lt. by rewrite hcode_lt_compare. Qed.

Lemma hcode_gt (a b : string) :
  hcode a <> hcode b -> JS.gt a b = bool_decide (hcode b < hcode a)%N.
Proof.
  intros Hne. unfold JS.gt. case_bool_decide as H.
  - by apply hcode_lt_lt.
  - assert (hcode a < hcode b)%N as Hlt by lia.
    unfold JS.lt. rewrite String.compare_antisym, (hcode_lt_compare a b Hlt).
    done.
Qed.

Lemma str_lt_irrefl (s : string) : JS.lt s s = false.
Proof. unfold JS.lt. by rewrite str_compare_refl. Qed.

Lemma str_compare_trans_lt (a b c : string) :
  String.compare a b = Lt -> String.compare b c = Lt -> String.compare a c = Lt.
Proof.
  revert b c. induction a as [|x a IH]; intros [|y b] [|z c]; simpl; try done.
  unfold Ascii.compare.
  destruct (N.compare_spec (N_of_ascii x) (N_of_ascii y)) as [Hxy|Hxy|Hxy];
    try done;
    destruct (N.compare_spec (N_of_ascii y) (N_of_ascii z)) as [Hyz|Hyz|Hyz];
    try done; intros H1 H2.
  - rewrite Hxy, Hyz, N.compare_refl. eauto.
  - rewrite Hxy. by rewrite (proj2 (N.compare_lt_iff _ _) Hyz).
  - rewrite <- Hyz. by rewrite (proj2 (N.compare_lt_iff _ _) Hxy).
  - assert (N_of_ascii x < N_of_ascii z)%N as H by lia.
    by rewrite (proj2 (N.compare_lt_iff _ _) H).
Qed.

Lemma str_lt_trans (a b c : string) :
  JS.lt a b = true -> JS.lt b c = true -> JS.lt a c = true.
Proof.
  unfold JS.lt. destruct (String.compare a b) eqn:H1; try done.
  destruct (String.compare b c) eqn:H2; try done.
  by rewrite (str_compare_trans_lt a b c H1 H2).
Qed.

(** The keys below an edge come before the keys below a later edge. *)
Lemma lt_across_edges (pre n s n' s' : string) :
  (hcode n < hcode n')%N -> (n = "" -> s = "") ->
  JS.lt (pre +:+ (n +:+ s)) (pre +:+ (n' +:+ s')) = true.
Proof.
  intros Hlt Hs. unfold JS.lt. rewrite str_compare_append.
  destruct n as [|x n].
  - rewrite (Hs eq_refl). simpl. destruct n' as [|y n']; simpl in *; [lia|done].
  - rewrite hcode_lt_compare; [done|].
    rewrite !hcode_append; [done| |done].
    intros ->. simpl in Hlt. lia.
Qed.

(** ** [nodeSort] orders a node whose first characters differ *)

Lemma sort_insert_perm (e : edge) (node : RNode) :
  sort_insert e node ≡ₚ e :: node.
Proof.
  induction node as [|x node IH]; simpl; [done|].
  destruct (JS.gt _ _); [|done]. rewrite IH. apply Permutation_swap.
Qed.

Lemma nodeSort_perm (node : RNode) : nodeSort node ≡ₚ node.
Proof.
  induction node as [|x node IH]; simpl; [done|].
  unfold nodeSort in *. simpl. by rewrite sort_insert_perm, IH.
Qed.

Lemma elem_of_nodeSort (e : edge) (node : RNode) :
  e ∈ nodeSort node <-> e ∈ node.
Proof. by rewrite nodeSort_perm. Qed.

Lemma length_nodeSort (node : RNode) : length (nodeSort node) = length node.
Proof. by rewrite nodeSort_perm. Qed.

Lemma sort_insert_sorted (e : edge) (node : RNode) :
  heads_sorted node ->
  (forall x, x ∈ node -> hcode (fst e) <> hcode (fst x)) ->
  heads_sorted (sort_insert e node).
Proof.
  unfold heads_sorted. induction node as [|x node IH]; intros Hs Hne; simpl.
  - repeat constructor.
  - apply StronglySorted_cons in Hs as [Hx Hs].
    rewrite hcode_gt by (apply Hne; left).
    case_bool_decide as Hlt.
    + apply StronglySorted_cons. split.
      * rewrite sort_insert_perm. by constructor.
      * apply IH; [done|]. intros y Hy. apply Hne. by right.
    + assert (hcode (fst e) < hcode (fst x))%N as Hex.
      { specialize (Hne x (list_elem_of_here _ _)). lia. }
      apply StronglySorted_cons. split.
      * constructor; [done|]. eapply Forall_impl; [exact Hx|].
        simpl. intros y Hy. lia.
      * by apply StronglySorted_cons.
Qed.

Lemma nodeSort_sorted (node : RNode) :
  NoDup (heads node) -> heads_sorted (nodeSort node).
Proof.
  induction node as [|x node IH]; intros Hnd.
  - constructor.
  - unfold heads in Hnd. simpl in Hnd. apply NoDup_cons in Hnd as [Hx Hnd].
    change (nodeSort (x :: node)) with (sort_insert x (nodeSort node)).
    apply sort_insert_sorted; [by apply IH|].
    intros y Hy Heq. apply (proj1 (elem_of_nodeSort _ _)) in Hy. apply Hx.
    rewrite Heq. apply (list_elem_of_fmap_2 (fun e : edge => hcode (fst e))), Hy.
Qed.

Lemma heads_sorted_NoDup (node : RNode) : heads_sorted node -> NoDup (heads node).
Proof.
  unfold heads_sorted, heads. induction 1 as [|x node Hs IH Hx]; simpl.
  - constructor.
  - apply NoDup_cons. split; [|done]. intros Hin.
    apply list_elem_of_fmap in Hin as (y & Hy & Hin).
    rewrite Forall_forall in Hx. specialize (Hx y Hin). lia.
Qed.

(** Two edges of a node with the same first character are one edge. *)
Lemma heads_sorted_inj (node : RNode) (e1 e2 : edge) :
  heads_sorted node -> e1 ∈ node -> e2 ∈ node ->
  hcode (fst e1) = hcode (fst e2) -> e1 = e2.
Proof.
  unfold heads_sorted. induction 1 as [|x node Hs IH Hx]; intros H1 H2 Heq.
  - by apply elem_of_nil in H1.
  - rewrite Forall_forall in Hx.
    apply elem_of_cons in H1 as [->|H1], H2 as [->|H2]; auto.
    + specialize (Hx _ H2). lia.
    + specialize (Hx _ H1). lia.
Qed.

Lemma heads_sorted_sublist (l1 l2 : RNode) :
  sublist l1 l2 -> heads_sorted l2 -> heads_sorted l1.
Proof.
  unfold heads_sorted. intros Hsub Hs. revert l1 Hsub.
  induction Hs as [|x l2 Hs IH Hx]; intros l1 Hsub.
  - apply sublist_nil_r in Hsub as ->. constructor.
  - inversion Hsub as [|y k1 k2 Hk|y k1 k2 Hk]; subst; [|by auto].
    apply StronglySorted_cons. split; [|by auto].
    rewrite Forall_forall in *. intros z Hz. apply Hx.
    by eapply elem_of_sublist.
Qed.

Lemma splice_out_sublist (i : nat) (node : RNode) : sublist (splice_out i node) node.
Proof.
  unfold splice_out. rewrite <- (take_drop i node) at 3.
  apply sublist_app; [done|].
  replace (S i) with (i + 1) by lia. rewrite <- drop_drop. apply sublist_drop.
Qed.

(** ** The scans of a node *)

Lemma scan_Some i node key j n v :
  scan i node key = Some (j, n, v) ->
  i <= j /\ node !! (j - i) = Some (n, v) /\ hcode n = hcode key
  /\ key = n +:+ JS.drop (String.length n) key.
Proof.
  revert i. induction node as [|[n' v'] node IH]; intros i H; simpl in H; [done|].
  destruct (JS.option_ascii_eqb _ _) eqn:Hh; simpl in H.
  - destruct (String.eqb _ _) eqn:Ht.
    + inversion H; subst. replace (j - j) with 0 by lia.
      apply hcode_eq_head in Hh. apply String.eqb_eq, str_take_eq_iff in Ht.
      done.
    + apply IH in H as (? & Hl & ? & ?). repeat split; [lia| |done..].
      replace (j - i) with (S (j - S i)) by lia. done.
  - apply IH in H as (? & Hl & ? & ?). repeat split; [lia| |done..].
    replace (j - i) with (S (j - S i)) by lia. done.
Qed.

Lemma scan_None i node key n v :
  scan i node key = None -> (n, v) ∈ node -> hcode n = hcode key ->
  JS.take (String.length n) key <> n.
Proof.
  revert i. induction node as [|[n' v'] node IH]; intros i H Hin Hh; simpl in H.
  - by apply elem_of_nil in Hin.
  - apply elem_of_cons in Hin as [[= <- <-]|Hin].
    + apply hcode_eq_head in Hh. rewrite Hh in H. simpl in H.
      destruct (String.eqb _ _) eqn:Ht; [done|]. by apply String.eqb_neq in Ht.
    + destruct (JS.option_ascii_eqb _ _); simpl in H;
        [destruct (String.eqb _ _); [done|]|]; eauto.
Qed.

(** In a well-formed node the scan finds the one edge that fits. *)
Lemma scan_complete i node key n v s :
  heads_sorted node -> (n, v) ∈ node -> hcode n = hcode key -> key = n +:+ s ->
  exists j, scan i node key = Some (j, n, v).
Proof.
  intros Hs Hin Hh Hk. revert i.
  induction node as [|[n' v'] node IH]; intros i; simpl.
  - by apply elem_of_nil in Hin.
  - destruct (JS.option_ascii_eqb _ _) eqn:Hh'; simpl.
    + apply hcode_eq_head in Hh'.
      assert ((n', v') = (n, v)) as [= -> ->].
      { eapply heads_sorted_inj; [exact Hs|left|done|]. simpl. congruence. }
      rewrite Hk, str_take_append, String.eqb_refl. eauto.
    + apply elem_of_cons in Hin as [[= <- <-]|Hin].
      { apply hcode_eq_head in Hh. congruence. }
      apply IH; [|done]. eapply heads_sorted_sublist; [|exact Hs].
      by apply sublist_cons.
Qed.

Lemma scan_head_Some i node key j k v :
  scan_head i node key = Some (j, k, v) ->
  i <= j /\ node !! (j - i) = Some (k, v) /\ hcode k = hcode key.
Proof.
  revert i. induction node as [|[n' v'] node IH]; intros i H; simpl in H; [done|].
  destruct (JS.option_ascii_eqb _ _) eqn:Hh; simpl in H.
  - inversion H; subst. replace (j - j) with 0 by lia.
    by apply hcode_eq_head in Hh.
  - apply IH in H as (? & Hl & ?). repeat split; [lia| |done].
    replace (j - i) with (S (j - S i)) by lia. done.
Qed.

Lemma scan_head_None i node key e :
  scan_head i node key = None -> e ∈ node -> hcode (fst e) <> hcode key.
Proof.
  revert i. induction node as [|[n' v'] node IH]; intros i H Hin; simpl in H.
  - by apply elem_of_nil in Hin.
  - destruct (JS.option_ascii_eqb _ _) eqn:Hh; simpl in H; [done|].
    apply elem_of_cons in Hin as [->|Hin]; [|eauto].
    simpl. intros Heq. apply hcode_eq_head in Heq. congruence.
Qed.

(** The inner loop of [set] splits the label and the key at the end of
    their common start. *)
Lemma common_spec k key kNew kLeft key' :
  common k key = (kNew, kLeft, key') ->
  k = kNew +:+ kLeft /\ key = kNew +:+ key'
  /\ (kLeft = "" \/ key' = "" \/ hcode kLeft <> hcode key').
Proof.
  revert key kNew kLeft key'.
  induction k as [|a k IH]; intros [|b key] kNew kLeft key' H; simpl in H;
    try (inversion H; subst; simpl; by auto).
  destruct (Ascii.eqb a b) eqn:Hab.
  - apply Ascii.eqb_eq in Hab as ->.
    destruct (common k key) as [[x y] z] eqn:Hc. inversion H; subst.
    apply IH in Hc as (-> & -> & ?). done.
  - inversion H; subst. simpl. repeat split. right; right.
    intros Heq. apply N.succ_inj in Heq. apply Ascii.eqb_neq in Hab. apply Hab.
    by rewrite <- (ascii_N_embedding a), <- (ascii_N_embedding b), Heq.
Qed.

Lemma common_nonempty k key kNew kLeft key' :
  common k key = (kNew, kLeft, key') -> hcode k = hcode key -> k <> "" ->
  kNew <> "".
Proof.
  destruct k as [|a k], key as [|b key]; simpl; try done; try lia.
  intros H Hh _. apply N.succ_inj in Hh.
  assert (a = b) as -> by by rewrite <- (ascii_N_embedding a), <- (ascii_N_embedding b), Hh.
  rewrite Ascii.eqb_refl in H. destruct (common k key) as [[x y] z].
  by inversion H.
Qed.

(** ** How the writes of [set] and [del] keep the store well formed *)

Lemma refs_insert c id node id' l t :
  refs (<[id := node]> c) id' l t <->
  (id' = id /\ (l, Branch t) ∈ node) \/ (id' <> id /\ refs c id' l t).
Proof.
  unfold refs. destruct (decide (id' = id)) as [->|Hne].
  - rewrite lookup_insert_eq. split.
    + intros (n & [= <-] & Hin). by left.
    + intros [[_ Hin]|[? _]]; [eauto|done].
  - rewrite lookup_insert_ne by done. split; [by right|].
    by intros [[? _]|[_ ?]].
Qed.

Lemma refs_delete c id id' l t :
  refs (delete id c) id' l t <-> id' <> id /\ refs c id' l t.
Proof.
  unfold refs. destruct (decide (id' = id)) as [->|Hne].
  - rewrite lookup_delete_eq. split; [by intros (? & ? & ?)|by intros [? _]].
  - rewrite lookup_delete_ne by done. tauto.
Qed.

Lemma is_Some_insert (c : gmap string RNode) id node t :
  is_Some (c !! t) -> is_Some (<[id := node]> c !! t).
Proof.
  destruct (decide (t = id)) as [->|Hne].
  - by rewrite lookup_insert_eq.
  - by rewrite lookup_insert_ne.
Qed.

Lemma nodes_ok_insert c id node :
  nodes_ok c -> node_ok node -> (id <> NODE_ROOT -> 2 <= length node) ->
  nodes_ok (<[id := node]> c).
Proof.
  intros Hc Hn Hl id' node' Hlk. destruct (decide (id' = id)) as [->|Hne].
  - rewrite lookup_insert_eq in Hlk. by inversion Hlk; subst.
  - rewrite lookup_insert_ne in Hlk by done. eauto.
Qed.

Lemma nodes_ok_delete c id : nodes_ok c -> nodes_ok (delete id c).
Proof.
  intros Hc id' node' Hlk. destruct (decide (id' = id)) as [->|Hne].
  - by rewrite lookup_delete_eq in Hlk.
  - rewrite lookup_delete_ne in Hlk by done. eauto.
Qed.

Ltac split_ok := split; [split; [|split]|].

(** A node rewritten with edges it already had. *)
Lemma cells_ok_rewrite c rk id node :
  cells_ok c -> ranked rk c -> node_ok node ->
  (id <> NODE_ROOT -> 2 <= length node) ->
  (forall l t, (l, Branch t) ∈ node -> refs c id l t) ->
  cells_ok (<[id := node]> c) /\ ranked rk (<[id := node]> c).
Proof.
  intros (Hn & Hc & Hu) Hr Hok Hlen Hsub.
  assert (forall id' l t, refs (<[id := node]> c) id' l t -> refs c id' l t)
    as Hold.
  { intros id' l t [[-> Hin]|[_ ?]]%refs_insert; auto. }
  split_ok.
  - by apply nodes_ok_insert.
  - intros id' l t Href Ht. apply is_Some_insert. eauto.
  - intros id1 l1 id2 l2 t Ht H1 H2. eapply Hu; eauto.
  - intros id' l t Href. eauto.
Qed.

(** The record of the root deleted. *)
Lemma cells_ok_delete_root c rk :
  cells_ok c -> ranked rk c ->
  cells_ok (delete NODE_ROOT c) /\ ranked rk (delete NODE_ROOT c).
Proof.
  intros (Hn & Hc & Hu) Hr.
  assert (forall id' l t, refs (delete NODE_ROOT c) id' l t -> refs c id' l t)
    as Hold.
  { by intros id' l t [_ ?]%refs_delete. }
  split_ok.
  - by apply nodes_ok_delete.
  - intros id' l t Href Ht. rewrite lookup_delete_ne by done. eauto.
  - intros id1 l1 id2 l2 t Ht H1 H2. eapply Hu; eauto.
  - intros id' l t Href. eauto.
Qed.

(** The collapse of [del]: the node [cur] is deleted and its parent [P]
    gets, for the edge to [cur], the merged edge to the target of the edge
    left in [cur]. *)
Lemma cells_ok_collapse c rk cur ncur P n l t node :
  cells_ok c -> ranked rk c ->
  cur <> NODE_ROOT -> c !! cur = Some ncur -> (l, t) ∈ ncur ->
  refs c P n cur ->
  node_ok node -> (P <> NODE_ROOT -> 2 <= length node) ->
  (forall l' t', (l', Branch t') ∈ node ->
     (refs c P l' t' /\ t' <> cur) \/ (l' = n +:+ l /\ t = Branch t')) ->
  cells_ok (<[P := node]> (delete cur c))
  /\ ranked rk (<[P := node]> (delete cur c)).
Proof.
  intros (Hn & Hc & Hu) Hr Hcur Hlk Hin HP Hok Hlen Hnode.
  assert (P <> cur) as HPc.
  { intros ->. pose proof (Hr _ _ _ HP). lia. }
  assert (forall id' l' t', refs (<[P := node]> (delete cur c)) id' l' t' ->
    (refs c id' l' t' /\ t' <> cur /\ id' <> cur)
    \/ (id' = P /\ l' = n +:+ l /\ t = Branch t')) as Hold.
  { intros id' l' t' [[-> Hi]|[Hne [Hne' Href]%refs_delete]]%refs_insert.
    - destruct (Hnode _ _ Hi) as [[? ?]|[? ?]]; auto.
    - left. repeat split; [done| |done]. intros ->.
      destruct (Hu _ _ _ _ _ Hcur Href HP). done. }
  assert (forall t', t = Branch t' -> refs c cur l t') as Hmerged.
  { intros t' ->. by exists ncur. }
  split_ok.
  - apply nodes_ok_insert; [|done..]. by apply nodes_ok_delete.
  - intros id' l' t' Href Ht. apply is_Some_insert.
    destruct (Hold _ _ _ Href) as [(Href' & Hne & _)|(-> & -> & Ht')].
    + rewrite lookup_delete_ne by done. eauto.
    + apply Hmerged in Ht'. rewrite lookup_delete_ne; [eauto|].
      intros ->. pose proof (Hr _ _ _ Ht'). lia.
  - intros id1 l1 id2 l2 t' Ht H1 H2.
    destruct (Hold _ _ _ H1) as [(R1 & ? & ?)|(-> & -> & T1)],
      (Hold _ _ _ H2) as [(R2 & ? & ?)|(-> & -> & T2)]; auto.
    + eapply Hu; eauto.
    + apply Hmerged in T2. destruct (Hu _ _ _ _ _ Ht R1 T2). done.
    + apply Hmerged in T1. destruct (Hu _ _ _ _ _ Ht R2 T1). done.
  - intros id' l' t' Href.
    destruct (Hold _ _ _ Href) as [(Href' & _)|(-> & -> & Ht')]; [eauto|].
    apply Hmerged in Ht'. pose proof (Hr _ _ _ Ht'). pose proof (Hr _ _ _ HP).
    lia.
Qed.


(** The split of [set]: in the node [old] the edge [(k, v)] gives way to
    an edge to the node [new], which takes the target [v] over. *)
Lemma cells_ok_split c rk old node k v new kNew kLeft n1 n2 :
  cells_ok c -> ranked rk c ->
  c !! old = Some node -> (k, v) ∈ node ->
  (new = NODE_ROOT \/ c !! new = None) ->
  rk old <= rk NODE_ROOT ->
  node_ok n1 -> (old <> NODE_ROOT -> 2 <= length n1) ->
  (forall l' t', (l', Branch t') ∈ n1 ->
     ((l', Branch t') ∈ node /\ l' <> k) \/ (l' = kNew /\ t' = new)) ->
  node_ok n2 -> 2 <= length n2 ->
  (forall l' t', (l', Branch t') ∈ n2 -> l' = kLeft /\ v = Branch t') ->
  cells_ok (<[new := n2]> (<[old := n1]> c))
  /\ exists rk', ranked rk' (<[new := n2]> (<[old := n1]> c)).
Proof.
  intros (Hn & Hc & Hu) Hr Hlk Hin Hnew Hrk Hok1 Hlen1 Hn1 Hok2 Hlen2 Hn2.
  assert (forall id l' t', refs (<[new := n2]> (<[old := n1]> c)) id l' t' ->
    (id = new /\ l' = kLeft /\ v = Branch t')
    \/ (id = old /\ id <> new /\ l' = kNew /\ t' = new)
    \/ (id <> new /\ refs c id l' t' /\ (id = old -> l' <> k))) as Hold.
  { intros id l' t' [[-> Hi]|[Hne [[-> Hi]|[Hne' Href]]%refs_insert]]%refs_insert.
    - left. destruct (Hn2 _ _ Hi). auto.
    - destruct (Hn1 _ _ Hi) as [[? ?]|[? ?]]; [|right; left; by auto].
      right; right. repeat split; [done| |done]. by exists node.
    - right; right. auto. }
  assert (forall t', v = Branch t' -> refs c old k t') as F1.
  { intros t' ->. by exists node. }
  assert (forall id l, refs c id l new -> new = NODE_ROOT) as F2.
  { intros id l Href. destruct Hnew as [?|Hnone]; [done|].
    destruct (decide (new = NODE_ROOT)) as [?|Hne]; [done|].
    destruct (Hc _ _ _ Href Hne) as [? ?]. congruence. }
  assert (forall l, ~ refs c old l NODE_ROOT) as F3.
  { intros l Href. pose proof (Hr _ _ _ Href). lia. }
  split_ok.
  - by repeat apply nodes_ok_insert.
  - intros id l' t' Href Ht.
    destruct (Hold _ _ _ Href) as [(-> & -> & Hv)|[(-> & ? & -> & ->)|(? & R & ?)]].
    + apply F1 in Hv. do 2 apply is_Some_insert. eauto.
    + by rewrite lookup_insert_eq.
    + do 2 apply is_Some_insert. eauto.
  - intros id1 l1 id2 l2 t' Ht H1 H2.
    destruct (Hold _ _ _ H1) as [(-> & -> & V1)|[(-> & ? & -> & T1)|(? & R1 & E1)]],
      (Hold _ _ _ H2) as [(-> & -> & V2)|[(-> & ? & -> & T2)|(? & R2 & E2)]];
      auto.
    + subst t'. apply F1 in V1. apply F2 in V1. done.
    + apply F1 in V1. destruct (Hu _ _ _ _ _ Ht V1 R2) as [<- <-].
      by destruct E2.
    + subst t'. apply F1 in V2. apply F2 in V2. done.
    + subst t'. apply F2 in R2. done.
    + apply F1 in V2. destruct (Hu _ _ _ _ _ Ht V2 R1) as [<- <-].
      by destruct E1.
    + subst t'. apply F2 in R1. done.
    + eapply Hu; eauto.
  - exists (fun x =>
      if decide (x = new) then
        match v with Branch w => 2 * rk w + 2 | Leaf _ => 0 end
      else 2 * rk x + 1).
    intros id l' t' Href.
    destruct (Hold _ _ _ Href) as [(-> & -> & Hv)|[(-> & ? & -> & ->)|(? & R & ?)]].
    + pose proof (F1 _ Hv) as R. rewrite (decide_True (P := new = new)) by done.
      rewrite decide_False.
      * subst v. lia.
      * intros ->. pose proof (F2 _ _ R) as ->. by apply F3 in R.
    + rewrite (decide_True (P := new = new)) by done.
      rewrite decide_False by done. destruct v as [w|enc]; [|lia].
      pose proof (Hr _ _ _ (F1 _ eq_refl)). lia.
    + rewrite (decide_False (P := id = new)) by done.
      pose proof (Hr _ _ _ R). case_decide as Ht; [|lia].
      subst t'. pose proof (F2 _ _ R) as Hroot. rewrite Hroot in *.
      destruct v as [w|enc]; [|lia].
      pose proof (Hr _ _ _ (F1 _ eq_refl)). lia.
Qed.

(** ** The ids [nextId] makes of the ordinals *)

Lemma digit_value_digit36 (d : N) : (d < 36)%N -> digit_value (digit36 d) = d.
Proof.
  intros Hd. unfold digit_value, digit36.
  destruct (d <? 10)%N eqn:H10.
  - apply N.ltb_lt in H10. rewrite N_ascii_embedding by lia.
    rewrite (proj2 (N.ltb_lt _ _)) by lia. lia.
  - apply N.ltb_ge in H10. rewrite N_ascii_embedding by lia.
    rewrite (proj2 (N.ltb_ge _ _)) by lia. lia.
Qed.

Lemma digit36_not_root (d : N) : (d < 36)%N -> digit36 d <> "_"%char.
Proof.
  intros Hd Heq. apply (f_equal N_of_ascii) in Heq. unfold digit36 in Heq.
  destruct (d <? 10)%N eqn:H10.
  - apply N.ltb_lt in H10. rewrite N_ascii_embedding in Heq by lia.
    simpl in Heq. lia.
  - apply N.ltb_ge in H10. rewrite N_ascii_embedding in Heq by lia.
    simpl in Heq. lia.
Qed.

Lemma value36_app (s t : string) (acc : N) :
  value36 (s +:+ t) acc = value36 t (value36 s acc).
Proof. revert acc. induction s as [|c s IH]; intros acc; simpl; [done|apply IH]. Qed.

Lemma toString36_go_app fuel n acc :
  toString36_go fuel n acc = toString36_go fuel n "" +:+ acc.
Proof.
  revert n acc. induction fuel as [|fuel IH]; intros n acc; simpl; [done|].
  destruct (n / 36 =? 0)%N; [done|].
  rewrite IH, (IH _ (String _ "")), str_append_assoc. done.
Qed.

Lemma value36_toString36_go fuel n :
  (n < 2 ^ N.of_nat fuel)%N -> 0 < fuel ->
  value36 (toString36_go fuel n "") 0 = n.
Proof.
  revert n. induction fuel as [|fuel IH]; intros n Hn Hf; [lia|].
  simpl. assert (n mod 36 < 36)%N as Hmod by (apply N.mod_lt; lia).
  destruct (n / 36 =? 0)%N eqn:Hq.
  - apply N.eqb_eq in Hq. simpl. rewrite digit_value_digit36 by done.
    pose proof (N.div_mod n 36). lia.
  - apply N.eqb_neq in Hq. rewrite toString36_go_app, value36_app. simpl.
    rewrite digit_value_digit36 by done.
    assert (n / 36 < 2 ^ N.of_nat fuel)%N as Hlt.
    { rewrite Nat2N.inj_succ, N.pow_succ_r' in Hn.
      apply N.Div0.div_lt_upper_bound.
      eapply N.lt_le_trans; [exact Hn|]. by apply N.mul_le_mono_r. }
    destruct fuel as [|fuel'].
    { simpl in Hlt. by apply N.lt_1_r in Hlt. }
    rewrite IH by (done || lia). pose proof (N.div_mod n 36). lia.
Qed.

Lemma toString36_value (n : N) : value36 (toString36 n) 0 = n.
Proof.
  unfold toString36. apply value36_toString36_go; [|lia].
  destruct (decide (n = 0%N)) as [->|Hn]; [done|].
  rewrite Nat2N.inj_succ, N2Nat.id.
  apply N.log2_spec. lia.
Qed.

Lemma toString36_inj (a b : N) : toString36 a = toString36 b -> a = b.
Proof.
  intros H. by rewrite <- (toString36_value a), <- (toString36_value b), H.
Qed.

Lemma toString36_go_head fuel n acc :
  exists d rest, (d < 36)%N /\ toString36_go (S fuel) n acc = String (digit36 d) rest.
Proof.
  revert n acc. induction fuel as [|fuel IH]; intros n acc.
  - simpl. exists (n mod 36)%N, acc. split; [apply N.mod_lt; lia|].
    by destruct (n / 36 =? 0)%N.
  - change (toString36_go (S (S fuel)) n acc) with
      (let acc' := String (digit36 (n mod 36)) acc in
       if (n / 36 =? 0)%N then acc' else toString36_go (S fuel) (n / 36) acc').
    simpl. destruct (n / 36 =? 0)%N; [|apply IH].
    exists (n mod 36)%N, acc. split; [apply N.mod_lt; lia|done].
Qed.

Lemma toString36_not_root (n : N) : toString36 n <> NODE_ROOT.
Proof.
  unfold toString36.
  destruct (toString36_go_head (N.to_nat (N.log2 n)) n "") as (d & rest & Hd & ->).
  intros [= Heq _]. by apply digit36_not_root in Heq.
Qed.

(** ** Edges taken out of a node and put into it *)

Lemma heads_sorted_iff (node : list edge) :
  heads_sorted node <-> StronglySorted N.lt (heads node).
Proof.
  unfold heads_sorted, heads. induction node as [|x node IH]; simpl.
  - split; constructor.
  - rewrite !StronglySorted_cons, IH, Forall_fmap. done.
Qed.

Lemma heads_sorted_heads (node node' : list edge) :
  heads node' = heads node -> heads_sorted node -> heads_sorted node'.
Proof. rewrite !heads_sorted_iff. by intros ->. Qed.

Lemma splice_out_delete (i : nat) (node : list edge) : splice_out i node = delete i node.
Proof. unfold splice_out. by rewrite delete_take_drop. Qed.

Lemma splice_in_insert (i : nat) (e : edge) (node : list edge) :
  i < length node -> splice_in i e node = <[i := e]> node.
Proof. intros Hi. unfold splice_in. by rewrite insert_take_drop. Qed.

Lemma heads_insert (i : nat) (node : list edge) k v k' v' :
  node !! i = Some (k, v) -> hcode k' = hcode k ->
  heads (<[i := (k', v')]> node) = heads node.
Proof.
  intros Hi Hh. unfold heads. rewrite (list_fmap_insert _ node). simpl.
  apply list_insert_id. rewrite list_lookup_fmap, Hi. simpl. by rewrite Hh.
Qed.

Lemma elem_of_splice_out (i : nat) (node : list edge) k v e :
  heads_sorted node -> node !! i = Some (k, v) -> e ∈ splice_out i node ->
  e ∈ node /\ hcode (fst e) <> hcode k.
Proof.
  intros Hs Hi He. split.
  - eapply elem_of_sublist; [exact He|apply splice_out_sublist].
  - apply heads_sorted_NoDup in Hs. unfold heads in Hs.
    rewrite <- (take_drop_middle node i (k, v) Hi) in Hs.
    rewrite fmap_app, fmap_cons in Hs. simpl in Hs.
    apply NoDup_app in Hs as (_ & H1 & [H2 _]%NoDup_cons).
    unfold splice_out in He. apply elem_of_app in He as [He|He]; intros Heq.
    + apply (H1 (hcode (fst e))); [|rewrite Heq; left].
      by apply (list_elem_of_fmap_2 (fun e : edge => hcode (fst e))).
    + apply H2. rewrite <- Heq.
      by apply (list_elem_of_fmap_2 (fun e : edge => hcode (fst e))).
Qed.

Lemma heads_sorted_splice_out (i : nat) (node : list edge) :
  heads_sorted node -> heads_sorted (splice_out i node).
Proof. apply heads_sorted_sublist, splice_out_sublist. Qed.

Lemma length_splice_out (i : nat) (node : list edge) e :
  node !! i = Some e -> S (length (splice_out i node)) = length node.
Proof.
  intros Hi. rewrite splice_out_delete, length_delete by eauto.
  apply lookup_lt_Some in Hi. lia.
Qed.

(** The edge at [i] taken out and an edge with the same first character
    put at the end: the first characters still differ. *)
Lemma heads_NoDup_replace (i : nat) (node : list edge) k v e :
  heads_sorted node -> node !! i = Some (k, v) -> hcode (fst e) = hcode k ->
  NoDup (heads (splice_out i node ++ [e])).
Proof.
  intros Hs Hi Hh. unfold heads. rewrite fmap_app. apply NoDup_app. repeat split.
  - apply heads_sorted_NoDup. by apply heads_sorted_splice_out.
  - intros x Hx Hin. simpl in Hin. apply list_elem_of_singleton in Hin as ->.
    apply list_elem_of_fmap in Hx as (y & Hy & Hin).
    eapply elem_of_splice_out in Hin as [_ Hne]; [|done..]. congruence.
  - simpl. apply NoDup_singleton.
Qed.

(** A new edge whose first character no edge of the node has. *)
Lemma heads_NoDup_snoc (node : list edge) e :
  heads_sorted node -> (forall x, x ∈ node -> hcode (fst x) <> hcode (fst e)) ->
  NoDup (heads (node ++ [e])).
Proof.
  intros Hs Hne. unfold heads. rewrite fmap_app. apply NoDup_app. repeat split.
  - by apply heads_sorted_NoDup.
  - intros x Hx Hin. simpl in Hin. apply list_elem_of_singleton in Hin as ->.
    apply list_elem_of_fmap in Hx as (y & Hy & Hin). by apply (Hne y).
  - simpl. apply NoDup_singleton.
Qed.

(** ** The allocator *)

Lemma alloc_free_mono pool next (c c' : gmap string RNode) :
  (forall id, id <> NODE_ROOT -> c !! id = None -> c' !! id = None) ->
  alloc_free pool next c -> alloc_free pool next c'.
Proof.
  intros Hm (Hnd & Hp & Hn & Hd). repeat split; [done| | |done].
  - intros p Hin Hne. auto.
  - intros n Hle. apply Hm; [apply toString36_not_root|auto].
Qed.

Lemma alloc_free_recycle pool next (c : gmap string RNode) cur :
  alloc_free pool next c -> cur = NODE_ROOT \/ is_Some (c !! cur) ->
  alloc_free (if bool_decide (cur ∈ pool) then pool else pool ++ [cur]) next
    (delete cur c).
Proof.
  intros (Hnd & Hp & Hn & Hd) Hcur.
  assert (forall id, delete cur c !! id = None <-> id = cur \/ c !! id = None) as Hdel.
  { intros id. destruct (decide (id = cur)) as [->|Hne].
    - rewrite lookup_delete_eq. tauto.
    - rewrite lookup_delete_ne by done. split; [tauto|]. by intros [?|?]. }
  case_bool_decide as Hin.
  - repeat split; [done| | |done].
    + intros p Hp' Hne. apply Hdel. auto.
    + intros n Hle. apply Hdel. auto.
  - repeat split.
    + apply NoDup_app. repeat split; [done| |apply NoDup_singleton].
      intros x Hx ->%list_elem_of_singleton. done.
    + intros p [Hp'| ->%list_elem_of_singleton]%elem_of_app Hne; apply Hdel; auto.
    + intros n Hle. apply Hdel. auto.
    + intros p n [Hp'| ->%list_elem_of_singleton]%elem_of_app Hle; [auto|].
      destruct Hcur as [->|[x Hx]]; [apply not_eq_sym, toString36_not_root|].
      intros ->. rewrite Hn in Hx by done. done.
Qed.

Lemma nextId_spec r new r1 :
  alloc_ok r -> nextId r = (new, r1) ->
  cells r1 = cells r /\ shares r1 = shares r
  /\ (exists ws, journal r1 = journal r ++ ws /\ Forall write_ok ws)
  /\ (new = NODE_ROOT \/ cells r !! new = None)
  /\ (forall c' : gmap string RNode,
        (forall id, id <> NODE_ROOT -> id <> new -> cells r !! id = None ->
                    c' !! id = None) ->
        alloc_free (m_recycleIds r1) (next_ordinal r1) c').
Proof.
  intros (Hnd & Hp & Hn & Hd) Hnext. unfold nextId in Hnext.
  destruct (m_recycleIds r) as [|p pool] eqn:Hpool.
  - inversion Hnext; subst; clear Hnext. simpl. repeat split.
    + eexists. split; [done|]. by repeat constructor.
    + right. apply Hn. reflexivity.
    + constructor.
    + intros p Hin. by apply elem_of_nil in Hin.
    + intros n Hle. unfold next_ordinal in *. simpl in Hle.
      apply H; [apply toString36_not_root| |apply Hn; lia].
      intros Heq%toString36_inj. lia.
    + intros p n Hin. by apply elem_of_nil in Hin.
  - inversion Hnext; subst; clear Hnext. simpl.
    apply NoDup_cons in Hnd as [Hp1 Hnd]. repeat split.
    + exists []. by rewrite app_nil_r.
    + destruct (decide (new = NODE_ROOT)); [by left|right].
      apply Hp; [left|done].
    + done.
    + intros q Hin Hne. apply H; [done|by intros ->|]. apply Hp; [by right|done].
    + intros n Hle. apply H; [apply toString36_not_root| |by apply Hn].
      intros Heq. apply (Hd new n); [left|done|done].
    + intros q n Hin Hle. apply Hd; [by right|done].
Qed.

(** ** [set] keeps the invariant *)

Lemma elem_of_nodeSort_1 (e : edge) (node : list edge) :
  e ∈ nodeSort node -> e ∈ node.
Proof. apply elem_of_nodeSort. Qed.

Lemma node_ok_nodeSort (node : list edge) :
  NoDup (heads node) -> (forall l id, (l, Branch id) ∈ node -> l <> "") ->
  node_ok (nodeSort node).
Proof.
  intros Hnd Hb. split; [by apply nodeSort_sorted|].
  intros l id Hin%elem_of_nodeSort_1. exact (Hb _ _ Hin).
Qed.

Lemma load_Some (c : gmap string RNode) id (e : edge) :
  e ∈ load c id -> c !! id = Some (load c id).
Proof.
  unfold load. destruct (c !! id) as [node|]; simpl; [done|].
  intros Hin. by apply elem_of_nil in Hin.
Qed.

Lemma load_node_ok (c : gmap string RNode) id :
  nodes_ok c -> node_ok (load c id).
Proof.
  intros Hn. unfold load. destruct (c !! id) as [node|] eqn:Hlk; simpl.
  - by apply Hn in Hlk as [? _].
  - split; [constructor|]. intros l t Hin. by apply elem_of_nil in Hin.
Qed.

Lemma set_split_kept r rk old node i k v key kNew kLeft key' val new r1 :
  cells_ok (cells r) -> ranked rk (cells r) -> alloc_ok r ->
  cells r !! old = Some node -> node !! i = Some (k, v) ->
  hcode k = hcode key -> common k key = (kNew, kLeft, key') ->
  rk old <= rk NODE_ROOT ->
  kLeft <> "" \/ (key' <> "" /\ exists enc, v = Leaf enc) ->
  nextId r = (new, r1) ->
  kept r
    (store_set new (nodeSort [(key', Leaf val); (kLeft, v)])
       (store_set old
          (nodeSort (splice_out i node ++ [(kNew, Branch new)])) r1)).
Proof.
  intros Hc Hr Ha Hold Hi Hh Hcom Hrk Hsplit Hnext.
  destruct (common_spec _ _ _ _ _ Hcom) as (Hk & Hkey & Hdiff).
  destruct (nextId_spec _ _ _ Ha Hnext) as (Hc1 & Hs1 & (ws & Hj1 & Hws) & Hnew & Ha1).
  assert (node_ok node /\ (old <> NODE_ROOT -> 2 <= length node)) as [[Hs Hb] Hlen]
    by (destruct Hc as (Hn & _); by apply Hn in Hold).
  assert (k <> "") as Hk0.
  { destruct Hsplit as [?|[Hk' _]]; [by intros ->; destruct kNew|].
    intros ->. apply Hk'. symmetry in Hh. apply hcode_zero in Hh. subst key.
    by destruct kNew. }
  assert (kNew <> "") as HkNew by by eapply common_nonempty.
  assert (hcode kNew = hcode k) as HhNew by (by rewrite Hk, hcode_append).
  assert (hcode key' <> hcode kLeft) as Hhd.
  { intros Heq. destruct Hdiff as [->|[->|Hd]].
    - simpl in Heq. apply hcode_zero in Heq. subst.
      destruct Hsplit as [?|[? _]]; done.
    - simpl in Heq. symmetry in Heq. apply hcode_zero in Heq. subst.
      destruct Hsplit as [?|[? _]]; done.
    - by apply Hd. }
  assert (forall w, v = Branch w -> kLeft <> "") as Hbr.
  { intros w ->. destruct Hsplit as [?|[_ [enc ?]]]; done. }
  assert ((k, v) ∈ node) as Hin by by eapply list_elem_of_lookup_2.
  set (n1 := nodeSort (splice_out i node ++ [(kNew, Branch new)])).
  set (n2 := nodeSort [(key', Leaf val); (kLeft, v)]).
  assert (node_ok n1) as Hok1.
  { apply node_ok_nodeSort; [by eapply heads_NoDup_replace|].
    intros l id [[Hl _]%(elem_of_splice_out _ _ k v)| [= -> ->]%list_elem_of_singleton]%elem_of_app;
      eauto. }
  assert (length n1 = length node) as Hlen1.
  { unfold n1. rewrite length_nodeSort, length_app. simpl.
    pose proof (length_splice_out _ _ _ Hi). lia. }
  assert (node_ok n2) as Hok2.
  { apply node_ok_nodeSort.
    - unfold heads. simpl. apply NoDup_cons. split; [|apply NoDup_singleton].
      by intros Heq%list_elem_of_singleton.
    - intros l id [[=]|[[= -> <-]|[]%elem_of_nil]%elem_of_cons]%elem_of_cons.
      by eapply Hbr. }
  assert (length n2 = 2) as Hlen2 by (unfold n2; by rewrite length_nodeSort).
  destruct (cells_ok_split (cells r) rk old node k v new kNew kLeft n1 n2)
    as [Hc' Hr']; try done.
  - intros Hne. specialize (Hlen Hne). lia.
  - intros l' t' Hin'. unfold n1 in Hin'.
    apply elem_of_nodeSort_1, elem_of_app in Hin' as [Hl|Hl].
    + left. eapply elem_of_splice_out in Hl as [Hl Hne]; [|done..].
      split; [done|]. intros ->. by apply Hne.
    + right. apply list_elem_of_singleton in Hl. by inversion Hl.
  - lia.
  - intros l' t' Hin'. unfold n2 in Hin'.
    apply elem_of_nodeSort_1 in Hin'
      as [[=]|[[= -> <-]|[]%elem_of_nil]%elem_of_cons]%elem_of_cons.
    done.
  - unfold kept, Inv, alloc_ok, store_set. simpl. rewrite Hc1.
    split; [split; [done|split; [done|]]|split; [done|]].
    + apply Ha1. intros id Hroot Hne Hnone.
      rewrite lookup_insert_ne by done. rewrite lookup_insert_ne; [done|].
      intros ->. congruence.
    + exists (ws ++ [StoreSet old n1; StoreSet new n2]). split.
      * rewrite Hj1. by rewrite <- !app_assoc.
      * apply Forall_app. split; [done|].
        apply Forall_cons. split; [|apply Forall_cons; split; [|constructor]].
        -- split; [done|]. intros Hne. specialize (Hlen Hne). lia.
        -- split; [done|]. lia.
Qed.


Lemma str_append_eq_self (a b : string) : a +:+ b = a -> b = "".
Proof. intros H. apply (str_append_inv_l a). by rewrite str_append_nil_r. Qed.

Lemma elem_of_insert_inv (i : nat) (x y : edge) (l : list edge) :
  x ∈ <[i := y]> l -> x = y \/ x ∈ l.
Proof.
  revert i. induction l as [|z l IH]; intros [|i]; simpl; auto.
  - intros [->|?]%elem_of_cons; [by left|right; by right].
  - intros [->|[->|?]%IH]%elem_of_cons; [right; left|by left|right; by right].
Qed.

Lemma kept_rewrite r rk id node :
  cells_ok (cells r) -> ranked rk (cells r) -> alloc_ok r ->
  id = NODE_ROOT \/ is_Some (cells r !! id) ->
  node_ok node -> (id <> NODE_ROOT -> 2 <= length node) ->
  (forall l t, (l, Branch t) ∈ node -> refs (cells r) id l t) ->
  kept r (store_set id node r).
Proof.
  intros Hc Hr Ha Hid Hok Hlen Hsub.
  destruct (cells_ok_rewrite _ rk id node Hc Hr Hok Hlen Hsub) as [Hc' Hr'].
  unfold kept, Inv, alloc_ok, store_set. simpl.
  split; [split; [done|split; [by exists rk|]]|split; [done|]].
  - eapply alloc_free_mono; [|exact Ha]. intros p Hp Hnone.
    rewrite lookup_insert_ne; [done|]. intros ->.
    destruct Hid as [?|[? ?]]; [done|congruence].
  - exists [StoreSet id node]. split; [done|].
    constructor; [by split|constructor].
Qed.

Lemma set_loop_kept fuel val old node key r r' rk :
  cells_ok (cells r) -> ranked rk (cells r) -> alloc_ok r ->
  node = load (cells r) old ->
  old = NODE_ROOT \/ is_Some (cells r !! old) -> rk old <= rk NODE_ROOT ->
  set_loop fuel val old node key r = Some r' -> kept r r'.
Proof.
  revert old node key. induction fuel as [|fuel IH];
    intros old node key Hc Hr Ha Hnode Hold Hrk Hset; [done|].
  simpl in Hset.
  assert (node_ok node) as [Hs Hb].
  { subst node. apply load_node_ok. by destruct Hc. }
  assert (old <> NODE_ROOT -> 2 <= length node) as Hlen.
  { intros Hne. destruct Hold as [?|[n Hn]]; [done|]. subst node.
    unfold load. rewrite Hn. simpl. destruct Hc as (Hn' & _).
    apply Hn' in Hn as [_ Hl]. auto. }
  destruct (scan_head 0 node key) as [[[i k] v]|] eqn:Hscan.
  - apply scan_head_Some in Hscan as (_ & Hi & Hh).
    replace (i - 0) with i in Hi by lia.
    assert ((k, v) ∈ node) as Hin by by eapply list_elem_of_lookup_2.
    assert (cells r !! old = Some node) as Hlk.
    { subst node. by eapply load_Some. }
    destruct (common k key) as [[kNew kLeft] key'] eqn:Hcom.
    destruct (nextId r) as [new r1] eqn:Hnext.
    destruct (common_spec _ _ _ _ _ Hcom) as (Hk & Hkey & _).
    destruct ((negb (JS.empty key') && JS.empty kLeft) || String.eqb k kNew)
      eqn:Hcond.
    + assert (kLeft = "") as HkLeft.
      { apply orb_prop in Hcond as [[_ ?%empty_true]%andb_prop|Heq]; [done|].
        apply String.eqb_eq in Heq. rewrite Heq in Hk at 1.
        symmetry in Hk. by apply str_append_eq_self in Hk. }
      destruct v as [id|enc].
      * eapply (IH id (load (cells r) id) key'); [done|done|done|done| | |exact Hset].
        -- right. destruct Hc as (_ & Hcl & _). apply (Hcl old k id).
           ++ by exists node.
           ++ intros ->. assert (refs (cells r) old k NODE_ROOT) as R
                by by exists node.
              apply Hr in R. lia.
        -- assert (refs (cells r) old k id) as R by by exists node.
           apply Hr in R. lia.
      * destruct (String.eqb key' kLeft && JS.empty kLeft) eqn:Hrep.
        -- inversion Hset; subst r'; clear Hset.
           eapply kept_rewrite; try done.
           ++ split.
              ** eapply heads_sorted_heads; [|exact Hs]. by eapply heads_insert.
              ** intros l t [[=]|Hin']%elem_of_insert_inv. eauto.
           ++ by rewrite length_insert.
           ++ intros l t [[=]|Hin']%elem_of_insert_inv. by exists node.
        -- inversion Hset; subst r'; clear Hset.
           eapply set_split_kept; try done.
           right. split; [|by eexists]. subst kLeft. simpl in Hrep.
           rewrite andb_true_r in Hrep. by apply String.eqb_neq in Hrep.
    + assert (kLeft <> "") as HkLeft.
      { apply orb_false_elim in Hcond as [_ Hne]. apply String.eqb_neq in Hne.
        intros ->. apply Hne. by rewrite str_append_nil_r in Hk. }
      inversion Hset; subst r'; clear Hset.
      eapply set_split_kept; try done. by left.
  - inversion Hset; subst r'; clear Hset.
    eapply kept_rewrite; try done.
    + apply node_ok_nodeSort.
      * apply heads_NoDup_snoc; [done|]. intros x Hx. simpl.
        by eapply scan_head_None.
      * intros l t [Hin| [=]%list_elem_of_singleton]%elem_of_app. eauto.
    + intros Hne. rewrite length_nodeSort, length_app. simpl.
      specialize (Hlen Hne). lia.
    + intros l t [Hin'| [=]%list_elem_of_singleton]%elem_of_nodeSort_1%elem_of_app.
      exists node. split; [|done]. subst node. by eapply load_Some.
Qed.

(** ** [del] keeps the invariant *)

Lemma kept_intro r r' ws :
  cells_ok (cells r') -> (exists rk, ranked rk (cells r')) ->
  alloc_free (m_recycleIds r') (next_ordinal r') (cells r') ->
  shares r' = shares r -> journal r' = journal r ++ ws -> Forall write_ok ws ->
  kept r r'.
Proof. intros. unfold kept, Inv, alloc_ok. eauto 10. Qed.

Lemma kept_refl r : Inv r -> kept r r.
Proof.
  intros (? & ? & ?). apply (kept_intro _ _ []); try done.
  by rewrite app_nil_r.
Qed.

Lemma set_kept {V : Type} (encode : V -> string) fuel r key value r' :
  Inv r -> set encode fuel r key value = Some r' -> kept r r'.
Proof.
  intros (Hc & [rk Hr] & Ha) Hset. unfold set in Hset.
  eapply set_loop_kept; try done. by left.
Qed.

Lemma pop_nil : pop [] = None.
Proof. done. Qed.

Lemma pop_snoc (fs : list frame) (f : frame) : pop (fs ++ [f]) = Some (f, fs).
Proof. unfold pop. by rewrite reverse_snoc, reverse_involutive. Qed.

Lemma cells_in_place id node r :
  cells (in_place id node r)
  = if shares r then <[id := node]> (cells r) else cells r.
Proof. unfold in_place. by destruct (shares r). Qed.

Lemma in_place_same id node r :
  journal (in_place id node r) = journal r
  /\ shares (in_place id node r) = shares r
  /\ m_recycleIds (in_place id node r) = m_recycleIds r
  /\ next_ordinal (in_place id node r) = next_ordinal r.
Proof. unfold in_place, next_ordinal. by destruct (shares r) eqn:E; simpl. Qed.

Lemma delete_in_place id node r :
  delete id (cells (in_place id node r)) = delete id (cells r).
Proof.
  rewrite cells_in_place. destruct (shares r); [|done].
  by rewrite delete_insert_eq.
Qed.

Lemma insert_in_place id node r :
  <[id := node]> (cells (in_place id node r)) = <[id := node]> (cells r).
Proof.
  rewrite cells_in_place. destruct (shares r); [|done].
  by rewrite insert_insert_eq.
Qed.

Lemma elem_of_splice_in (i : nat) (e x : edge) (node : list edge) :
  x ∈ splice_in i e node -> x = e \/ x ∈ splice_out i node.
Proof.
  unfold splice_in, splice_out. rewrite !elem_of_app, elem_of_cons. tauto.
Qed.

Lemma node_ok_sublist (l1 l2 : list edge) :
  sublist l1 l2 -> node_ok l2 -> node_ok l1.
Proof.
  intros Hsub [Hs Hb]. split; [by eapply heads_sorted_sublist|].
  intros l t Hin. eapply Hb, elem_of_sublist; eauto.
Qed.

(** The node of the merged edge, in the parent of the collapsed node. *)
Lemma node_ok_merged (pnode : list edge) i n cur l t :
  node_ok pnode -> pnode !! i = Some (n, Branch cur) ->
  node_ok (splice_in i (n +:+ l, t) pnode)
  /\ length (splice_in i (n +:+ l, t) pnode) = length pnode.
Proof.
  intros [Hs Hb] Hi.
  assert (n <> "") as Hn by (eapply Hb; by eapply list_elem_of_lookup_2).
  rewrite splice_in_insert by by eapply lookup_lt_Some.
  split; [split|by rewrite length_insert].
  - eapply heads_sorted_heads; [|exact Hs].
    eapply heads_insert; [done|]. by apply hcode_append.
  - intros l' t' [[= -> _]|Hin]%elem_of_insert_inv; [by destruct n|eauto].
Qed.


Lemma del_root_empty_kept r rk :
  cells_ok (cells r) -> ranked rk (cells r) -> alloc_ok r ->
  kept r (in_place NODE_ROOT [] r).
Proof.
  intros Hc Hr Ha.
  destruct (in_place_same NODE_ROOT [] r) as (Hj & Hs & Hp & Hn).
  assert (cells_ok (cells (in_place NODE_ROOT [] r))
          /\ ranked rk (cells (in_place NODE_ROOT [] r))
          /\ alloc_free (m_recycleIds r) (next_ordinal r)
               (cells (in_place NODE_ROOT [] r))) as (H1 & H2 & H3).
  { rewrite cells_in_place. destruct (shares r); [|done].
    destruct (cells_ok_rewrite _ rk NODE_ROOT [] Hc Hr) as [? ?].
    - split; [constructor|]. intros l t Hin. by apply elem_of_nil in Hin.
    - done.
    - intros l t Hin. by apply elem_of_nil in Hin.
    - split; [done|split; [done|]].
      eapply alloc_free_mono; [|exact Ha]. intros id Hid Hnone.
      by rewrite lookup_insert_ne. }
  apply (kept_intro _ _ []); rewrite ?Hp, ?Hn; eauto.
  by rewrite Hj, app_nil_r.
Qed.

Lemma recycle_del_fields id node1 r :
  let r' := recycle id (store_del id (in_place id node1 r)) in
  cells r' = delete id (cells r)
  /\ m_recycleIds r'
     = (if bool_decide (id ∈ m_recycleIds r) then m_recycleIds r
        else m_recycleIds r ++ [id])
  /\ next_ordinal r' = next_ordinal r
  /\ journal r' = journal r ++ [StoreDel id]
  /\ shares r' = shares r.
Proof.
  destruct (in_place_same id node1 r) as (Hj & Hs & Hp & Hn).
  unfold recycle, store_del. simpl. rewrite delete_in_place, Hp, Hj, Hs.
  repeat split. unfold next_ordinal in *. simpl. done.
Qed.

Lemma del_root_one_kept r rk node1 :
  cells_ok (cells r) -> ranked rk (cells r) -> alloc_ok r ->
  kept r (recycle NODE_ROOT (store_del NODE_ROOT (in_place NODE_ROOT node1 r))).
Proof.
  intros Hc Hr Ha.
  destruct (recycle_del_fields NODE_ROOT node1 r) as (Ec & Ep & En & Ej & Es).
  destruct (cells_ok_delete_root _ _ Hc Hr) as [Hc' Hr'].
  apply (kept_intro _ _ [StoreDel NODE_ROOT]); rewrite ?Ec, ?Ep, ?En; try done.
  - by exists rk.
  - apply alloc_free_recycle; [done|by left].
  - by repeat constructor.
Qed.

Lemma set_in_place_fields id node r :
  let r' := store_set id node (in_place id node r) in
  cells r' = <[id := node]> (cells r)
  /\ m_recycleIds r' = m_recycleIds r
  /\ next_ordinal r' = next_ordinal r
  /\ journal r' = journal r ++ [StoreSet id node]
  /\ shares r' = shares r.
Proof.
  destruct (in_place_same id node r) as (Hj & Hs & Hp & Hn).
  unfold store_set. simpl. rewrite insert_in_place, Hp, Hj, Hs.
  repeat split. unfold next_ordinal in *. simpl. done.
Qed.

Lemma del_default_kept r rk cur node i e :
  cells_ok (cells r) -> ranked rk (cells r) -> alloc_ok r ->
  cells r !! cur = Some node -> node !! i = Some e ->
  2 <= length (splice_out i node) ->
  kept r (store_set cur (splice_out i node)
            (in_place cur (splice_out i node) r)).
Proof.
  intros Hc Hr Ha Hcur Hi Hlen.
  destruct (set_in_place_fields cur (splice_out i node) r)
    as (Ec & Ep & En & Ej & Es).
  assert (node_ok node) as Hok.
  { destruct Hc as (Hno & _). by destruct (Hno _ _ Hcur). }
  assert (node_ok (splice_out i node)) as Hok1
    by (eapply node_ok_sublist; [apply splice_out_sublist|done]).
  destruct (cells_ok_rewrite _ rk cur (splice_out i node) Hc Hr Hok1) as [Hc' Hr'].
  { done. }
  { intros l t Hin. exists node. split; [done|].
    eapply elem_of_sublist; [exact Hin|apply splice_out_sublist]. }
  apply (kept_intro _ _ [StoreSet cur (splice_out i node)]);
    rewrite ?Ec, ?Ep, ?En; try done.
  - by exists rk.
  - eapply alloc_free_mono; [|exact Ha]. intros id Hid Hnone.
    rewrite lookup_insert_ne; [done|]. intros ->. congruence.
  - constructor; [by split|constructor].
Qed.

Lemma collapse_fields id node1 P node' r :
  let r' := store_set P node' (recycle id (store_del id (in_place id node1 r))) in
  cells r' = <[P := node']> (delete id (cells r))
  /\ m_recycleIds r'
     = (if bool_decide (id ∈ m_recycleIds r) then m_recycleIds r
        else m_recycleIds r ++ [id])
  /\ next_ordinal r' = next_ordinal r
  /\ journal r' = journal r ++ [StoreDel id; StoreSet P node']
  /\ shares r' = shares r.
Proof.
  destruct (recycle_del_fields id node1 r) as (Ec & Ep & En & Ej & Es).
  unfold store_set. simpl in *. rewrite Ec, Ep, Ej, Es, <- app_assoc.
  repeat split. unfold next_ordinal in *. simpl in *. done.
Qed.

Lemma del_collapse_kept r rk cur node node1 l t P pnode i n :
  cells_ok (cells r) -> ranked rk (cells r) -> alloc_ok r ->
  cells r !! cur = Some node -> cur <> NODE_ROOT -> (l, t) ∈ node ->
  cells r !! P = Some pnode -> pnode !! i = Some (n, Branch cur) ->
  forall node',
  (node' = splice_in i (n +:+ l, t) pnode
   \/ (P = NODE_ROOT /\ node' = [(n +:+ l, t)])) ->
  kept r (store_set P node'
            (recycle cur (store_del cur (in_place cur node1 r)))).
Proof.
  intros Hc Hr Ha Hcur Hne Hin HP Hi node' Hnode'.
  destruct (in_place_same cur node1 r) as (Hj & Hs & Hp & Hn).
  assert (refs (cells r) P n cur) as Href
    by (exists pnode; split; [done|by eapply list_elem_of_lookup_2]).
  assert (node_ok pnode /\ (P <> NODE_ROOT -> 2 <= length pnode)) as [Hokp Hlenp]
    by (destruct Hc as (Hno & _); by apply Hno in HP).
  assert (n <> "") as Hn0.
  { destruct Hokp as [_ Hb]. eapply Hb. by eapply list_elem_of_lookup_2. }
  assert (P <> cur) as HPcur.
  { intros ->. apply Hr in Href. lia. }
  destruct (node_ok_merged pnode i n cur l t Hokp Hi) as [Hokm Hlenm].
  assert (node_ok node' /\ (P <> NODE_ROOT -> 2 <= length node')) as [Hok' Hlen'].
  { destruct Hnode' as [->|[-> ->]]; [split; [done|]|split; [|done]].
    - intros HPr. rewrite Hlenm. auto.
    - split; [repeat constructor|].
      intros l' t' [[= -> _]|[]%elem_of_nil]%elem_of_cons. by destruct n. }
  destruct (cells_ok_collapse (cells r) rk cur node P n l t node' Hc Hr)
    as [Hc' Hr']; try done.
  { intros l' t' Hin'.
    assert ((l', Branch t') = (n +:+ l, t) \/ (l', Branch t') ∈ splice_out i pnode)
      as [[= -> <-]|Hsp].
    { destruct Hnode' as [->|[_ ->]]; [by apply elem_of_splice_in|].
      left. by apply list_elem_of_singleton in Hin'. }
    - by right.
    - left. destruct Hokp as [Hsp' _].
      eapply elem_of_splice_out in Hsp as [Hm Hh]; [|done..].
      split; [by exists pnode|]. intros ->.
      destruct Hc as (_ & _ & Hu).
      assert (refs (cells r) P l' cur) as R by by exists pnode.
      destruct (Hu _ _ _ _ _ Hne R Href) as [_ ->]. by apply Hh. }
  destruct (collapse_fields cur node1 P node' r) as (Ec & Ep & En & Ej & Es).
  apply (kept_intro _ _ [StoreDel cur; StoreSet P node']);
    rewrite ?Ec, ?Ep, ?En; try done.
  - by exists rk.
  - eapply alloc_free_mono; [|apply alloc_free_recycle; [exact Ha|by right]].
    intros id Hid Hnone. rewrite lookup_insert_ne; [done|]. intros ->.
    rewrite lookup_delete_ne in Hnone by done. congruence.
  - constructor; [done|]. constructor; [by split|constructor].
Qed.


Lemma del_loop_kept fuel cur node frames key r b r' rk :
  cells_ok (cells r) -> ranked rk (cells r) -> alloc_ok r ->
  cells r !! cur = Some node -> rk cur <= rk NODE_ROOT ->
  frames_ok (cells r) frames cur node ->
  del_loop fuel cur node frames key r = Some (b, r') -> kept r r'.
Proof.
  intros Hc Hr Ha. revert cur node frames key.
  induction fuel as [|fuel IH]; intros cur node frames key Hcur Hrk Hfr Hdel;
    [done|].
  assert (Inv r) as HInv by (split; [done|split; [by exists rk|done]]).
  simpl in Hdel.
  destruct (scan 0 node key) as [[[i n] v]|] eqn:Hscan;
    [|inversion Hdel; subst; by apply kept_refl].
  apply scan_Some in Hscan as (_ & Hi & _ & _).
  replace (i - 0) with i in Hi by lia.
  assert ((n, v) ∈ node) as Hin by by eapply list_elem_of_lookup_2.
  destruct v as [id|enc].
  - assert (refs (cells r) cur n id) as Href by by exists node.
    pose proof (Hr _ _ _ Href) as Hlt.
    destruct (cells r !! id) as [node'|] eqn:Hid;
      [|inversion Hdel; subst; by apply kept_refl].
    eapply (IH id node'); [done|lia| |exact Hdel].
    right. exists frames, i, n, cur, node. repeat split; try done.
    + intros ->. lia.
    + destruct Hfr as [[-> ->]|(fs & i0 & n0 & P & pnode & -> & _)]; [by left|].
      right. by exists fs, i0, n0.
  - assert (node_ok node /\ (cur <> NODE_ROOT -> 2 <= length node)) as [Hok Hlen].
    { destruct Hc as (Hno & _). by apply Hno in Hcur. }
    pose proof (length_splice_out _ _ _ Hi) as Hl1.
    destruct (splice_out i node) as [|[l t] [|e2 rest]] eqn:Hsp.
    + simpl in Hl1.
      assert (cur = NODE_ROOT) as ->.
      { destruct (decide (cur = NODE_ROOT)) as [?|Hne]; [done|].
        specialize (Hlen Hne). lia. }
      destruct Hfr as [[-> _]|(fs & i0 & n0 & P & pnode & -> & Hne & _)]; [|done].
      rewrite pop_nil in Hdel. inversion Hdel; subst.
      by eapply del_root_empty_kept.
    + assert ((l, t) ∈ node) as Hlt.
      { eapply elem_of_sublist; [|apply (splice_out_sublist i)].
        rewrite Hsp. left. }
      destruct Hfr as [[-> ->]|(fs & i0 & n0 & P & pnode & -> & Hne & HP & Hi0 & Hfs)].
      * rewrite pop_nil in Hdel. inversion Hdel; subst.
        by eapply del_root_one_kept.
      * rewrite pop_snoc in Hdel.
        destruct Hfs as [[-> ->]|(fs' & i' & n' & ->)].
        -- rewrite pop_nil in Hdel. inversion Hdel; subst.
           eapply del_collapse_kept; try done. right. split; [done|].
           unfold splice_in. by rewrite take_nil, drop_nil.
        -- rewrite pop_snoc in Hdel. inversion Hdel; subst.
           eapply del_collapse_kept; try done. by left.
    + inversion Hdel; subst. rewrite <- Hsp.
      eapply del_default_kept; try done. rewrite Hsp. simpl. lia.
Qed.

Lemma del_kept fuel r key b r' :
  Inv r -> del fuel r key = Some (b, r') -> kept r r'.
Proof.
  intros HInv Hdel. unfold del in Hdel.
  destruct (cells r !! NODE_ROOT) as [node|] eqn:Hroot;
    [|inversion Hdel; subst; by apply kept_refl].
  destruct HInv as (Hc & [rk Hr] & Ha).
  eapply del_loop_kept; try done. by left.
Qed.

Lemma Inv_empty sh : Inv (empty_radix sh).
Proof.
  assert (forall id l t, ~ refs (∅ : gmap string RNode) id l t) as Hno.
  { intros id l t (node & Hlk & _). by rewrite lookup_empty in Hlk. }
  split; [split; [|split]|split]; simpl.
  - intros id node Hlk. by rewrite lookup_empty in Hlk.
  - intros id l t Href. by apply Hno in Href.
  - intros id1 l1 id2 l2 t _ Href. by apply Hno in Href.
  - exists (fun _ => 0). intros id l t Href. by apply Hno in Href.
  - unfold alloc_ok. simpl. split; [constructor|split; [|split]].
    + intros p Hin. by apply elem_of_nil in Hin.
    + intros n _. apply lookup_empty.
    + intros p n Hin. by apply elem_of_nil in Hin.
Qed.

(** Every state the public calls lead to satisfies the invariant. *)
Lemma reachable_Inv r : reachable r -> Inv r.
Proof.
  induction 1 as [sh|fuel r key value r' _ IH Hset|fuel r key b r' _ IH Hdel].
  - apply Inv_empty.
  - by destruct (set_kept _ _ _ _ _ _ IH Hset).
  - by destruct (del_kept _ _ _ _ _ IH Hdel).
Qed.

(** ** [del] that returns [false] has changed nothing *)

Lemma del_loop_false fuel cur node frames key r r' :
  del_loop fuel cur node frames key r = Some (false, r') -> r' = r.
Proof.
  revert cur node frames key. induction fuel as [|fuel IH];
    intros cur node frames key Hdel; [done|].
  simpl in Hdel. destruct (scan 0 node key) as [[[i n] v]|]; [|by inversion Hdel].
  destruct v as [id|enc].
  - destruct (cells r !! id) as [node'|]; [eauto|by inversion Hdel].
  - destruct (splice_out i node) as [|[l t] [|e2 rest]].
    + destruct (pop frames) as [[[[[curI ?] cur'] ?] ?]|]; [|done].
      by destruct (_ !! cur').
    + destruct (pop frames) as [[[[[prevI prevN] ?] ?] rest']|]; [|done].
      by destruct (pop rest') as [[[[[? ?] ?] ?] ?]|].
    + done.
Qed.

Lemma del_false fuel r key r' : del fuel r key = Some (false, r') -> r' = r.
Proof.
  unfold del. destruct (cells r !! NODE_ROOT) as [node|]; [|by intros [= <-]].
  apply del_loop_false.
Qed.

(** ** [get] finds the keys that are paths *)

Lemma get_loop_finds fuel c node key enc :
  get_loop fuel c node key = Some (Some enc) -> finds c node key enc.
Proof.
  revert node key. induction fuel as [|fuel IH]; intros node key Hget; [done|].
  simpl in Hget.
  destruct (scan 0 node key) as [[[i n] v]|] eqn:Hscan; [|done].
  apply scan_Some in Hscan as (_ & Hi & _ & Hkey).
  apply list_elem_of_lookup_2 in Hi. rewrite Hkey.
  destruct v as [id|enc'].
  - eapply finds_branch; [exact Hi|]. apply IH.
    by destruct (JS.empty _).
  - destruct (JS.empty _) eqn:He.
    + apply empty_true in He. rewrite He, str_append_nil_r.
      inversion Hget; subst. by apply finds_leaf.
    + simpl in Hget. destruct fuel; [done|]. simpl in Hget. done.
Qed.

Lemma load_refs (c : gmap string RNode) id l t :
  (l, Branch t) ∈ load c id -> refs c id l t.
Proof. intros Hin. exists (load c id). split; [by eapply load_Some|done]. Qed.

Lemma finds_get_loop c rk :
  nodes_ok c -> ranked rk c ->
  forall node key enc, finds c node key enc ->
  forall id fuel, node = load c id -> rk id < fuel ->
  get_loop fuel c node key = Some (Some enc).
Proof.
  intros Hn Hr node key enc Hf.
  induction Hf as [node n enc Hin|node n t s enc Hin Hf IH];
    intros id fuel Hnode Hfuel.
  - destruct fuel as [|fuel]; [lia|]. simpl.
    assert (heads_sorted node) as Hs by (subst; by apply load_node_ok).
    destruct (scan_complete 0 node n n (Leaf enc) "" Hs Hin eq_refl) as [j ->].
    { by rewrite str_append_nil_r. }
    rewrite <- (str_append_nil_r n) at 2. by rewrite str_drop_append.
  - destruct fuel as [|fuel]; [lia|]. simpl.
    assert (node_ok node) as [Hs Hb] by (subst; by apply load_node_ok).
    assert (n <> "") as Hn0 by by eapply Hb.
    destruct (scan_complete 0 node (n +:+ s) n (Branch t) s Hs Hin) as [j ->].
    { by rewrite hcode_append. }
    { done. }
    rewrite str_drop_append.
    assert (rk t < rk id) as Hlt.
    { apply Hr with n. subst node. by apply load_refs. }
    replace (match JS.empty s with | true | _ => _ end)
      with (get_loop fuel c (load_target c (Branch t)) s) by by destruct (JS.empty s).
    simpl. eapply IH; [done|lia].
Qed.

Lemma get_loop_total c rk :
  ranked rk c ->
  forall fuel id node key, node = load c id -> rk id + 1 < fuel ->
  exists o, get_loop fuel c node key = Some o.
Proof.
  intros Hr. induction fuel as [|fuel IH]; intros id node key Hnode Hfuel; [lia|].
  simpl. destruct (scan 0 node key) as [[[i n] v]|] eqn:Hscan; [|by eexists].
  apply scan_Some in Hscan as (_ & Hi & _ & _).
  apply list_elem_of_lookup_2 in Hi.
  destruct v as [t|enc].
  - assert (rk t < rk id) as Hlt.
    { apply Hr with n. subst node. by apply load_refs. }
    destruct (IH t (load c t) (JS.drop (String.length n) key) eq_refl) as [o Ho];
      [lia|].
    exists o. by destruct (JS.empty _).
  - destruct (JS.empty _); [by eexists|]. simpl.
    destruct fuel as [|fuel]; [lia|]. simpl. by eexists.
Qed.

(** With fuel enough, [get] finds exactly the keys that are paths. *)
Lemma get_loop_spec c rk id fuel key :
  nodes_ok c -> ranked rk c -> rk id + 1 < fuel ->
  (forall enc, get_loop fuel c (load c id) key = Some (Some enc)
               <-> finds c (load c id) key enc)
  /\ (get_loop fuel c (load c id) key = Some None
      <-> forall enc, ~ finds c (load c id) key enc).
Proof.
  intros Hn Hr Hfuel.
  assert (forall enc, get_loop fuel c (load c id) key = Some (Some enc)
                      <-> finds c (load c id) key enc) as Hiff.
  { intros enc. split; [apply get_loop_finds|].
    intros Hf. eapply finds_get_loop; eauto. lia. }
  split; [done|].
  destruct (get_loop_total c rk Hr fuel id (load c id) key eq_refl Hfuel) as [o Ho].
  rewrite Ho. split.
  - intros [= ->] enc Hf. apply Hiff in Hf. congruence.
  - intros Hno. destruct o as [enc|]; [|done]. by apply Hiff, Hno in Ho.
Qed.

(** ** What [_loop] yields when nothing is filtered out *)

Lemma walk_S fuel c sort key root :
  walk (S fuel) c sort key root
  = visit_order sort (load c root) ≫= below (walk fuel c sort) key.
Proof. done. Qed.

Lemma loop_edges_all nested filter key (l : list edge) count f :
  (forall v t, filter v t = true) -> (count < 0)%Z ->
  (forall k id cnt, (k, Branch id) ∈ l -> (cnt < 0)%Z ->
     nested cnt (key +:+ k) id
     = Some (f (key +:+ k) id, (cnt - Z.of_nat (length (f (key +:+ k) id)))%Z)) ->
  loop_edges nested filter key l count
  = Some (l ≫= below f key, (count - Z.of_nat (length (l ≫= below f key)))%Z).
Proof.
  intros Hf. revert count. induction l as [|[k v] l IH]; intros count Hc Hn.
  - simpl. do 2 f_equal. lia.
  - rewrite bind_cons. simpl. destruct v as [id|enc].
    + rewrite Hf. simpl. rewrite Hn by (done || left). simpl.
      rewrite IH; [|lia|intros; apply Hn; [by right|done]].
      simpl. change (below f key (k, Branch id)) with (f (key +:+ k) id).
      rewrite length_app. do 2 f_equal. lia.
    + rewrite Hf. simpl.
      destruct (count - 1 =? 0)%Z eqn:Hz; [apply Z.eqb_eq in Hz; lia|].
      rewrite IH; [|lia|intros; apply Hn; [by right|done]].
      simpl. do 2 f_equal. lia.
Qed.

Lemma elem_of_visit_order sort (node : list edge) e :
  e ∈ visit_order sort node <-> e ∈ node.
Proof. unfold visit_order. destruct sort; [done|apply elem_of_reverse]. Qed.

Lemma loop_walk c rk sort filter :
  ranked rk c -> (forall v t, filter v t = true) ->
  forall fuel id key count, (count < 0)%Z -> rk id < fuel ->
  _loop fuel c sort filter count key id
  = Some (walk fuel c sort key id,
          (count - Z.of_nat (length (walk fuel c sort key id)))%Z).
Proof.
  intros Hr Hf. induction fuel as [|fuel IH]; intros id key count Hc Hfuel; [lia|].
  simpl _loop. destruct (count =? 0)%Z eqn:Hz; [apply Z.eqb_eq in Hz; lia|].
  rewrite walk_S. apply loop_edges_all; [done..|].
  intros k t cnt Hin Hcnt. apply IH; [done|].
  apply elem_of_visit_order, load_refs, Hr in Hin. lia.
Qed.

Lemma walk_fuel c rk sort :
  ranked rk c ->
  forall f1 f2 id key, rk id < f1 -> rk id < f2 ->
  walk f1 c sort key id = walk f2 c sort key id.
Proof.
  intros Hr. induction f1 as [|f1 IH]; intros [|f2] id key H1 H2; try lia.
  rewrite !walk_S. apply Forall_bind_ext, Forall_forall.
  intros [k v] Hin. unfold below. simpl. destruct v as [t|enc]; [|done].
  apply elem_of_visit_order, load_refs, Hr in Hin. apply IH; lia.
Qed.

Lemma reverse_bind {A B : Type} (f : A -> list B) (l : list A) :
  reverse (l ≫= f) = reverse l ≫= (fun x => reverse (f x)).
Proof.
  induction l as [|x l IH]; [done|].
  rewrite bind_cons, reverse_app, reverse_cons, bind_app, bind_singleton, IH.
  done.
Qed.

(** The descending walk is the ascending walk read backwards. *)
Lemma walk_reverse c fuel key id :
  walk fuel c false key id = reverse (walk fuel c true key id).
Proof.
  revert key id. induction fuel as [|fuel IH]; intros key id; [done|].
  rewrite !walk_S, reverse_bind. simpl.
  apply list_bind_ext; [|done]. intros [k v]. unfold below. simpl.
  destruct v as [t|enc]; [apply IH|done].
Qed.

Lemma walk_finds c rk :
  ranked rk c ->
  forall fuel id key k e, rk id < fuel ->
  (k, e) ∈ walk fuel c true key id
  <-> exists s, k = key +:+ s /\ finds c (load c id) s e.
Proof.
  intros Hr. induction fuel as [|fuel IH]; intros id key k e Hfuel; [lia|].
  rewrite walk_S, list_elem_of_bind. simpl. split.
  - intros ([n v] & Hin & Hn). unfold below in Hin. simpl in Hin.
    destruct v as [t|enc].
    + apply IH in Hin as (s & -> & Hf).
      * exists (n +:+ s). rewrite str_append_assoc. split; [done|].
        by eapply finds_branch.
      * apply load_refs, Hr in Hn. lia.
    + apply list_elem_of_singleton in Hin as [= -> ->].
      exists n. split; [done|]. by apply finds_leaf.
  - intros (s & -> & Hf). inversion Hf as [node n enc Hin|node n t s' enc Hin Hf']; subst.
    + exists (s, Leaf e). split; [|done]. unfold below. simpl. left.
    + exists (n, Branch t). split; [|done]. unfold below. simpl.
      apply IH; [apply load_refs, Hr in Hin; lia|].
      exists s'. by rewrite str_append_assoc.
Qed.

Lemma below_shape c rk fuel key n v k e :
  ranked rk c -> (forall t, v = Branch t -> n <> "" /\ rk t < fuel) ->
  (k, e) ∈ below (walk fuel c true) key (n, v) ->
  exists s, k = key +:+ (n +:+ s) /\ (n = "" -> s = "").
Proof.
  intros Hr Hv Hin. unfold below in Hin. simpl in Hin. destruct v as [t|enc].
  - destruct (Hv t eq_refl) as [Hn Hlt].
    eapply walk_finds in Hin as (s & -> & _); [|done..].
    exists s. by rewrite str_append_assoc.
  - apply list_elem_of_singleton in Hin as [= -> ->].
    exists "". by rewrite str_append_nil_r.
Qed.

(** The ascending walk yields the keys in strictly ascending order. *)
Lemma walk_sorted c rk :
  nodes_ok c -> ranked rk c ->
  forall fuel id key, rk id < fuel ->
  StronglySorted (fun a b : string * string => JS.lt (fst a) (fst b) = true)
    (walk fuel c true key id).
Proof.
  intros Hn Hr. induction fuel as [|fuel IH]; intros id key Hfuel; [lia|].
  rewrite walk_S. simpl.
  assert (node_ok (load c id)) as [Hs Hb] by by apply load_node_ok.
  assert (forall n t, (n, Branch t) ∈ load c id -> n <> "" /\ rk t < fuel) as Hbr.
  { intros n t Hin. split; [by eapply Hb|]. apply load_refs, Hr in Hin. lia. }
  clear Hb. revert Hs Hbr. generalize (load c id) as node.
  induction node as [|[n v] node IHn]; intros Hs Hbr; [constructor|].
  rewrite bind_cons. apply StronglySorted_cons in Hs as [Hhd Hs].
  apply StronglySorted_app. split; [|split].
  - intros [k1 e1] [k2 e2] H1 ([n' v'] & H2 & Hin')%list_elem_of_bind. simpl.
    eapply below_shape in H1 as (s1 & -> & Hs1); [|done|].
    2: { intros t ->. apply Hbr. left. }
    eapply below_shape in H2 as (s2 & -> & _); [|done|].
    2: { intros t ->. apply Hbr. by right. }
    apply lt_across_edges; [|done].
    rewrite Forall_forall in Hhd. by apply (Hhd (n', v')).
  - unfold below. simpl. destruct v as [t|enc].
    + apply IH. apply (Hbr n t). left.
    + repeat constructor.
  - apply IHn; [done|]. intros n' t Hin. apply Hbr. by right.
Qed.

(** ** The order of [loop] *)

Lemma StronglySorted_reverse_flip {A : Type} (R : relation A) (l : list A) :
  StronglySorted R l -> StronglySorted (flip R) (reverse l).
Proof.
  induction 1 as [|x l Hs IH Hx]; [constructor|].
  rewrite reverse_cons. apply StronglySorted_app. split; [|split].
  - intros a b Ha Hb. apply list_elem_of_singleton in Hb as ->.
    apply (proj1 (elem_of_reverse _ _)) in Ha. rewrite Forall_forall in Hx.
    unfold flip. by apply Hx.
  - done.
  - repeat constructor.
Qed.

Lemma keys_sorted (ys : list (string * string)) :
  StronglySorted (fun a b : string * string => JS.lt (fst a) (fst b) = true) ys ->
  StronglySorted (fun a b : string => JS.lt a b = true) ys.*1.
Proof.
  induction 1 as [|x l Hs IH Hx]; simpl; [constructor|].
  constructor; [done|]. by apply Forall_fmap.
Qed.

Lemma ranked_root_walk c rk fuel sort :
  ranked rk c -> rk NODE_ROOT + 2 <= fuel ->
  walk fuel c sort "" NODE_ROOT = walk (S (rk NODE_ROOT)) c sort "" NODE_ROOT.
Proof. intros Hr Hf. eapply walk_fuel; [done|lia..]. Qed.

Lemma decoded_all {V : Type} (JSON_parse : string -> option V)
  (ys : list (string * string)) :
  Forall (fun p => is_Some (JSON_parse (snd p))) ys ->
  exists vs, decoded JSON_parse ys = Yields vs /\ vs.*1 = ys.*1.
Proof.
  induction 1 as [|[key enc] ys [v Hv] _ (vs & Hvs & Hk)]; simpl.
  - by exists [].
  - simpl in Hv. rewrite Hv, Hvs. exists ((key, v) :: vs).
    split; [done|]. rewrite !fmap_cons. simpl. by rewrite Hk.
Qed.


(** ** The public calls return *)

Lemma set_loop_total r rk val :
  ranked rk (cells r) ->
  forall fuel old node key, node = load (cells r) old -> rk old < fuel ->
  is_Some (set_loop fuel val old node key r).
Proof.
  intros Hr. induction fuel as [|fuel IH]; intros old node key Hnode Hfuel; [lia|].
  simpl. destruct (scan_head 0 node key) as [[[i k] v]|] eqn:Hscan; [|done].
  apply scan_head_Some in Hscan as (_ & Hi & _).
  apply list_elem_of_lookup_2 in Hi.
  destruct (common k key) as [[kNew kLeft] key'].
  destruct (nextId r) as [new r1].
  destruct (_ || _); [|done].
  destruct v as [id|enc]; [|by destruct (_ && _)].
  apply IH; [done|]. subst node. apply load_refs, Hr in Hi. lia.
Qed.

Lemma del_loop_total r rk :
  ranked rk (cells r) ->
  forall fuel cur node frames key, cells r !! cur = Some node -> rk cur < fuel ->
  is_Some (del_loop fuel cur node frames key r).
Proof.
  intros Hr. induction fuel as [|fuel IH];
    intros cur node frames key Hcur Hfuel; [lia|].
  simpl. destruct (scan 0 node key) as [[[i n] v]|] eqn:Hscan; [|done].
  apply scan_Some in Hscan as (_ & Hi & _ & _).
  apply list_elem_of_lookup_2 in Hi.
  destruct v as [id|enc].
  - destruct (cells r !! id) as [node'|] eqn:Hid; [|done].
    apply IH; [done|].
    assert (refs (cells r) cur n id) as R by by exists node.
    apply Hr in R. lia.
  - destruct (splice_out i node) as [|[l t] [|e2 rest]].
    + destruct (pop frames) as [[[[[curI ?] cur'] ?] ?]|]; [|done].
      by destruct (_ !! cur').
    + destruct (pop frames) as [[[[[prevI prevN] ?] ?] rest']|]; [|done].
      by destruct (pop rest') as [[[[[? ?] ?] ?] ?]|].
    + done.
Qed.

(** In a state the public calls lead to, every call returns, given fuel
    enough. *)
Lemma step_total r :
  reachable r -> exists N, forall fuel c, N <= fuel -> is_Some (step fuel r c).
Proof.
  intros (_ & [rk Hr] & _)%reachable_Inv. exists (S (rk NODE_ROOT)).
  intros fuel [key value|key] Hfuel; simpl.
  - unfold set. eapply set_loop_total; [done..|lia].
  - unfold del. destruct (cells r !! NODE_ROOT) as [node|] eqn:Hroot; [|done].
    destruct (del_loop_total r rk Hr fuel NODE_ROOT node [] key Hroot) as [[b r'] ->];
      [lia|done].
Qed.

Lemma has_total r :
  reachable r ->
  exists N, forall fuel key, N <= fuel -> is_Some (has fuel r key).
Proof.
  intros (_ & [rk Hr] & _)%reachable_Inv. exists (rk NODE_ROOT + 2).
  intros fuel key Hfuel. unfold has. rewrite has_loop_get_loop.
  destruct (get_loop_total (cells r) rk Hr fuel NODE_ROOT
              (load (cells r) NODE_ROOT) key eq_refl) as [o ->]; [lia|done].
Qed.

(** ** What the public calls persist *)

Lemma head_of_hcode (node : list edge) :
  NoDup (heads node) -> NoDup (map (fun e : edge => JS.head (fst e)) node).
Proof.
  intros Hnd.
  apply (NoDup_fmap_1 (fun h : option ascii =>
           match h with None => 0%N | Some c => N.succ (N_of_ascii c) end)).
  rewrite <- list_fmap_compose.
  erewrite list_fmap_ext; [exact Hnd|]. by intros i [[|c l] v] _.
Qed.

Lemma heads_sorted_lt (node : list edge) :
  heads_sorted node ->
  StronglySorted (fun a b : edge => JS.lt (fst a) (fst b) = true) node.
Proof.
  induction 1 as [|x l Hs IH Hx]; constructor; [done|].
  eapply Forall_impl; [exact Hx|]. intros y. apply hcode_lt_lt.
Qed.

Lemma node_ok_invariant id (node : list edge) :
  node_ok node -> (id <> NODE_ROOT -> 2 <= length node) ->
  node_invariant id node.
Proof.
  intros [Hs Hb] Hlen. repeat split.
  - by apply heads_sorted_lt.
  - by apply head_of_hcode, heads_sorted_NoDup.
  - done.
  - intros Hne. right. auto.
Qed.

Lemma kept_persisted r r' id node :
  kept r r' -> (id, node) ∈ persisted r r' -> node_invariant id node.
Proof.
  intros (_ & _ & ws & Hj & Hws) Hin. unfold persisted in Hin.
  rewrite Hj, drop_app_length in Hin.
  apply list_elem_of_omap in Hin as (w & Hw & Heq).
  rewrite Forall_forall in Hws. specialize (Hws w Hw).
  destruct w as [id' node'| |]; try done. inversion Heq; subst.
  destruct Hws. by apply node_ok_invariant.
Qed.

Lemma step_kept fuel r c r' : Inv r -> step fuel r c = Some r' -> kept r r'.
Proof.
  intros HInv Hstep. destruct c as [key value|key]; simpl in Hstep.
  - by eapply set_kept.
  - destruct (del fuel r key) as [[b r1]|] eqn:Hdel; [|done].
    simpl in Hstep. inversion Hstep; subst. by eapply del_kept.
Qed.

(** C8, as amended: in a state the public calls lead to, a [set] or a
    [del] returns, given fuel enough, and every node record it persists
    has its edges ascending by label, no two of them with the same first
    character, no empty label on an edge to another node (a leaf edge may
    carry the empty label), and, unless it is the root, no edges or two or
    more. *)
Theorem persisted_nodes_invariant r c :
  reachable r ->
  (exists N, forall fuel, N <= fuel -> is_Some (step fuel r c))
  /\ forall fuel r', step fuel r c = Some r' ->
       forall id node, (id, node) ∈ persisted r r' -> node_invariant id node.
Proof.
  intros Hr. split.
  - destruct (step_total r Hr) as [N HN]. exists N. intros fuel Hfuel. auto.
  - intros fuel r' Hstep id node Hin. eapply kept_persisted; [|exact Hin].
    eapply step_kept; [|exact Hstep]. by apply reachable_Inv.
Qed.

Lemma sample_reachable : reachable sample.
Proof.
  apply (reachable_run 9 sample_calls (empty_radix true)).
  - constructor.
  - vm_compute. reflexivity.
Qed.

Lemma persisted_nodes_invariant_witness :
  reachable sample
  /\ (exists N, forall fuel, N <= fuel ->
         is_Some (step fuel sample (CallSet "comma" (JStr "x"))))
  /\ forall fuel r', step fuel sample (CallSet "comma" (JStr "x")) = Some r' ->
       forall id node,
         (id, node) ∈ persisted sample r' -> node_invariant id node.
Proof.
  split; [exact sample_reachable|].
  exact (persisted_nodes_invariant sample (CallSet "comma" (JStr "x"))
           sample_reachable).
Defined.

(** C8, as stated: [set("co")] after [set("cow")] persists a node whose
    first edge has the empty label. *)
Lemma persisted_empty_label :
  exists r r',
    reachable r
    /\ step 9 r (CallSet "co" (num 3)) = Some r'
    /\ ("0", [("", Leaf "3"); ("w", Leaf "1")]) ∈ persisted r r'
    /\ ~ stated_invariant "0" [("", Leaf "3"); ("w", Leaf "1")].
Proof.
  exists (default (empty_radix true)
            (run 9 (empty_radix true) [CallSet "cow" (num 1)])).
  eexists. split; [|split; [|split]].
  - apply (reachable_run 9 [CallSet "cow" (num 1)] (empty_radix true));
      [constructor|vm_compute; reflexivity].
  - vm_compute. reflexivity.
  - vm_compute. right. left.
  - intros (_ & _ & Hl & _). apply (Hl "" (Leaf "3")); [left|done].
Qed.


(** ** The scenarios of the test suite, run on the model *)

Example test_no_value_with_known_prefix :
  (r ← stored ["co"]; get sample_parse 9 r "cow") = Some Undefined.
Proof. vm_compute. reflexivity. Qed.

Example test_can_shadow_keys :
  (r ← stored ["cow"; "coweb"; "co"];
   Some (get sample_parse 9 r "cow", get sample_parse 9 r "coweb",
         get sample_parse 9 r "co"))
  = Some (Some (Value 1%Z), Some (Value 2%Z), Some (Value 3%Z)).
Proof. vm_compute. reflexivity. Qed.

Example test_has_no_deleted_value :
  (r ← stored ["co"; "coin"; "coinbase"; "community"; "cow"; "coweb"; "coworker"];
   '(b, r') ← del 9 r "coin";
   Some (b, map (get sample_parse 9 r')
              ["co"; "coin"; "coinbase"; "community"; "cow"; "coweb"; "coworker"]))
  = Some (true,
          [Some (Value 1%Z); Some Undefined; Some (Value 3%Z); Some (Value 4%Z);
           Some (Value 5%Z); Some (Value 6%Z); Some (Value 7%Z)]).
Proof. vm_compute. reflexivity. Qed.

Example test_common_key_prefix :
  (r ← stored ["fan"; "factorial"; "factory"];
   '(_, r1) ← del 9 r "factory";
   '(_, r2) ← del 9 r1 "factorial";
   Some (get sample_parse 9 r1 "fan", get sample_parse 9 r1 "factorial",
         get sample_parse 9 r2 "fan"))
  = Some (Some (Value 1%Z), Some (Value 2%Z), Some (Value 1%Z)).
Proof. vm_compute. reflexivity. Qed.

Example test_loop_gt :
  (r ← stored ["a"; "b"; "c"; "d"];
   yielded_keys (loop sample_parse 9 r
                   (Some (query_of (Some "b") None None None None))))
  = Some ["c"; "d"].
Proof. vm_compute. reflexivity. Qed.

Example test_loop_gte :
  (r ← stored ["a"; "b"; "c"; "d"];
   yielded_keys (loop sample_parse 9 r
                   (Some (query_of None (Some "b") None None None))))
  = Some ["b"; "c"; "d"].
Proof. vm_compute. reflexivity. Qed.

Example test_loop_lt :
  (r ← stored ["a"; "b"; "c"; "d"];
   yielded_keys (loop sample_parse 9 r
                   (Some (query_of None None (Some "c") None None))))
  = Some ["a"; "b"].
Proof. vm_compute. reflexivity. Qed.

Example test_loop_lte :
  (r ← stored ["a"; "b"; "c"; "d"];
   yielded_keys (loop sample_parse 9 r
                   (Some (query_of None None None (Some "c") None))))
  = Some ["a"; "b"; "c"].
Proof. vm_compute. reflexivity. Qed.

Example test_loop_prefix :
  (r ← stored ["a"; "b"; "ba"; "bb"; "bc"; "c"];
   yielded_keys (loop sample_parse 9 r
                   (Some (query_of None None None None (Some "b")))))
  = Some ["b"; "ba"; "bb"; "bc"].
Proof. vm_compute. reflexivity. Qed.

Example test_loop_count :
  (r ← stored ["a"; "b"; "c"];
   yielded_keys (loop sample_parse 9 r (Some (count_query 2))))
  = Some ["a"; "b"].
Proof. vm_compute. reflexivity. Qed.

Example test_loop_gte_lte_prefix :
  (r ← stored ["a"; "b"; "bb"; "bc"; "bd"; "c"];
   yielded_keys (loop sample_parse 9 r
                   (Some (query_of None (Some "bb") None (Some "bd") (Some "b")))))
  = Some ["bb"; "bc"; "bd"].
Proof. vm_compute. reflexivity. Qed.

(** The README: one key set and deleted.  A store that hands out its own
    arrays forgets the key; a store that hands out copies keeps it, for
    the emptied root is never persisted. *)
Example readme_set_del sh :
  (r ← set jsonEncode 9 (empty_radix sh) "example_key" (num 1);
   '(b, r') ← del 9 r "example_key";
   Some (b, has 9 r' "example_key", persisted r r'))
  = Some (true, Some (negb sh), []).
Proof. destruct sh; vm_compute; reflexivity. Qed.

(** ** The calls that break a property, run on the model *)

Ltac run_both sh :=
  destruct sh; repeat eexists; repeat split; vm_compute; reflexivity.

(** C1: with the keys [a], [b] and [c] stored, [ax] is absent, yet
    [del("ax")] returns [true], writes the root without the edge of [a],
    and [a] is gone. *)
Theorem del_absent_key_removes_leaf sh :
  exists r r',
    run 9 (empty_radix sh)
      [CallSet "a" (num 1); CallSet "b" (num 2); CallSet "c" (num 3)] = Some r
    /\ get_enc 9 r "ax" = Some None
    /\ get_enc 9 r "a" = Some (Some "1")
    /\ del 9 r "ax" = Some (true, r')
    /\ journal r' = journal r ++ [StoreSet "_" [("b", Leaf "2"); ("c", Leaf "3")]]
    /\ get_enc 9 r' "a" = Some None.
Proof. run_both sh. Qed.

(** C2: with the keys [a] and [b] stored as the two leaf edges of the
    root, [del("a")] deletes the record of the root, puts the id of the
    root into the recycle set, and [b] is gone. *)
Theorem del_in_root_deletes_root sh :
  exists r r',
    run 9 (empty_radix sh) [CallSet "a" (num 1); CallSet "b" (num 2)] = Some r
    /\ cells r !! NODE_ROOT = Some [("a", Leaf "1"); ("b", Leaf "2")]
    /\ get_enc 9 r "b" = Some (Some "2")
    /\ del 9 r "a" = Some (true, r')
    /\ journal r' = journal r ++ [StoreDel NODE_ROOT]
    /\ cells r' !! NODE_ROOT = None
    /\ m_recycleIds r' = [NODE_ROOT]
    /\ get_enc 9 r' "b" = Some None.
Proof. run_both sh. Qed.

(** C3: with [fan], [fax] and [b] stored, the root holds the edges [b] and
    [fa]; [del("fax")] leaves one edge in the node under [fa], whose parent
    is the root, and writes a root that holds the merged edge [fan] alone:
    the edge [b] of the root is lost. *)
Theorem del_collapse_below_root_drops_edges sh :
  exists r r',
    run 9 (empty_radix sh)
      [CallSet "fan" (num 1); CallSet "fax" (num 2); CallSet "b" (num 3)] = Some r
    /\ cells r !! NODE_ROOT = Some [("b", Leaf "3"); ("fa", Branch "0")]
    /\ cells r !! "0" = Some [("n", Leaf "1"); ("x", Leaf "2")]
    /\ get_enc 9 r "b" = Some (Some "3")
    /\ del 9 r "fax" = Some (true, r')
    /\ cells r' !! NODE_ROOT = Some [("fan", Leaf "1")]
    /\ cells r' !! "0" = None
    /\ m_recycleIds r' = ["0"]
    /\ get_enc 9 r' "b" = Some None.
Proof. run_both sh. Qed.

(** C4: with [aa], [ab], [b] and [c] stored, [loop({count: 1})] yields
    three pairs: the nested walk stops after [aa], the walk of the root
    goes on with the siblings [b] and [c]. *)
Theorem loop_count_overrun {V : Type} (JSON_parse : string -> option V) sh :
  exists r,
    run 9 (empty_radix sh)
      [CallSet "aa" (num 1); CallSet "ab" (num 2); CallSet "b" (num 3);
       CallSet "c" (num 4)] = Some r
    /\ cells r !! NODE_ROOT =
         Some [("a", Branch "0"); ("b", Leaf "3"); ("c", Leaf "4")]
    /\ loop JSON_parse 9 r (Some (count_query 1))
       = Some (decoded JSON_parse [("aa", "1"); ("b", "3"); ("c", "4")]).
Proof. run_both sh. Qed.

(** C5: the string ["9e999"] and the number [Infinity] are stored as the
    same text, so whatever [JSON.parse] does, [get] returns the same for
    both: one of the two does not come back. *)
Theorem set_get_9e999 (JSON_parse : string -> option JValue) sh :
  exists r1 r2,
    set jsonEncode 9 (empty_radix sh) "k" (JStr "9e999") = Some r1
    /\ set jsonEncode 9 (empty_radix sh) "k" (JNum Infinity) = Some r2
    /\ jsonEncode (JStr "9e999") = "9e999"
    /\ get JSON_parse 9 r1 "k" = Some (parsed JSON_parse "9e999")
    /\ get JSON_parse 9 r2 "k" = Some (parsed JSON_parse "9e999").
Proof. run_both sh. Qed.

(** C6: the bound made of a backslash and [z] is written into the rules
    as it is and read back as [z]; the key [a] is present and not below
    the bound, and [loop] with [gte] set to the bound yields nothing. *)
Theorem loop_gte_backslash {V : Type} (JSON_parse : string -> option V) sh :
  exists r,
    run 9 (empty_radix sh) [CallSet "a" (num 1)] = Some r
    /\ has 9 r "a" = Some true
    /\ JS.ge "a" (String backslash "z") = true
    /\ escape (String backslash "z") = Some "z"
    /\ loop JSON_parse 9 r (Some (gte_query (String backslash "z")))
       = Some (Yields []).
Proof. run_both sh. Qed.

(** C10: after [set("a")], [set("b")], [del("a")] and [set("x")] the id of
    the root is in the recycle set; [set("xy")] then takes it for the node
    of the split and overwrites the root: [x] is gone. *)
Theorem set_overwrites_root sh :
  exists r r',
    run 9 (empty_radix sh)
      [CallSet "a" (num 1); CallSet "b" (num 2); CallDel "a";
       CallSet "x" (num 7)] = Some r
    /\ m_recycleIds r = [NODE_ROOT]
    /\ get_enc 9 r "x" = Some (Some "7")
    /\ set jsonEncode 9 r "xy" (num 8) = Some r'
    /\ cells r' !! NODE_ROOT = Some [("", Leaf "7"); ("y", Leaf "8")]
    /\ get_enc 9 r' "x" = Some None.
Proof. run_both sh. Qed.

Lemma decoded_read {V : Type} (JSON_parse : string -> option V)
  (l : list (string * string)) :
  all_parse JSON_parse l ->
  exists vs, decoded JSON_parse l = Yields vs /\ Forall2 (read_as JSON_parse) l vs.
Proof.
  induction 1 as [|[key enc] l [v Hv] _ (vs & Hvs & Hall)]; simpl.
  - exists []. split; [done|constructor].
  - simpl in Hv. rewrite Hv, Hvs. exists ((key, v) :: vs).
    split; [done|]. constructor; [|done]. by split.
Qed.

(** C7: with [a], [b] and [c] stored, the value of [b] being an object
    with the key [9e999], all three keys are present, yet [loop()] does not
    yield them all: the text stored for [b] has lost the quotes of the key,
    and where [JSON.parse] rejects it, as it does a key without quotes,
    [loop()] throws before it yields [b], and [c] never comes. *)
Theorem loop_throws_at_unquoted_key {V : Type}
  (JSON_parse : string -> option V) sh :
  exists r,
    run 9 (empty_radix sh)
      [CallSet "a" (num 1); CallSet "b" unquoted_key; CallSet "c" (num 3)]
    = Some r
    /\ jsonEncode unquoted_key = "{9e999:1}"
    /\ has 9 r "a" = Some true /\ has 9 r "b" = Some true
    /\ has 9 r "c" = Some true
    /\ loop JSON_parse 9 r None
       = Some (decoded JSON_parse [("a", "1"); ("b", "{9e999:1}"); ("c", "3")])
    /\ (JSON_parse "{9e999:1}" = None ->
        exists l, loop JSON_parse 9 r None = Some (Throws l)
                  /\ forall k, k ∈ l.*1 -> k = "a").
Proof.
  destruct sh; eexists; (split; [vm_compute; reflexivity|]);
    (split; [vm_compute; reflexivity|]);
    (split; [vm_compute; reflexivity|]);
    (split; [vm_compute; reflexivity|]);
    (split; [vm_compute; reflexivity|]);
    (split; [vm_compute; reflexivity|]);
    intros Hrej;
    match goal with
    | |- exists l, ?x = _ /\ _ =>
        replace x with (Some (decoded JSON_parse
                                [("a", "1"); ("b", "{9e999:1}"); ("c", "3")]))
          by (vm_compute; reflexivity)
    end;
    simpl; rewrite Hrej; destruct (JSON_parse "1") as [v|];
    eexists; (split; [reflexivity|]); simpl; intros k Hk;
    try (by apply elem_of_nil in Hk);
    by apply list_elem_of_singleton in Hk.
Qed.

(** C9: with a value stored under [b] whose text [JSON.parse] rejects (an
    object with the key [9e999], written without the quotes of the key),
    [has("b")] is true and [get("b")] returns no value: it lets the
    [SyntaxError] of [JSON.parse] escape. *)
Theorem has_true_where_get_raises {V : Type}
  (JSON_parse : string -> option V) sh :
  exists r,
    set jsonEncode 9 (empty_radix sh) "b" unquoted_key = Some r
    /\ jsonEncode unquoted_key = "{9e999:1}"
    /\ has 9 r "b" = Some true
    /\ get JSON_parse 9 r "b" = Some (parsed JSON_parse "{9e999:1}")
    /\ (JSON_parse "{9e999:1}" = None -> get JSON_parse 9 r "b" = Some Raised).
Proof.
  destruct sh; eexists; (split; [vm_compute; reflexivity|]);
    (split; [vm_compute; reflexivity|]);
    (split; [vm_compute; reflexivity|]);
    (split; [vm_compute; reflexivity|]);
    intros Hrej;
    match goal with
    | |- ?x = _ =>
        replace x with (Some (parsed JSON_parse "{9e999:1}"))
          by (vm_compute; reflexivity)
    end;
    unfold parsed; by rewrite Hrej.
Qed.

(** ** The tests on branches are conservative *)

Lemma compare_take_lt (p x s : string) :
  String.compare p (JS.take (String.length p) x) = Lt ->
  String.compare (p +:+ s) x = Lt.
Proof.
  revert x. induction p as [|c p IH]; intros [|d x]; simpl; try done.
  destruct (Ascii.compare c d); auto.
Qed.

Lemma compare_take_gt (p x s : string) :
  String.compare p (JS.take (String.length p) x) = Gt ->
  String.compare (p +:+ s) x = Gt.
Proof.
  revert x. induction p as [|c p IH]; intros [|d x]; simpl; try done.
  destruct (Ascii.compare c d); auto.
Qed.

Lemma lt_spec (a b : string) : JS.lt a b = true <-> String.compare a b = Lt.
Proof. unfold JS.lt. by destruct (String.compare a b). Qed.

Lemma le_false (a b : string) : JS.le a b = false <-> String.compare a b = Gt.
Proof. unfold JS.le. by destruct (String.compare a b). Qed.

Lemma compare_Gt_Lt (a b : string) :
  String.compare a b = Gt <-> String.compare b a = Lt.
Proof.
  rewrite (String.compare_antisym b a). by destruct (String.compare a b).
Qed.

Lemma ge_take_false (p x s : string) :
  JS.ge p (JS.take (String.length p) x) = false ->
  JS.gt (p +:+ s) x = false /\ JS.ge (p +:+ s) x = false.
Proof.
  unfold JS.ge, JS.gt. intros H%le_false%compare_Gt_Lt.
  apply (compare_take_lt p x s) in H. unfold JS.lt, JS.le.
  rewrite (String.compare_antisym x (p +:+ s)), H. done.
Qed.

Lemma le_take_false (p x s : string) :
  JS.le p (JS.take (String.length p) x) = false ->
  JS.lt (p +:+ s) x = false /\ JS.le (p +:+ s) x = false.
Proof.
  intros H%le_false. apply (compare_take_gt p x s) in H.
  unfold JS.lt, JS.le. by rewrite H.
Qed.

Lemma length_str_take (k : nat) (s : string) :
  String.length (JS.take k s) = Nat.min k (String.length s).
Proof.
  revert s. induction k as [|k IH]; intros [|c s]; simpl; try done.
  by rewrite IH.
Qed.

Lemma str_take_take (j k : nat) (s : string) :
  JS.take j (JS.take k s) = JS.take (Nat.min j k) s.
Proof.
  revert k s. induction j as [|j IH]; intros [|k] [|c s]; simpl; try done.
  by rewrite IH.
Qed.

Lemma str_take_append_le (k : nat) (p s : string) :
  k <= String.length p -> JS.take k (p +:+ s) = JS.take k p.
Proof.
  revert p. induction k as [|k IH]; intros [|c p] Hk; simpl in *; try done.
  - lia.
  - rewrite IH; [done|lia].
Qed.

Lemma str_take_append_ge (k : nat) (p s : string) :
  String.length p <= k -> JS.take (String.length p) (JS.take k (p +:+ s)) = p.
Proof.
  intros Hk. rewrite str_take_take, Nat.min_l by done. apply str_take_append.
Qed.

Lemma str_take_all (k : nat) (s : string) :
  String.length s <= k -> JS.take k s = s.
Proof.
  revert s. induction k as [|k IH]; intros [|c s] Hk; simpl in *; try done.
  - lia.
  - rewrite IH; [done|lia].
Qed.

(** A key that starts with [x], cut anywhere: the cut and [x], each as
    long as the other allows, are the same. *)
Lemma starts_with_trimmed (x p s : string) :
  starts_with x (p +:+ s) = true ->
  JS.take (String.length (JS.take (String.length p) x)) p
  = JS.take (String.length p) x
  /\ JS.take (String.length x) p = JS.take (String.length p) x.
Proof.
  unfold starts_with. intros Hx%String.eqb_eq.
  destruct (decide (String.length x <= String.length p)) as [Hle|Hgt].
  - rewrite str_take_append_le in Hx by done.
    rewrite (str_take_all (String.length p) x) by done.
    by rewrite Hx.
  - assert (JS.take (String.length p) x = p) as Hp.
    { rewrite <- Hx. apply str_take_append_ge. lia. }
    rewrite Hp. split; [|apply str_take_all; lia].
    apply str_take_all. lia.
Qed.


Lemma conservative_gt x : conservative (rule_gt x).
Proof. intros p s H. unfold rule_gt in *. by apply ge_take_false. Qed.

Lemma conservative_gte x : conservative (rule_gte x).
Proof. intros p s H. unfold rule_gte, trimmed in *. by apply ge_take_false. Qed.

Lemma conservative_lt x : conservative (rule_lt x).
Proof. intros p s H. unfold rule_lt in *. by apply le_take_false. Qed.

Lemma conservative_lte x : conservative (rule_lte x).
Proof. intros p s H. unfold rule_lte, trimmed in *. by apply le_take_false. Qed.

Lemma conservative_prefix x : conservative (rule_prefix (String.length x) x).
Proof.
  intros p s H. unfold rule_prefix, trimmed in *.
  destruct (String.eqb (JS.take (String.length x) (p +:+ s)) x) eqn:Hx; [|done].
  apply starts_with_trimmed in Hx as [_ Hx]. rewrite Hx, String.eqb_refl in H.
  done.
Qed.

Lemma conservative_prefixNot x : conservative (rule_prefixNot (String.length x) x).
Proof.
  intros p s H. unfold rule_prefixNot in *.
  apply negb_false_iff, String.eqb_eq in H. apply negb_false_iff, String.eqb_eq.
  rewrite str_take_append_le; [done|].
  apply (f_equal String.length) in H. rewrite length_str_take in H. lia.
Qed.

Lemma conservative_prefixSome xs : conservative (rule_prefixSome xs).
Proof.
  intros p s H. unfold rule_prefixSome, trimmed in *.
  induction xs as [|x xs IH]; [done|]. simpl in *.
  apply orb_false_elim in H as [Hx Hxs]. rewrite (IH Hxs), orb_false_r.
  destruct (String.eqb (JS.take (String.length x) (p +:+ s)) x) eqn:Hs; [|done].
  apply starts_with_trimmed in Hs as [Hs _]. by rewrite Hs, String.eqb_refl in Hx.
Qed.

Lemma conservative_noFilter : conservative noFilter.
Proof. by intros p s H. Qed.

Lemma conservative_ruled bound test :
  (forall x, bound = Some x -> conservative (test x)) ->
  conservative (ruled bound test).
Proof.
  destruct bound as [x|]; simpl; [auto|]. intros _. apply conservative_noFilter.
Qed.

Lemma conservative_and (f g : QueryFilter) :
  conservative f -> conservative g -> conservative (fun v t => f v t && g v t).
Proof.
  intros Hf Hg p s [H|H]%andb_false_iff.
  - by rewrite (Hf p s H).
  - by rewrite (Hg p s H), andb_false_r.
Qed.

Lemma rule_safe bound test :
  safe_bound bound -> rule bound test = Some (ruled bound test).
Proof.
  destruct bound as [x|]; simpl; [|done]. intros H. by rewrite (H x eq_refl).
Qed.

Lemma escape_all_safe xs : Forall literal_safe xs -> escape_all xs = Some xs.
Proof.
  induction 1 as [|x xs Hx _ IH]; simpl; [done|]. by rewrite Hx, IH.
Qed.

(** With bounds the generated source reads back as given, the filter is
    made, its test on leaves is the conjunction of the clauses, and its
    test on branches is conservative. *)
Lemma buildQueryFilter_safe q :
  bounds_safe q ->
  exists f, buildQueryFilter (Some q) = Some f
            /\ (forall key, f key false = satisfies q key)
            /\ conservative f.
Proof.
  intros (Hgt & Hgte & Hlt & Hlte & Hp & Hn & Hs).
  unfold buildQueryFilter. rewrite !rule_safe by done.
  destruct (q_prefixSome q) as [xs|] eqn:Hxs.
  - rewrite (escape_all_safe xs (Hs xs eq_refl)). simpl.
    eexists. split; [done|]. split.
    + intros key. unfold satisfies, starts_with. rewrite Hxs.
      destruct (q_gt q), (q_gte q), (q_lt q), (q_lte q),
        (q_prefix q), (q_prefixNot q); reflexivity.
    + repeat apply conservative_and.
      * apply conservative_ruled. intros; apply conservative_gt.
      * apply conservative_ruled. intros; apply conservative_gte.
      * apply conservative_ruled. intros; apply conservative_lt.
      * apply conservative_ruled. intros; apply conservative_lte.
      * apply conservative_prefixSome.
      * destruct (q_prefix q) as [x|]; simpl;
          [apply conservative_prefix|apply conservative_noFilter].
      * destruct (q_prefixNot q) as [x|]; simpl;
          [apply conservative_prefixNot|apply conservative_noFilter].
  - simpl. eexists. split; [done|]. split.
    + intros key. unfold satisfies, starts_with. rewrite Hxs.
      destruct (q_gt q), (q_gte q), (q_lt q), (q_lte q),
        (q_prefix q), (q_prefixNot q); reflexivity.
    + repeat apply conservative_and.
      * apply conservative_ruled. intros; apply conservative_gt.
      * apply conservative_ruled. intros; apply conservative_gte.
      * apply conservative_ruled. intros; apply conservative_lt.
      * apply conservative_ruled. intros; apply conservative_lte.
      * apply conservative_noFilter.
      * destruct (q_prefix q) as [x|]; simpl;
          [apply conservative_prefix|apply conservative_noFilter].
      * destruct (q_prefixNot q) as [x|]; simpl;
          [apply conservative_prefixNot|apply conservative_noFilter].
Qed.

(** ** What [_loop] yields under a filter *)

Lemma filter_none {A : Type} (P : A -> bool) (l : list A) :
  (forall x, x ∈ l -> P x = false) -> List.filter P l = [].
Proof.
  induction l as [|x l IH]; intros H; simpl; [done|].
  rewrite (H x) by left. apply IH. intros y Hy. apply H. by right.
Qed.

Lemma filter_reverse_bool {A : Type} (P : A -> bool) (l : list A) :
  List.filter P (reverse l) = reverse (List.filter P l).
Proof.
  induction l as [|x l IH]; simpl; [done|].
  rewrite reverse_cons, List.filter_app, IH. simpl.
  destruct (P x); [by rewrite reverse_cons|by rewrite app_nil_r].
Qed.

Lemma loop_edges_filtered nested f key (l : list edge) count g :
  (count < 0)%Z ->
  (forall k id cnt, (k, Branch id) ∈ l -> (cnt < 0)%Z ->
     f (key +:+ k) true = true ->
     nested cnt (key +:+ k) id
     = Some (List.filter (fun p => f (fst p) false) (g (key +:+ k) id),
             (cnt - Z.of_nat (length (List.filter (fun p => f (fst p) false)
                                        (g (key +:+ k) id))))%Z)) ->
  (forall k id, (k, Branch id) ∈ l -> f (key +:+ k) true = false ->
     List.filter (fun p => f (fst p) false) (g (key +:+ k) id) = []) ->
  loop_edges nested f key l count
  = Some (List.filter (fun p => f (fst p) false) (l ≫= below g key),
          (count - Z.of_nat (length (List.filter (fun p => f (fst p) false)
                                       (l ≫= below g key))))%Z).
Proof.
  revert count. induction l as [|[k v] l IH]; intros count Hc Hn Hp.
  - simpl. do 2 f_equal. lia.
  - rewrite bind_cons, List.filter_app. simpl loop_edges.
    destruct v as [id|enc].
    + change (below g key (k, Branch id)) with (g (key +:+ k) id).
      destruct (f (key +:+ k) true) eqn:Hf; simpl.
      * rewrite Hn by (done || left). simpl.
        rewrite IH; [|lia|intros; apply Hn; [by right|done..]
                          |intros; apply Hp; [by right|done]].
        simpl. rewrite length_app. do 2 f_equal. lia.
      * rewrite (Hp k id) by (done || left). simpl.
        apply IH; [done|intros; apply Hn; [by right|done..]
                       |intros; apply Hp; [by right|done]].
    + change (below g key (k, Leaf enc)) with [(key +:+ k, enc)]. simpl.
      destruct (f (key +:+ k) false) eqn:Hf; simpl.
      * destruct (count - 1 =? 0)%Z eqn:Hz; [apply Z.eqb_eq in Hz; lia|].
        rewrite IH; [|lia|intros; apply Hn; [by right|done..]
                          |intros; apply Hp; [by right|done]].
        simpl. do 2 f_equal. lia.
      * apply IH; [done|intros; apply Hn; [by right|done..]
                       |intros; apply Hp; [by right|done]].
Qed.

Lemma walk_keys c rk sort :
  ranked rk c ->
  forall fuel id key p, rk id < fuel -> p ∈ walk fuel c sort key id ->
  exists s, fst p = key +:+ s.
Proof.
  intros Hr fuel id key [k e] Hfuel Hin. destruct sort.
  - apply (walk_finds c rk Hr) in Hin as (s & -> & _); [|done]. by exists s.
  - rewrite walk_reverse in Hin. apply (proj1 (elem_of_reverse _ _)) in Hin.
    apply (walk_finds c rk Hr) in Hin as (s & -> & _); [|done]. by exists s.
Qed.

Lemma loop_walk_filtered c rk sort f :
  ranked rk c -> conservative f ->
  forall fuel id key count, (count < 0)%Z -> rk id < fuel ->
  _loop fuel c sort f count key id
  = Some (List.filter (fun p => f (fst p) false) (walk fuel c sort key id),
          (count - Z.of_nat (length (List.filter (fun p => f (fst p) false)
                                       (walk fuel c sort key id))))%Z).
Proof.
  intros Hr Hf. induction fuel as [|fuel IH]; intros id key count Hc Hfuel; [lia|].
  simpl _loop. destruct (count =? 0)%Z eqn:Hz; [apply Z.eqb_eq in Hz; lia|].
  rewrite walk_S. apply loop_edges_filtered; [done| |].
  - intros k t cnt Hin Hcnt _. apply IH; [done|].
    apply elem_of_visit_order, load_refs, Hr in Hin. lia.
  - intros k t Hin Hprune. apply filter_none. intros p Hp.
    apply (walk_keys c rk sort Hr) in Hp as (s & ->).
    + by apply Hf.
    + apply elem_of_visit_order, load_refs, Hr in Hin. lia.
Qed.


Lemma has_walk r rk fuel key :
  nodes_ok (cells r) -> ranked rk (cells r) -> rk NODE_ROOT + 2 <= fuel ->
  has fuel r key
  = Some (bool_decide
            (key ∈ (walk (S (rk NODE_ROOT)) (cells r) true "" NODE_ROOT).*1)).
Proof.
  intros Hn Hr Hfuel. set (c := cells r).
  assert (forall key enc,
    (key, enc) ∈ walk (S (rk NODE_ROOT)) c true "" NODE_ROOT
    <-> finds c (load c NODE_ROOT) key enc) as Hfinds.
  { intros k enc. rewrite (walk_finds c rk Hr) by lia. split.
    - by intros (s & -> & ?).
    - intros ?. by exists k. }
  unfold has. rewrite has_loop_get_loop. fold c.
  destruct (get_loop_spec c rk NODE_ROOT fuel key Hn Hr) as [Hsome Hnone]; [lia|].
  destruct (get_loop fuel c (load c NODE_ROOT) key) as [[enc|]|] eqn:Hget.
  - simpl. rewrite bool_decide_eq_true_2; [done|].
    pose proof (proj1 (Hsome enc) eq_refl) as Hf.
    apply (proj2 (Hfinds key enc)) in Hf.
    by apply (list_elem_of_fmap_2 fst) in Hf.
  - simpl. rewrite bool_decide_eq_false_2; [done|].
    intros ([k e] & -> & Hin)%list_elem_of_fmap. simpl in *.
    apply (proj1 (Hfinds k e)) in Hin. by apply (proj1 Hnone eq_refl e).
  - destruct (get_loop_total c rk Hr fuel NODE_ROOT (load c NODE_ROOT) key)
      as [o Ho]; [done|lia|]. congruence.
Qed.

Lemma get_enc_walk r rk fuel key enc :
  nodes_ok (cells r) -> ranked rk (cells r) -> rk NODE_ROOT + 2 <= fuel ->
  (key, enc) ∈ walk (S (rk NODE_ROOT)) (cells r) true "" NODE_ROOT
  <-> get_enc fuel r key = Some (Some enc).
Proof.
  intros Hn Hr Hfuel. unfold get_enc.
  destruct (get_loop_spec (cells r) rk NODE_ROOT fuel key Hn Hr) as [Hsome _];
    [lia|].
  rewrite (Hsome enc), (walk_finds (cells r) rk Hr) by lia. split.
  - by intros (s & -> & ?).
  - intros ?. by exists key.
Qed.

Lemma all_parse_filter {V : Type} (JSON_parse : string -> option V)
  (P : string * string -> bool) l :
  all_parse JSON_parse l -> all_parse JSON_parse (List.filter P l).
Proof.
  induction 1 as [|p l Hp _ IH]; simpl; [constructor|].
  destruct (P p); [by constructor|done].
Qed.

Lemma all_parse_sorted {V : Type} (JSON_parse : string -> option V)
  (b : bool) l :
  all_parse JSON_parse l -> all_parse JSON_parse (if b then reverse l else l).
Proof. intros H. destruct b; [by apply Forall_reverse|done]. Qed.



(** ** Keys and the nodes below a node *)

Lemma finds_via c node k e :
  finds c node k e <-> exists ed, ed ∈ node /\ via c ed k e.
Proof.
  split.
  - intros H. destruct H as [node n enc Hin|node n id s enc Hin Hf].
    + by exists (n, Leaf enc).
    + exists (n, Branch id). split; [done|]. by exists s.
  - intros ([n [t|e0]] & Hin & Hv); unfold via in Hv; simpl in Hv.
    + destruct Hv as (s & -> & Hf). by eapply finds_branch.
    + destruct Hv as [-> ->]. by apply finds_leaf.
Qed.

Lemma desc_rank c rk a b : ranked rk c -> desc c a b -> rk b <= rk a.
Proof.
  intros Hr H. induction H as [|a b d [l Hab] _ IH]; [done|].
  apply Hr in Hab. lia.
Qed.

Lemma desc_child c a l b x : refs c a l b -> desc c b x -> desc c a x.
Proof. intros Hab Hbx. eapply rtc_l; [by exists l|done]. Qed.

(** The keys of a node depend on the nodes below it only. *)
Lemma finds_agree (c c' : gmap string RNode) :
  forall node k e, finds c' node k e ->
  forall t, node = load c' t -> (forall x, desc c t x -> c' !! x = c !! x) ->
  finds c (load c t) k e.
Proof.
  intros node k e H.
  induction H as [node n enc Hin|node n id s enc Hin Hf IH];
    intros t -> Hsame.
  - apply finds_leaf. unfold load in *. by rewrite <- Hsame by apply rtc_refl.
  - assert ((n, Branch id) ∈ load c t) as Hin'.
    { unfold load in *. by rewrite <- Hsame by apply rtc_refl. }
    eapply finds_branch; [done|]. apply IH; [done|].
    intros x Hx. apply Hsame. eapply desc_child; [|done].
    by apply load_refs.
Qed.

Lemma finds_agree_iff (c c' : gmap string RNode) t k e :
  (forall x, desc c t x -> c' !! x = c !! x) ->
  finds c' (load c' t) k e <-> finds c (load c t) k e.
Proof.
  intros Hsame. split.
  - intros H. by eapply finds_agree.
  - intros H. eapply (finds_agree c' c); [done|done|].
    assert (forall a b, desc c' a b -> desc c t a -> desc c a b) as Hd.
    { intros a b Hab. induction Hab as [|a b d [l Hab] Hbd IH]; intros Ha.
      - apply rtc_refl.
      - assert (refs c a l b) as Hab'.
        { destruct Hab as (node & Hn & Hin). exists node. split; [|done].
          by rewrite <- Hsame. }
        eapply desc_child; [done|]. apply IH.
        eapply rtc_r; [done|]. by exists l. }
    intros x Hx. symmetry. apply Hsame. apply Hd in Hx; [done|apply rtc_refl].
Qed.

Lemma via_agree (c c' : gmap string RNode) (ed : edge) k e :
  (forall t, snd ed = Branch t -> forall x, desc c t x -> c' !! x = c !! x) ->
  via c' ed k e <-> via c ed k e.
Proof.
  intros Hsame. destruct ed as [n [t|e0]]; unfold via; simpl; [|done].
  split; intros (s & -> & Hf); exists s; (split; [done|]).
  - eapply (proj1 (finds_agree_iff c c' t s e (Hsame t eq_refl))), Hf.
  - eapply (proj2 (finds_agree_iff c c' t s e (Hsame t eq_refl))), Hf.
Qed.

(** Two edges of one node lead to parts of the store that do not meet. *)
Lemma desc_disjoint c rk P l1 l2 a b x :
  unshared c -> ranked rk c -> rk P <= rk NODE_ROOT ->
  refs c P l1 a -> refs c P l2 b -> a <> b ->
  desc c a x -> desc c b x -> False.
Proof.
  intros Hu Hr HP Ha Hb Hne Hax Hbx.
  assert (forall y z, desc c y z -> rk y < rk NODE_ROOT -> z <> NODE_ROOT) as Hnr.
  { intros y z Hyz Hy ->. eapply desc_rank in Hyz; [|done]. lia. }
  pose proof (Hr _ _ _ Ha) as HaP.
  unfold desc in *. revert x Hax Hbx.
  apply (rtc_ind_r (fun x => rtc (child c) b x -> False)).
  2: intros y z Hay [l Hyz] IH.
  all: intros Hbx.
  - (* [a] below [b]: its one parent [P] would be below [b] *)
    apply rtc_inv_r in Hbx as [->|(y & Hby & [l Hya])]; [done|].
    destruct (Hu P l1 y l a) as [<- _]; [|done|done|].
    { intros ->. lia. }
    pose proof (Hr _ _ _ Hb). eapply desc_rank in Hby; [|done]. lia.
  - assert (z <> NODE_ROOT) as Hz.
    { pose proof (Hr _ _ _ Hyz). eapply desc_rank in Hay; [|done].
      intros ->. lia. }
    apply rtc_inv_r in Hbx as [<-|(y' & Hby & [l' Hy'z])].
    + (* [b] itself below [a] *)
      destruct (Hu P l2 y l b) as [<- _]; [done|done|done|].
      eapply desc_rank in Hay; [|done]. lia.
    + destruct (Hu y l y' l' z) as [<- _]; [done|done|done|].
      by apply IH.
Qed.

(** ** What [set] does to the keys *)

Lemma nextId_not_root r new r1 :
  NODE_ROOT ∉ m_recycleIds r -> nextId r = (new, r1) ->
  new <> NODE_ROOT /\ NODE_ROOT ∉ m_recycleIds r1.
Proof.
  unfold nextId. intros Hroot Hnext.
  destruct (m_recycleIds r) as [|id rest] eqn:Hpool.
  - inversion Hnext; subst; simpl. split; [apply toString36_not_root|].
    by intros ?%elem_of_nil.
  - inversion Hnext; subst; simpl. split.
    + intros ->. apply Hroot. by left.
    + intros ?. apply Hroot. by right.
Qed.

Lemma desc_stored c rk t x :
  closed c -> ranked rk c -> is_Some (c !! t) -> rk t < rk NODE_ROOT ->
  desc c t x -> is_Some (c !! x).
Proof.
  intros Hcl Hr Ht Hrk Hx. unfold desc in Hx. revert Ht Hrk.
  induction Hx as [|a b d [l Hab] _ IH]; intros Ht Hrk; [done|].
  pose proof (Hr _ _ _ Hab). apply IH; [|lia].
  apply (Hcl a l b); [done|]. intros ->. lia.
Qed.

(** The nodes below a child of [old] are neither [old] nor a node that is
    not stored. *)
Lemma below_child c rk old l t x :
  closed c -> ranked rk c -> rk old <= rk NODE_ROOT ->
  refs c old l t -> desc c t x -> x <> old /\ is_Some (c !! x).
Proof.
  intros Hcl Hr Hrk Ht Hx. pose proof (Hr _ _ _ Ht) as Hlt. split.
  - intros ->. eapply desc_rank in Hx; [|done]. lia.
  - apply (desc_stored c rk t x); [done|done| |lia|done].
    apply (Hcl old l t); [done|]. intros ->. lia.
Qed.

Lemma via_hcode c (ed : edge) k e :
  (forall t, snd ed = Branch t -> fst ed <> "") ->
  via c ed k e -> hcode k = hcode (fst ed).
Proof.
  destruct ed as [n [t|e0]]; unfold via; simpl; intros Hn.
  - intros (s & -> & _). apply hcode_append. by eapply Hn.
  - by intros [-> _].
Qed.

Lemma elem_of_splice (i : nat) (node : list edge) (x ed : edge) :
  node !! i = Some x -> ed ∈ node <-> ed ∈ splice_out i node \/ ed = x.
Proof.
  intros Hi. unfold splice_out.
  rewrite <- (take_drop_middle node i x Hi) at 1.
  rewrite !elem_of_app, elem_of_cons. tauto.
Qed.

(** The keys that start with the edge [(kNew +:+ kLeft, v)] are those that
    start with [kNew] and go on as the keys that start with [(kLeft, v)]. *)
Lemma via_split c kNew kLeft v k e :
  via c (kNew +:+ kLeft, v) k e
  <-> exists s, k = kNew +:+ s /\ via c (kLeft, v) s e.
Proof.
  destruct v as [t|e0]; unfold via; simpl; split.
  - intros (s & -> & Hf). exists (kLeft +:+ s).
    split; [by rewrite str_append_assoc|]. by exists s.
  - intros (s & -> & s' & -> & Hf). exists s'.
    split; [by rewrite str_append_assoc|done].
  - intros [-> ->]. by exists kLeft.
  - by intros (s & -> & -> & ->).
Qed.

(** One node written anew: its keys are those that start with its edges,
    the nodes below being as they were. *)
Lemma finds_rewritten (c c' : gmap string RNode) (node' : list edge) :
  (forall l t, (l, Branch t) ∈ node' ->
     forall x, desc c t x -> c' !! x = c !! x) ->
  forall k e, finds c' node' k e <-> exists ed, ed ∈ node' /\ via c ed k e.
Proof.
  intros Hsame k e. rewrite finds_via.
  split; intros ([n v] & Hin & Hv); exists (n, v); (split; [done|]).
  - refine (proj1 (via_agree c c' _ _ _ _) Hv). simpl. intros t ->. by eapply Hsame.
  - refine (proj2 (via_agree c c' _ _ _ _) Hv). simpl. intros t ->. by eapply Hsame.
Qed.

Lemma set_split_finds c rk old node i k v key kNew kLeft key' val new :
  closed c -> ranked rk c -> node_ok node ->
  c !! old = Some node -> node !! i = Some (k, v) ->
  k = kNew +:+ kLeft -> key = kNew +:+ key' ->
  rk old <= rk NODE_ROOT -> new <> NODE_ROOT -> c !! new = None ->
  let n1 := nodeSort (splice_out i node ++ [(kNew, Branch new)]) in
  let n2 := nodeSort [(key', Leaf val); (kLeft, v)] in
  let c' := <[new := n2]> (<[old := n1]> c) in
  finds c' (load c' old) key val
  /\ (forall k0 e, k0 <> key ->
        finds c' (load c' old) k0 e <-> finds c node k0 e).
Proof.
  intros Hcl Hr Hok Hold Hi Hk Hkey Hrk Hnew Hfresh n1 n2 c'.
  assert (old <> new) as Hon by (intros ->; congruence).
  assert (load c' old = n1) as Hl1.
  { unfold load, c'. rewrite lookup_insert_ne by done.
    by rewrite lookup_insert_eq. }
  assert (load c' new = n2) as Hl2.
  { unfold load, c'. by rewrite lookup_insert_eq. }
  assert (forall l t, (l, Branch t) ∈ node ->
            forall x, desc c t x -> c' !! x = c !! x) as Hsame.
  { intros l t Hin x Hx.
    destruct (below_child c rk old l t x) as [Hxo Hxs]; try done.
    { by exists node. }
    unfold c'. rewrite !lookup_insert_ne; [done|done|].
    intros <-. rewrite Hfresh in Hxs. by destruct Hxs. }
  assert ((k, v) ∈ node) as Hin by by eapply list_elem_of_lookup_2.
  rewrite Hl1. split.
  - subst key. eapply finds_branch.
    + unfold n1. apply elem_of_nodeSort, elem_of_app. right.
      by apply list_elem_of_singleton.
    + rewrite Hl2. apply finds_leaf. unfold n2. apply elem_of_nodeSort. by left.
  - intros k0 e Hne. rewrite !finds_via. split.
    + intros (ed & Hed & Hv). unfold n1 in Hed.
      apply elem_of_nodeSort, elem_of_app in Hed as [Hed|Hed].
      * exists ed. split; [by eapply (elem_of_splice i); eauto|].
        refine (proj1 (via_agree c c' _ _ _ _) Hv). intros t Ht.
        destruct ed as [l w]; simpl in Ht; subst w.
        apply (Hsame l). eapply (elem_of_splice i); eauto.
      * apply list_elem_of_singleton in Hed. subst ed.
        destruct Hv as (s & -> & Hf). simpl in Hf. rewrite Hl2 in Hf.
        apply finds_via in Hf as (ed & Hed & Hv). unfold n2 in Hed.
        apply elem_of_nodeSort in Hed
          as [->|[->|[]%elem_of_nil]%elem_of_cons]%elem_of_cons.
        -- destruct Hv as [-> ->]. by subst key.
        -- exists (k, v). split; [done|]. subst k. apply via_split.
           exists s. split; [done|]. refine (proj1 (via_agree c c' _ _ _ _) Hv).
           simpl. intros t ->. by apply (Hsame (kNew +:+ kLeft)).
    + intros (ed & Hed & Hv).
      destruct (proj1 (elem_of_splice i node (k, v) ed Hi) Hed) as [Hed'| ->].
      * exists ed. split.
        { unfold n1. apply elem_of_nodeSort, elem_of_app. by left. }
        refine (proj2 (via_agree c c' _ _ _ _) Hv). intros t Ht.
        destruct ed as [l w]; simpl in Ht; subst w.
        by apply (Hsame l).
      * exists (kNew, Branch new). split.
        { unfold n1. apply elem_of_nodeSort, elem_of_app. right.
          by apply list_elem_of_singleton. }
        subst k. apply via_split in Hv as (s & -> & Hv).
        exists s. split; [done|]. simpl. rewrite Hl2.
        apply finds_via. exists (kLeft, v). split.
        { unfold n2. apply elem_of_nodeSort. right. by left. }
        refine (proj2 (via_agree c c' _ _ _ _) Hv). simpl. intros t ->.
        by apply (Hsame (kNew +:+ kLeft)).
Qed.

Lemma set_loop_finds fuel val old node key r r' rk :
  cells_ok (cells r) -> ranked rk (cells r) -> alloc_ok r ->
  NODE_ROOT ∉ m_recycleIds r ->
  node = load (cells r) old ->
  old = NODE_ROOT \/ is_Some (cells r !! old) -> rk old <= rk NODE_ROOT ->
  set_loop fuel val old node key r = Some r' ->
  finds (cells r') (load (cells r') old) key val
  /\ (forall k e, k <> key ->
        finds (cells r') (load (cells r') old) k e <-> finds (cells r) node k e)
  /\ (forall x, cells r' !! x = cells r !! x \/ desc (cells r) old x
                \/ (cells r !! x = None /\ x <> NODE_ROOT)).
Proof.
  revert old node key. induction fuel as [|fuel IH];
    intros old node key Hc Hr Ha Hroot Hnode Hold Hrk Hset; [done|].
  simpl in Hset.
  destruct Hc as (Hn & Hcl & Hu).
  assert (node_ok node) as [Hs Hb] by (subst node; by apply load_node_ok).
  assert (forall node', let c' := <[old := node']> (cells r) in
            (forall l t, (l, Branch t) ∈ node' -> (l, Branch t) ∈ node) ->
            load c' old = node'
            /\ (forall k e, finds c' node' k e
                            <-> exists ed, ed ∈ node' /\ via (cells r) ed k e)
            /\ (forall x, c' !! x = cells r !! x \/ desc (cells r) old x
                          \/ (cells r !! x = None /\ x <> NODE_ROOT))) as Hrew.
  { intros node' c' Hsub. split; [|split].
    - unfold load, c'. by rewrite lookup_insert_eq.
    - apply finds_rewritten. intros l t Hin x Hx.
      destruct (below_child (cells r) rk old l t x) as [Hxo _]; try done.
      { apply load_refs. rewrite <- Hnode. by apply Hsub. }
      unfold c'. by rewrite lookup_insert_ne.
    - intros x. destruct (decide (x = old)) as [->|Hne].
      + right. left. apply rtc_refl.
      + left. unfold c'. by rewrite lookup_insert_ne. }
  destruct (scan_head 0 node key) as [[[i k] v]|] eqn:Hscan.
  - apply scan_head_Some in Hscan as (_ & Hi & Hh).
    replace (i - 0) with i in Hi by lia.
    assert ((k, v) ∈ node) as Hin by by eapply list_elem_of_lookup_2.
    assert (cells r !! old = Some node) as Hlk.
    { subst node. by eapply load_Some. }
    destruct (common k key) as [[kNew kLeft] key'] eqn:Hcom.
    destruct (nextId r) as [new r1] eqn:Hnext.
    destruct (common_spec _ _ _ _ _ Hcom) as (Hk & Hkey & _).
    destruct (nextId_spec _ _ _ Ha Hnext) as (Hc1 & _ & _ & Hfresh & _).
    destruct (nextId_not_root _ _ _ Hroot Hnext) as [Hnew _].
    destruct Hfresh as [?|Hfresh]; [done|].
    assert (forall r2,
      r2 = store_set new (nodeSort [(key', Leaf val); (kLeft, v)])
             (store_set old
                (nodeSort (splice_out i node ++ [(kNew, Branch new)])) r1) ->
      finds (cells r2) (load (cells r2) old) key val
      /\ (forall k0 e, k0 <> key ->
            finds (cells r2) (load (cells r2) old) k0 e
            <-> finds (cells r) node k0 e)
      /\ (forall x, cells r2 !! x = cells r !! x \/ desc (cells r) old x
                    \/ (cells r !! x = None /\ x <> NODE_ROOT))) as Hsplit.
    { intros r2 ->. simpl. rewrite Hc1.
      destruct (set_split_finds (cells r) rk old node i k v key kNew kLeft key'
                  val new) as [HA HB]; try done.
      split; [done|split; [done|]].
      intros x. destruct (decide (x = old)) as [->|Hxo].
      { right. left. apply rtc_refl. }
      destruct (decide (x = new)) as [->|Hxn].
      { right. right. done. }
      left. by rewrite !lookup_insert_ne. }
    destruct ((negb (JS.empty key') && JS.empty kLeft) || String.eqb k kNew)
      eqn:Hcond.
    + assert (kLeft = "") as HkLeft.
      { apply orb_prop in Hcond as [[_ ?%empty_true]%andb_prop|Heq]; [done|].
        apply String.eqb_eq in Heq. rewrite Heq in Hk at 1.
        symmetry in Hk. by apply str_append_eq_self in Hk. }
      assert (k = kNew) as HkN by (by rewrite Hk, HkLeft, str_append_nil_r).
      destruct v as [id|enc].
      * (* the edge leads on: the walk goes down *)
        assert (refs (cells r) old k id) as R by by exists node.
        pose proof (Hr _ _ _ R) as Rlt.
        assert (id <> NODE_ROOT) as Hid by (intros ->; lia).
        destruct (IH id (load (cells r) id) key') as (HA & HB & HC);
          [done|done|done|done|done| |lia|exact Hset|].
        { right. by apply (Hcl old k id). }
        assert (cells r' !! old = cells r !! old) as Hsame_old.
        { destruct (HC old) as [?|[Hd|[Hnone _]]]; [done| |congruence].
          eapply desc_rank in Hd; [|done]. lia. }
        assert (load (cells r') old = node) as Hl.
        { unfold load. by rewrite Hsame_old, Hlk. }
        assert (forall l t, (l, Branch t) ∈ node -> t <> id ->
                  forall x, desc (cells r) t x -> cells r' !! x = cells r !! x)
          as Hsib.
        { intros l t Hlt Hne x Hx.
          assert (refs (cells r) old l t) as R' by by exists node.
          destruct (HC x) as [?|[Hd|[Hnone _]]]; [done| |].
          - exfalso. by eapply (desc_disjoint (cells r) rk old k l id t x).
          - destruct (below_child (cells r) rk old l t x) as [_ [? ?]];
              try done. congruence. }
        assert (forall ed k0 e, ed ∈ node -> ed <> (k, Branch id) ->
                  via (cells r') ed k0 e <-> via (cells r) ed k0 e) as Hother.
        { intros [l w] k0 e Hed Hne. apply via_agree. simpl. intros t ->.
          apply (Hsib l); [done|]. intros ->.
          apply Hne. f_equal.
          assert (refs (cells r) old l id) as R' by by exists node.
          by destruct (Hu old k old l id Hid R R') as [_ ->]. }
        rewrite Hl. subst k. rewrite HkLeft, str_append_nil_r in *.
        split; [|split].
        -- rewrite Hkey. by eapply finds_branch.
        -- intros k0 e Hne. rewrite !finds_via.
           split; intros (ed & Hed & Hv); exists ed; (split; [done|]).
           ++ destruct (decide (ed = (kNew, Branch id))) as [->|Hned].
              ** destruct Hv as (s & -> & Hf). exists s. split; [done|].
                 simpl in *. apply HB; [|done]. intros ->. by apply Hne.
              ** by apply Hother.
           ++ destruct (decide (ed = (kNew, Branch id))) as [->|Hned].
              ** destruct Hv as (s & -> & Hf). exists s. split; [done|].
                 simpl in *. apply HB; [|done]. intros ->. by apply Hne.
              ** by apply Hother.
        -- intros x. destruct (HC x) as [?|[Hd|?]]; [by left| |by right; right].
           right. left. by eapply desc_child.
      * destruct (String.eqb key' kLeft && JS.empty kLeft) eqn:Hrep.
        -- (* the leaf of the key itself: its text is replaced *)
           inversion Hset; subst r'; clear Hset. simpl.
           apply andb_prop in Hrep as [Hk'%String.eqb_eq _].
           assert (key = k) as -> by (by rewrite Hkey, Hk', <- Hk).
           destruct (Hrew (<[i := (k, Leaf val)]> node)) as (Hl & Hf & HC).
           { intros l t [[=]|?]%elem_of_insert_inv. done. }
           rewrite Hl. split; [|split; [|done]].
           ++ apply finds_leaf. apply list_elem_of_lookup. exists i.
              apply list_lookup_insert_eq. by eapply lookup_lt_Some.
           ++ intros k0 e Hne. rewrite Hf, finds_via.
              split; intros (ed & Hed & Hv).
              ** apply elem_of_insert_inv in Hed as [->|Hed]; [|by exists ed].
                 by destruct Hv as [-> _].
              ** exists ed. split; [|done].
                 apply list_elem_of_lookup in Hed as [j Hj].
                 apply list_elem_of_lookup. exists j.
                 rewrite list_lookup_insert_ne; [done|]. intros <-.
                 rewrite Hi in Hj. inversion Hj; subst ed.
                 by destruct Hv as [-> _].
        -- inversion Hset; subst r'; clear Hset. by apply Hsplit.
    + inversion Hset; subst r'; clear Hset. by apply Hsplit.
  - (* no edge starts as the key does: a leaf edge is added *)
    inversion Hset; subst r'; clear Hset. simpl.
    destruct (Hrew (nodeSort (node ++ [(key, Leaf val)]))) as (Hl & Hf & HC).
    { intros l t [?|[=]%list_elem_of_singleton]%elem_of_nodeSort%elem_of_app.
      done. }
    rewrite Hl. split; [|split; [|done]].
    + apply finds_leaf, elem_of_nodeSort, elem_of_app. right.
      by apply list_elem_of_singleton.
    + intros k0 e Hne. rewrite Hf, finds_via.
      split; intros (ed & Hed & Hv).
      * apply elem_of_nodeSort, elem_of_app in Hed as [Hed|Hed]; [by exists ed|].
        apply list_elem_of_singleton in Hed. subst ed.
        by destruct Hv as [-> _].
      * exists ed. split; [|done]. apply elem_of_nodeSort, elem_of_app. by left.
Qed.

Lemma set_loop_mono val r :
  forall f f' old node key r',
  f <= f' -> set_loop f val old node key r = Some r' ->
  set_loop f' val old node key r = Some r'.
Proof.
  induction f as [|f IH]; intros f' old node key r' Hle Hset; [done|].
  destruct f' as [|f']; [lia|]. simpl in *.
  destruct (scan_head 0 node key) as [[[i k] v]|]; [|done].
  destruct (common k key) as [[kNew kLeft] key'].
  destruct (nextId r) as [new r1].
  destruct ((negb (JS.empty key') && JS.empty kLeft) || String.eqb k kNew);
    [|done].
  destruct v as [id|enc]; [|done]. apply IH; [lia|done].
Qed.

Lemma set_loop_pool fuel val r :
  NODE_ROOT ∉ m_recycleIds r ->
  forall old node key r',
  set_loop fuel val old node key r = Some r' -> NODE_ROOT ∉ m_recycleIds r'.
Proof.
  intros Hroot. induction fuel as [|fuel IH]; intros old node key r' Hset; [done|].
  simpl in Hset.
  destruct (scan_head 0 node key) as [[[i k] v]|];
    [|by inversion Hset; subst].
  destruct (common k key) as [[kNew kLeft] key'].
  destruct (nextId r) as [new r1] eqn:Hnext.
  destruct (nextId_not_root _ _ _ Hroot Hnext) as [_ Hroot1].
  destruct ((negb (JS.empty key') && JS.empty kLeft) || String.eqb k kNew);
    [|by inversion Hset; subst].
  destruct v as [id|enc]; [by eapply IH|].
  destruct (String.eqb key' kLeft && JS.empty kLeft);
    by inversion Hset; subst.
Qed.

(** Two stores in which a key is found with the same texts give [get] the
    same result for it. *)
Lemma get_loop_agree c1 c2 rk1 rk2 fuel key :
  nodes_ok c1 -> ranked rk1 c1 -> nodes_ok c2 -> ranked rk2 c2 ->
  rk1 NODE_ROOT + 1 < fuel -> rk2 NODE_ROOT + 1 < fuel ->
  (forall e, finds c1 (load c1 NODE_ROOT) key e
             <-> finds c2 (load c2 NODE_ROOT) key e) ->
  get_loop fuel c1 (load c1 NODE_ROOT) key
  = get_loop fuel c2 (load c2 NODE_ROOT) key.
Proof.
  intros Hn1 Hr1 Hn2 Hr2 Hf1 Hf2 Hiff.
  destruct (get_loop_spec c1 rk1 NODE_ROOT fuel key Hn1 Hr1 Hf1) as [Hs1 Hz1].
  destruct (get_loop_spec c2 rk2 NODE_ROOT fuel key Hn2 Hr2 Hf2) as [Hs2 Hz2].
  destruct (get_loop_total c1 rk1 Hr1 fuel NODE_ROOT (load c1 NODE_ROOT) key)
    as [o1 Ho1]; [done|done|].
  destruct (get_loop_total c2 rk2 Hr2 fuel NODE_ROOT (load c2 NODE_ROOT) key)
    as [o2 Ho2]; [done|done|].
  rewrite Ho1, Ho2. f_equal. destruct o1 as [e1|].
  - apply Hs1, Hiff, Hs2 in Ho1. congruence.
  - destruct o2 as [e2|]; [|done].
    apply Hs2, Hiff, Hs1 in Ho2. congruence.
Qed.

(** [set] on a state whose recycle set does not hold the id of the root:
    it returns, the key is found with the text of the value, and every
    other key is found as before. *)
Lemma set_result {V : Type} (encode : V -> string) r key value :
  Inv r -> NODE_ROOT ∉ m_recycleIds r ->
  exists N r',
    Inv r' /\ (NODE_ROOT ∉ m_recycleIds r') /\ shares r' = shares r
    /\ forall fuel, N <= fuel ->
         set encode fuel r key value = Some r'
         /\ get_enc fuel r' key = Some (Some (encode value))
         /\ forall k, k <> key -> get_enc fuel r' k = get_enc fuel r k.
Proof.
  intros HI Hroot. pose proof HI as (Hc & [rk Hr] & Ha).
  destruct (set_loop_total r rk (encode value) Hr (S (rk NODE_ROOT)) NODE_ROOT
              (load (cells r) NODE_ROOT) key) as [r' Hset]; [done|lia|].
  assert (kept r r') as (HI' & Hsh & _) by (by eapply set_kept).
  pose proof HI' as (Hc' & [rk' Hr'] & Ha').
  destruct (set_loop_finds _ _ _ _ _ _ _ rk Hc Hr Ha Hroot eq_refl
              (or_introl eq_refl) (le_n _) Hset) as (HA & HB & _).
  exists (S (rk NODE_ROOT) + (rk' NODE_ROOT + 2)), r'.
  split; [done|]. split; [by eapply set_loop_pool|]. split; [done|].
  intros fuel Hfuel. split; [|split].
  - unfold set. eapply set_loop_mono; [|exact Hset]. lia.
  - unfold get_enc.
    apply (get_loop_spec (cells r') rk' NODE_ROOT fuel key);
      [by destruct Hc'|done|lia|done].
  - intros k Hk. unfold get_enc.
    apply (get_loop_agree _ _ rk' rk);
      [by destruct Hc'|done|by destruct Hc|done|lia|lia|].
    intros e. by apply HB.
Qed.

Lemma get_of_get_enc {V : Type} (JSON_parse : string -> option V) fuel r key :
  get JSON_parse fuel r key
  = match get_enc fuel r key with
    | None => None
    | Some None => Some Undefined
    | Some (Some enc) => Some (parsed JSON_parse enc)
    end.
Proof. reflexivity. Qed.

Lemma has_of_get_enc fuel r key :
  has fuel r key = is_Some_bool <$> get_enc fuel r key.
Proof. unfold has, get_enc. apply has_loop_get_loop. Qed.



Lemma run_app fuel r l1 l2 :
  run fuel r (l1 ++ l2) = run fuel r l1 ≫= (fun r1 => run fuel r1 l2).
Proof.
  revert r. induction l1 as [|c l1 IH]; intros r; simpl; [done|].
  destruct (step fuel r c) as [r1|]; simpl; [apply IH|done].
Qed.

Lemma assigned_snoc kvs k v key :
  assigned (kvs ++ [(k, v)]) key
  = if String.eqb k key then Some v else assigned kvs key.
Proof.
  induction kvs as [|[k0 v0] kvs IH]; simpl.
  - by destruct (String.eqb k key).
  - rewrite IH. by destruct (String.eqb k key).
Qed.


Lemma sample_root_kept : NODE_ROOT ∉ m_recycleIds sample.
Proof. apply (bool_decide_unpack _). vm_compute. exact I. Qed.




(** ** What [del] does to the keys *)

Lemma finds_sim c (Q : string -> string -> string -> Prop) :
  (forall id n e, (n, Leaf e) ∈ load c id -> Q id n e) ->
  (forall id n t s e, (n, Branch t) ∈ load c id -> Q t s e ->
     Q id (n +:+ s) e) ->
  forall id k e, finds c (load c id) k e -> Q id k e.
Proof.
  intros HL HB id k e H. remember (load c id) as node eqn:Hn. revert id Hn.
  induction H as [node n enc Hin|node n t s enc Hin Hf IH]; intros id ->.
  - by apply HL.
  - eapply HB; [done|]. by apply IH.
Qed.

Lemma explained_finds c c' :
  explained c c' ->
  forall id k e, finds c' (load c' id) k e -> finds c (load c id) k e.
Proof.
  intros Hex. apply finds_sim.
  - intros id n e [Hin|(n0 & m & cur & -> & Hn0 & Hm)]%Hex.
    + by apply finds_leaf.
    + eapply finds_branch; [done|]. by apply finds_leaf.
  - intros id n t s e [Hin|(n0 & m & cur & -> & Hn0 & Hm)]%Hex Hf.
    + by eapply finds_branch.
    + rewrite str_append_assoc. eapply finds_branch; [done|].
      by eapply finds_branch.
Qed.

Lemma explained_refl c : explained c c.
Proof. intros id l v Hin. by left. Qed.

Lemma explained_delete c cur : explained c (delete cur c).
Proof.
  intros id l v Hin. left. unfold load in *.
  destruct (decide (id = cur)) as [->|Hne].
  - rewrite lookup_delete_eq in Hin. by apply elem_of_nil in Hin.
  - by rewrite lookup_delete_ne in Hin.
Qed.

Lemma explained_insert (c c1 : gmap string RNode) id (node' : list edge) :
  explained c c1 ->
  (forall l v, (l, v) ∈ node' ->
     (l, v) ∈ load c id
     \/ exists n m cur,
          l = n +:+ m /\ (n, Branch cur) ∈ load c id /\ (m, v) ∈ load c cur) ->
  explained c (<[id := node']> c1).
Proof.
  intros Hex Hnode id' l v Hin. unfold load in Hin.
  destruct (decide (id' = id)) as [->|Hne].
  - rewrite lookup_insert_eq in Hin. by apply Hnode.
  - rewrite lookup_insert_ne in Hin by done. by apply Hex.
Qed.

Lemma del_loop_explained fuel cur node frames key r b r' rk :
  cells_ok (cells r) -> ranked rk (cells r) ->
  cells r !! cur = Some node -> rk cur <= rk NODE_ROOT ->
  frames_ok (cells r) frames cur node ->
  del_loop fuel cur node frames key r = Some (b, r') ->
  explained (cells r) (cells r').
Proof.
  intros Hc Hr. revert cur node frames key.
  induction fuel as [|fuel IH]; intros cur node frames key Hcur Hrk Hfr Hdel;
    [done|].
  simpl in Hdel.
  destruct (scan 0 node key) as [[[i n] v]|] eqn:Hscan;
    [|inversion Hdel; subst; by apply explained_refl].
  apply scan_Some in Hscan as (_ & Hi & _ & _).
  replace (i - 0) with i in Hi by lia.
  assert ((n, v) ∈ node) as Hin by by eapply list_elem_of_lookup_2.
  destruct v as [id|enc].
  - assert (refs (cells r) cur n id) as Href by by exists node.
    pose proof (Hr _ _ _ Href) as Hlt.
    destruct (cells r !! id) as [node'|] eqn:Hid;
      [|inversion Hdel; subst; by apply explained_refl].
    eapply (IH id node'); [done|lia| |exact Hdel].
    right. exists frames, i, n, cur, node. repeat split; try done.
    + intros ->. lia.
    + destruct Hfr as [[-> ->]|(fs & i0 & n0 & P & pnode & -> & _)]; [by left|].
      right. by exists fs, i0, n0.
  - assert (node_ok node /\ (cur <> NODE_ROOT -> 2 <= length node)) as [Hok Hlen].
    { destruct Hc as (Hno & _). by apply Hno in Hcur. }
    pose proof (length_splice_out _ _ _ Hi) as Hl1.
    assert (forall ed, ed ∈ splice_out i node -> ed ∈ load (cells r) cur) as Hsub.
    { intros ed Hed. unfold load. rewrite Hcur. simpl.
      eapply elem_of_sublist; [done|apply splice_out_sublist]. }
    destruct (splice_out i node) as [|[l t] [|e2 rest]] eqn:Hsp.
    + simpl in Hl1.
      assert (cur = NODE_ROOT) as ->.
      { destruct (decide (cur = NODE_ROOT)) as [?|Hne]; [done|].
        specialize (Hlen Hne). lia. }
      destruct Hfr as [[-> _]|(fs & i0 & n0 & P & pnode & -> & Hne & _)]; [|done].
      rewrite pop_nil in Hdel. inversion Hdel; subst.
      rewrite cells_in_place. destruct (shares r); [|apply explained_refl].
      apply explained_insert; [apply explained_refl|].
      intros l v []%elem_of_nil.
    + assert ((l, t) ∈ load (cells r) cur) as Hlt by (apply Hsub; left).
      destruct Hfr as [[-> ->]|(fs & i0 & n0 & P & pnode & -> & Hne & HP & Hi0 & Hfs)].
      * rewrite pop_nil in Hdel. inversion Hdel; subst.
        destruct (recycle_del_fields NODE_ROOT [(l, t)] r) as (-> & _).
        apply explained_delete.
      * rewrite pop_snoc in Hdel.
        assert ((n0, Branch cur) ∈ load (cells r) P) as Hn0.
        { unfold load. rewrite HP. simpl. by eapply list_elem_of_lookup_2. }
        assert (forall node',
          (forall ed, ed ∈ node' ->
             ed = (n0 +:+ l, t) \/ ed ∈ load (cells r) P) ->
          explained (cells r)
            (cells (store_set P node'
                      (recycle cur (store_del cur (in_place cur [(l, t)] r))))))
          as Hcol.
        { intros node' Hnode'.
          destruct (collapse_fields cur [(l, t)] P node' r) as (-> & _).
          apply explained_insert; [apply explained_delete|].
          intros l' v' [[= -> ->]|Hin']%Hnode'; [|by left].
          right. by exists n0, l, cur. }
        destruct Hfs as [[-> ->]|(fs' & i' & n' & ->)].
        -- rewrite pop_nil in Hdel. inversion Hdel; subst. apply Hcol.
           unfold splice_in. rewrite take_nil, drop_nil. simpl.
           intros ed ->%list_elem_of_singleton. by left.
        -- rewrite pop_snoc in Hdel. inversion Hdel; subst. apply Hcol.
           intros ed [->|Hed]%elem_of_splice_in; [by left|]. right.
           unfold load. rewrite HP. simpl.
           eapply elem_of_sublist; [done|apply splice_out_sublist].
    + inversion Hdel; subst. rewrite <- Hsp.
      destruct (set_in_place_fields cur (splice_out i node) r) as (-> & _).
      apply explained_insert; [apply explained_refl|].
      intros l' v' Hin'. left. apply Hsub. by rewrite <- Hsp.
Qed.

Lemma del_loop_mono r :
  forall f f' cur node frames key res,
  f <= f' -> del_loop f cur node frames key r = Some res ->
  del_loop f' cur node frames key r = Some res.
Proof.
  induction f as [|f IH]; intros f' cur node frames key res Hle Hdel; [done|].
  destruct f' as [|f']; [lia|]. simpl in *.
  destruct (scan 0 node key) as [[[i n] v]|]; [|done].
  destruct v as [id|enc]; [|done].
  destruct (cells r !! id) as [node'|]; [|done]. apply IH; [lia|done].
Qed.

Lemma has_loop_nil fuel c key : has_loop fuel c [] key <> Some true.
Proof. by destruct fuel. Qed.

(** An edge of a well-formed node is known by the first character of a
    key that starts with it. *)
Lemma via_edge c (node : list edge) (ed : edge) n v s k e :
  node_ok node -> ed ∈ node -> (n, v) ∈ node -> k = n +:+ s ->
  (n = "" -> s = "") -> via c ed k e -> ed = (n, v).
Proof.
  intros [Hs Hb] Hed Hin -> Hn Hv.
  apply (heads_sorted_inj node); [done|done|done|]. simpl.
  erewrite <- via_hcode; [| |exact Hv].
  - destruct (decide (n = "")) as [->|Hne]; [by rewrite Hn|].
    by apply hcode_append.
  - destruct ed as [l w]. simpl. intros t ->. by eapply Hb.
Qed.

(** No key that starts as the edge taken out of a node does is found in
    what is left of the node. *)
Lemma splice_out_finds c (node : list edge) i n v s e :
  node_ok node -> node !! i = Some (n, v) -> (n = "" -> s = "") ->
  ~ finds c (splice_out i node) (n +:+ s) e.
Proof.
  intros Hok Hi Hn (ed & Hed & Hv)%finds_via.
  destruct (elem_of_splice_out i node n v ed) as [Hin Hne];
    [by destruct Hok|done|done|].
  assert (ed = (n, v)) as ->.
  { apply (via_edge c node ed n v s (n +:+ s) e);
      [done|done|by eapply list_elem_of_lookup_2|done|done|done]. }
  done.
Qed.

Lemma del_loop_removed r rk :
  cells_ok (cells r) -> ranked rk (cells r) ->
  forall fuel cur node frames key P pnode i n fs b r',
  cells r !! cur = Some node -> rk P <= rk NODE_ROOT ->
  cells r !! P = Some pnode -> pnode !! i = Some (n, Branch cur) ->
  frames = fs ++ [(i, n, cur, node)] ->
  (fs = [] /\ P = NODE_ROOT) \/ (exists fs' i' n', fs = fs' ++ [(i', n', P, pnode)]) ->
  has_loop fuel (cells r) node key = Some true ->
  del_loop fuel cur node frames key r = Some (b, r') ->
  b = true
  /\ (forall e, ~ finds (cells r') (load (cells r') P) (n +:+ key) e)
  /\ (forall x, cells r' !! x = cells r !! x \/ desc (cells r) P x).
Proof.
  intros Hc Hr. pose proof Hc as (Hno & Hcl & Hu).
  induction fuel as [|fuel IH];
    intros cur node frames key P pnode i n fs b r' Hcur HrkP HP Hi Hframes Hfs
      Hhas Hdel; [done|].
  simpl in Hdel, Hhas.
  assert (refs (cells r) P n cur) as HPcur.
  { exists pnode. split; [done|]. by eapply list_elem_of_lookup_2. }
  pose proof (Hr _ _ _ HPcur) as Hlt.
  assert (cur <> NODE_ROOT) as Hne by (intros ->; lia).
  assert (cur <> P) as HneP by (intros ->; lia).
  destruct (Hno _ _ HP) as [HokP _].
  destruct (Hno _ _ Hcur) as [Hok Hlen]. specialize (Hlen Hne).
  assert (n <> "") as Hn.
  { destruct HokP as [_ Hb]. apply (Hb n cur). by eapply list_elem_of_lookup_2. }
  destruct (scan 0 node key) as [[[j m] v]|] eqn:Hscan; [|done].
  apply scan_Some in Hscan as (_ & Hj & _ & Hkey).
  replace (j - 0) with j in Hj by lia.
  set (key' := JS.drop (String.length m) key) in *.
  assert ((m, v) ∈ node) as Hin by by eapply list_elem_of_lookup_2.
  (* a key found from [P] in the new store that starts with [n] goes
     through the edge to [cur] when [P] is as it was *)
  assert (forall (c' : gmap string RNode) s e,
            load c' P = pnode -> finds c' pnode (n +:+ s) e ->
            finds c' (load c' cur) s e) as Hthrough.
  { intros c' s e HlP (ed & Hed & Hv)%finds_via.
    assert (ed = (n, Branch cur)) as ->.
    { apply (via_edge c' pnode ed n (Branch cur) s (n +:+ s) e);
        [done|done|by eapply list_elem_of_lookup_2|done|by intros ?|done]. }
    destruct Hv as (s' & Heq & Hf). simpl in *.
    apply str_append_inv_l in Heq. by subst s'. }
  destruct v as [id|enc].
  - simpl in Hhas. rewrite andb_false_r in Hhas.
    destruct (cells r !! id) as [node'|] eqn:Hid.
    2: { unfold load in Hhas. rewrite Hid in Hhas. simpl in Hhas.
         by apply has_loop_nil in Hhas. }
    assert (load (cells r) id = node') as Hlid by (unfold load; by rewrite Hid).
    rewrite Hlid in Hhas.
    destruct (IH id node' (frames ++ [(j, m, id, node')]) key' cur node j m
                frames b r') as (Hb & Hrem & Hconf); try done.
    { lia. }
    { right. subst frames. by exists fs, i, n. }
    split; [done|]. split.
    + assert (load (cells r') P = pnode) as HlP.
      { destruct (Hconf P) as [HsP|Hd].
        - unfold load. by rewrite HsP, HP.
        - eapply desc_rank in Hd; [|done]. lia. }
      intros e Hf. apply (Hrem e). rewrite <- Hkey.
      apply Hthrough; [done|]. by rewrite <- HlP.
    + intros x. destruct (Hconf x) as [?|Hd]; [by left|right].
      by eapply desc_child.
  - simpl in Hhas. rewrite andb_true_r in Hhas.
    destruct (JS.empty key') eqn:Hempty.
    2: { by apply has_loop_nil in Hhas. }
    apply empty_true in Hempty. rewrite Hempty, str_append_nil_r in Hkey.
    subst key. clear Hhas.
    pose proof (length_splice_out _ _ _ Hj) as Hl1.
    assert (forall (c' : gmap string RNode) (node' : list edge),
      c' = <[P := node']> (delete cur (cells r)) ->
      (forall ed, ed ∈ node' ->
         (exists l t, ed = (n +:+ l, t) /\ (l, t) ∈ splice_out j node)
         \/ ed ∈ splice_out i pnode) ->
      (forall e, ~ finds c' (load c' P) (n +:+ m) e)
      /\ (forall x, c' !! x = cells r !! x \/ desc (cells r) P x)) as Hcol.
    { intros c' node' -> Hnode'. split.
      - intros e. unfold load. rewrite lookup_insert_eq. simpl.
        intros (ed & Hed & Hv)%finds_via.
        apply Hnode' in Hed as [(l & t & -> & Hlt')|Hed].
        + eapply elem_of_splice_out in Hlt' as [Hlt' Hh]; [|by destruct Hok|done].
          simpl in Hh. apply Hh.
          destruct t as [t|e0]; unfold via in Hv; simpl in Hv.
          * destruct Hv as (s & Heq & _). rewrite str_append_assoc in Heq.
            apply str_append_inv_l in Heq. subst m.
            symmetry. apply hcode_append. destruct Hok as [_ Hb]. by eapply Hb.
          * destruct Hv as [Heq _]. apply str_append_inv_l in Heq. by subst.
        + eapply elem_of_splice_out in Hed as [Hed Hh]; [|by destruct HokP|done].
          apply Hh. erewrite <- via_hcode; [| |exact Hv].
          * by apply hcode_append.
          * destruct ed as [l w]. simpl. intros t ->.
            destruct HokP as [_ Hb]. by eapply Hb.
      - intros x. destruct (decide (x = P)) as [->|HxP].
        { right. apply rtc_refl. }
        destruct (decide (x = cur)) as [->|Hxc].
        { right. eapply desc_child; [done|apply rtc_refl]. }
        left. rewrite lookup_insert_ne by done. by rewrite lookup_delete_ne. }
    destruct (splice_out j node) as [|[l t] [|e2 rest]] eqn:Hsp.
    + simpl in Hl1. lia.
    + subst frames. rewrite pop_snoc in Hdel.
      destruct Hfs as [[-> ->]|(fs' & i' & n' & ->)].
      * rewrite pop_nil in Hdel. inversion Hdel; subst b r'.
        split; [done|].
        destruct (collapse_fields cur [(l, t)] NODE_ROOT
                    (splice_in i (n +:+ l, t) []) r) as (Hcells & _).
        rewrite Hcells. apply (Hcol _ (splice_in i (n +:+ l, t) [])); [done|].
        unfold splice_in. rewrite take_nil, drop_nil. simpl.
        intros ed ->%list_elem_of_singleton. left. exists l, t.
        split; [done|]. left.
      * rewrite pop_snoc in Hdel. inversion Hdel; subst b r'.
        split; [done|].
        destruct (collapse_fields cur [(l, t)] P
                    (splice_in i (n +:+ l, t) pnode) r) as (Hcells & _).
        rewrite Hcells. apply (Hcol _ (splice_in i (n +:+ l, t) pnode)); [done|].
        intros ed [->|Hed]%elem_of_splice_in; [|by right].
        left. exists l, t. split; [done|]. left.
    + inversion Hdel; subst b r'. split; [done|]. rewrite <- Hsp.
      destruct (set_in_place_fields cur (splice_out j node) r) as (Hcells & _).
      rewrite Hcells. split.
      * assert (load (<[cur := splice_out j node]> (cells r)) P = pnode) as HlP.
        { unfold load. rewrite lookup_insert_ne by done. by rewrite HP. }
        intros e Hf. rewrite HlP in Hf.
        apply (Hthrough _ m e HlP) in Hf.
        unfold load in Hf. rewrite lookup_insert_eq in Hf. simpl in Hf.
        rewrite <- (str_append_nil_r m) in Hf.
        by eapply splice_out_finds in Hf.
      * intros x. destruct (decide (x = cur)) as [->|Hxc].
        { right. eapply desc_child; [done|apply rtc_refl]. }
        left. by rewrite lookup_insert_ne.
Qed.

Lemma del_removed fuel r rk key b r' :
  cells_ok (cells r) -> ranked rk (cells r) ->
  has_loop fuel (cells r) (load (cells r) NODE_ROOT) key = Some true ->
  del fuel r key = Some (b, r') ->
  b = true
  /\ ((shares r = false
       /\ (exists enc, cells r !! NODE_ROOT = Some [(key, Leaf enc)])
       /\ r' = r)
      \/ forall e, ~ finds (cells r') (load (cells r') NODE_ROOT) key e).
Proof.
  intros Hc Hr Hhas Hdel. pose proof Hc as (Hno & _). unfold del in Hdel.
  unfold load in Hhas |- * at 1.
  destruct (cells r !! NODE_ROOT) as [node|] eqn:Hroot; simpl in *.
  2: { by apply has_loop_nil in Hhas. }
  destruct (Hno _ _ Hroot) as [Hok _].
  destruct fuel as [|fuel]; [done|]. simpl in Hdel, Hhas.
  destruct (scan 0 node key) as [[[j m] v]|] eqn:Hscan; [|done].
  apply scan_Some in Hscan as (_ & Hj & _ & Hkey).
  replace (j - 0) with j in Hj by lia.
  set (key' := JS.drop (String.length m) key) in *.
  destruct v as [id|enc].
  - simpl in Hhas. rewrite andb_false_r in Hhas.
    destruct (cells r !! id) as [node'|] eqn:Hid.
    2: { unfold load in Hhas. rewrite Hid in Hhas. simpl in Hhas.
         by apply has_loop_nil in Hhas. }
    assert (load (cells r) id = node') as Hlid by (unfold load; by rewrite Hid).
    rewrite Hlid in Hhas.
    destruct (del_loop_removed r rk Hc Hr fuel id node' ([] ++ [(j, m, id, node')])
                key' NODE_ROOT node j m [] b r') as (Hb & Hrem & _); try done.
    { by left. }
    split; [done|]. right. by rewrite Hkey.
  - simpl in Hhas. rewrite andb_true_r in Hhas.
    destruct (JS.empty key') eqn:Hempty.
    2: { by apply has_loop_nil in Hhas. }
    apply empty_true in Hempty. rewrite Hempty, str_append_nil_r in Hkey.
    subst key. clear Hhas.
    pose proof (length_splice_out _ _ _ Hj) as Hl1.
    destruct (splice_out j node) as [|[l t] [|e2 rest]] eqn:Hsp.
    + rewrite ?pop_nil in Hdel; simpl in Hdel. inversion Hdel; subst b r'. split; [done|].
      destruct (shares r) eqn:Hsh.
      * right. intros e. rewrite cells_in_place, Hsh. unfold load.
        rewrite lookup_insert_eq. simpl.
        by intros (ed & []%elem_of_nil & _)%finds_via.
      * left. split; [done|]. split; [|unfold in_place; by rewrite Hsh].
        exists enc. simpl in Hl1.
        destruct node as [|x [|y node]]; simpl in Hl1; try lia.
        destruct j as [|j]; [|done]. simpl in Hj. by inversion Hj.
    + rewrite ?pop_nil in Hdel; simpl in Hdel. inversion Hdel; subst b r'. split; [done|].
      right. intros e.
      destruct (recycle_del_fields NODE_ROOT [(l, t)] r) as (-> & _).
      unfold load. rewrite lookup_delete_eq. simpl.
      by intros (ed & []%elem_of_nil & _)%finds_via.
    + inversion Hdel; subst b r'. split; [done|]. right. intros e.
      rewrite <- Hsp.
      destruct (set_in_place_fields NODE_ROOT (splice_out j node) r) as (-> & _).
      unfold load. rewrite lookup_insert_eq. simpl.
      rewrite <- (str_append_nil_r m). by apply splice_out_finds with (v := Leaf enc).
Qed.

Lemma del_mono r key f f' res :
  f <= f' -> del f r key = Some res -> del f' r key = Some res.
Proof.
  unfold del. intros Hle. destruct (cells r !! NODE_ROOT) as [node|]; [|done].
  by apply del_loop_mono.
Qed.

Lemma del_total r rk key fuel :
  ranked rk (cells r) -> rk NODE_ROOT < fuel -> is_Some (del fuel r key).
Proof.
  intros Hr Hfuel. unfold del.
  destruct (cells r !! NODE_ROOT) as [node|] eqn:Hroot; [|done].
  by eapply del_loop_total.
Qed.

(** X4. [del] of a key that is present returns [true], and the key is
    absent afterwards.  The one exception: with a store that hands out
    copies and the key the only edge of the root, nothing is written and
    the state is as before. *)
Theorem del_removes_key r key f0 :
  reachable r -> has f0 r key = Some true ->
  exists N r',
    forall fuel, N <= fuel ->
      del fuel r key = Some (true, r')
      /\ (has fuel r' key = Some false
          \/ (shares r = false
              /\ (exists enc, cells r !! NODE_ROOT = Some [(key, Leaf enc)])
              /\ r' = r)).
Proof.
  intros HI%reachable_Inv Hhas. pose proof HI as (Hc & [rk Hr] & Ha).
  pose proof Hc as (Hno & _).
  assert (has_loop (S (rk NODE_ROOT)) (cells r) (load (cells r) NODE_ROOT) key
          = Some true) as Hhas1.
  { unfold has in Hhas. rewrite has_loop_get_loop in Hhas |- *.
    destruct (get_loop f0 _ _ _) as [[e|]|] eqn:Hget; try done.
    apply get_loop_finds in Hget.
    by rewrite (finds_get_loop (cells r) rk Hno Hr _ _ _ Hget NODE_ROOT
                  (S (rk NODE_ROOT)) eq_refl (Nat.lt_succ_diag_r _)). }
  destruct (del_total r rk key (S (rk NODE_ROOT)) Hr) as [[b r'] Hdel]; [lia|].
  destruct (del_removed _ _ _ _ _ _ Hc Hr Hhas1 Hdel) as [-> Hrem].
  assert (kept r r') as (HI' & _) by (by eapply del_kept).
  destruct HI' as ((Hno' & _) & [rk' Hr'] & _).
  exists (S (rk NODE_ROOT) + (rk' NODE_ROOT + 2)), r'. intros fuel Hfuel.
  split; [eapply del_mono; [|exact Hdel]; lia|].
  destruct Hrem as [Hsame|Hrem]; [by right|left].
  unfold has. rewrite has_loop_get_loop.
  destruct (get_loop_spec (cells r') rk' NODE_ROOT fuel key Hno' Hr')
    as [_ Hnone]; [lia|].
  by rewrite (proj2 Hnone Hrem).
Qed.

(** X5. [del] returns, and adds nothing: a call that returns [false] leaves
    the state as it was, and every key found after a call was found before
    it, with the same text. *)
Theorem del_adds_no_key r key :
  reachable r ->
  exists N b r',
    forall fuel, N <= fuel ->
      del fuel r key = Some (b, r')
      /\ (b = false -> r' = r)
      /\ forall k enc, get_enc fuel r' k = Some (Some enc) ->
                       get_enc fuel r k = Some (Some enc).
Proof.
  intros HI%reachable_Inv. pose proof HI as (Hc & [rk Hr] & Ha).
  pose proof Hc as (Hno & _).
  destruct (del_total r rk key (S (rk NODE_ROOT)) Hr) as [[b r'] Hdel]; [lia|].
  assert (explained (cells r) (cells r')) as Hex.
  { revert Hdel. unfold del.
    destruct (cells r !! NODE_ROOT) as [node|] eqn:Hroot.
    - intros Hdel. eapply (del_loop_explained _ NODE_ROOT); try done. by left.
    - intros [= <- <-]. apply explained_refl. }
  exists (S (rk NODE_ROOT)), b, r'. intros fuel Hfuel.
  split; [eapply del_mono; [|exact Hdel]; lia|]. split.
  - intros ->. by eapply del_false.
  - intros k enc Hget. unfold get_enc in *.
    apply get_loop_finds, (explained_finds _ _ Hex) in Hget.
    eapply (finds_get_loop (cells r) rk); [done|done|done|done|lia].
Qed.

Lemma del_removes_key_witness :
  reachable sample /\ has 9 sample "cow" = Some true
  /\ exists N r',
       forall fuel, N <= fuel ->
         del fuel sample "cow" = Some (true, r')
         /\ (has fuel r' "cow" = Some false
             \/ (shares sample = false
                 /\ (exists enc,
                       cells sample !! NODE_ROOT = Some [("cow", Leaf enc)])
                 /\ r' = sample)).
Proof.
  assert (has 9 sample "cow" = Some true) as Hhas by (vm_compute; reflexivity).
  split; [exact sample_reachable|]. split; [exact Hhas|].
  exact (del_removes_key sample "cow" 9 sample_reachable Hhas).
Defined.

Lemma del_adds_no_key_witness :
  reachable sample
  /\ exists N b r',
       forall fuel, N <= fuel ->
         del fuel sample "cow" = Some (b, r')
         /\ (b = false -> r' = sample)
         /\ forall k enc, get_enc fuel r' k = Some (Some enc) ->
                          get_enc fuel sample k = Some (Some enc).
Proof.
  split; [exact sample_reachable|].
  exact (del_adds_no_key sample "cow" sample_reachable).
Defined.


(** ** What [_loop] yields under a count *)

Lemma counted_sublist count full ys count' :
  (count <= 0)%Z -> counted count full ys count' ->
  sublist ys full /\ (count' <= 0)%Z.
Proof.
  intros Hc [(? & -> & ->)|[(? & ? & ?)|[(? & -> & ->)|((? & ?) & _)]]];
    try lia; (split; [done|lia]).
Qed.

Lemma counted_nil count : counted count [] [] count.
Proof.
  unfold counted. simpl.
  destruct (Z.lt_trichotomy count 0) as [?|[->|?]].
  - left. split; [done|]. split; [done|lia].
  - right. left. done.
  - right. right. left. split; [lia|]. split; [done|lia].
Qed.

Lemma counted_app c full1 ys1 c1 full2 ys2 c2 :
  counted c full1 ys1 c1 -> counted c1 full2 ys2 c2 ->
  counted c (full1 ++ full2) (ys1 ++ ys2) c2.
Proof.
  intros H1 H2. unfold counted. rewrite length_app, Nat2Z.inj_add.
  destruct H1 as [(Hc & -> & ->)|[(-> & Hs1 & Hc1)|[(Hc & -> & ->)|(Hc & rest & -> & Hs1 & Hc1)]]].
  - left. split; [done|].
    destruct H2 as [(_ & -> & ->)|[(? & _)|[(? & _)|((? & _) & _)]]]; try lia.
    split; [done|lia].
  - right. left. split; [done|].
    destruct (counted_sublist _ _ _ _ Hc1 H2) as [Hs2 Hc2].
    split; [by apply sublist_app|done].
  - destruct H2 as [(? & _)|[(? & _)|[(Hc2 & -> & ->)|(Hc2 & rest & -> & Hs2 & Hc2')]]];
      try lia.
    + right. right. left. split; [lia|]. split; [done|lia].
    + right. right. right. split; [lia|]. exists rest.
      replace (Z.to_nat c)
        with (length full1 + Z.to_nat (c - Z.of_nat (length full1))) by lia.
      rewrite take_app_add, drop_app_add, <- app_assoc. done.
  - right. right. right. split; [lia|].
    destruct (counted_sublist _ _ _ _ Hc1 H2) as [Hs2 Hc2].
    exists (rest ++ ys2).
    rewrite take_app_le, drop_app_le by lia.
    split; [by rewrite app_assoc|]. split; [by apply sublist_app|done].
Qed.

Lemma counted_single count (p : string * string) :
  count <> 1%Z -> counted count [p] [p] (count - 1).
Proof.
  intros Hc. unfold counted. simpl.
  destruct (Z.lt_trichotomy count 0) as [?|[->|?]].
  - left. done.
  - right. left. split; [done|]. split; [done|lia].
  - right. right. left. split; [lia|]. done.
Qed.

Lemma loop_edges_counted nested f key (l : list edge) g :
  (forall k id cnt, (k, Branch id) ∈ l -> f (key +:+ k) true = true ->
     exists xs n,
       nested cnt (key +:+ k) id = Some (xs, n)
       /\ counted cnt (List.filter (fun p => f (fst p) false) (g (key +:+ k) id))
            xs n) ->
  (forall k id, (k, Branch id) ∈ l -> f (key +:+ k) true = false ->
     List.filter (fun p => f (fst p) false) (g (key +:+ k) id) = []) ->
  forall count,
  exists ys n,
    loop_edges nested f key l count = Some (ys, n)
    /\ counted count (List.filter (fun p => f (fst p) false) (l ≫= below g key))
         ys n.
Proof.
  induction l as [|[k v] l IH]; intros Hn Hp count.
  - exists [], count. split; [done|]. apply counted_nil.
  - assert (forall cnt, exists ys n,
              loop_edges nested f key l cnt = Some (ys, n)
              /\ counted cnt
                   (List.filter (fun p => f (fst p) false) (l ≫= below g key))
                   ys n) as IH'.
    { apply IH; [intros; apply Hn; [by right|done]
                |intros; apply Hp; [by right|done]]. }
    clear IH. rewrite bind_cons, List.filter_app. simpl loop_edges.
    destruct v as [id|enc].
    + change (below g key (k, Branch id)) with (g (key +:+ k) id).
      destruct (f (key +:+ k) true) eqn:Hf; simpl.
      * destruct (Hn k id count) as (xs & n & -> & Hxs); [by left|done|].
        simpl. destruct (IH' n) as (ys & n' & -> & Hys). simpl.
        exists (xs ++ ys), n'. split; [done|]. by eapply counted_app.
      * rewrite (Hp k id) by (done || left). simpl. apply IH'.
    + change (below g key (k, Leaf enc)) with [(key +:+ k, enc)]. simpl.
      destruct (f (key +:+ k) false) eqn:Hf; simpl; [|apply IH'].
      destruct (count - 1 =? 0)%Z eqn:Hz.
      * apply Z.eqb_eq in Hz. exists [(key +:+ k, enc)], (count - 1)%Z.
        split; [done|]. right. right. right. simpl. split; [lia|].
        exists []. replace (Z.to_nat count) with 1 by lia. simpl.
        split; [done|]. split; [apply sublist_nil_l|lia].
      * apply Z.eqb_neq in Hz. destruct (IH' (count - 1)%Z) as (ys & n & -> & Hys).
        simpl. exists ((key +:+ k, enc) :: ys), n. split; [done|].
        apply (counted_app _ [(key +:+ k, enc)] [(key +:+ k, enc)] (count - 1));
          [|done].
        apply counted_single. lia.
Qed.

Lemma loop_walk_counted c rk sort f :
  ranked rk c -> conservative f ->
  forall fuel id key count, rk id < fuel ->
  exists ys n,
    _loop fuel c sort f count key id = Some (ys, n)
    /\ counted count
         (List.filter (fun p => f (fst p) false) (walk fuel c sort key id)) ys n.
Proof.
  intros Hr Hf. induction fuel as [|fuel IH]; intros id key count Hfuel; [lia|].
  simpl _loop. destruct (count =? 0)%Z eqn:Hz.
  - apply Z.eqb_eq in Hz. subst count. exists [], 0%Z. split; [done|].
    right. left. split; [done|]. split; [apply sublist_nil_l|done].
  - rewrite walk_S. apply loop_edges_counted.
    + intros k t cnt Hin _. apply IH.
      apply elem_of_visit_order, load_refs, Hr in Hin. lia.
    + intros k t Hin Hprune. apply filter_none. intros p Hp.
      apply (walk_keys c rk sort Hr) in Hp as (s & ->).
      * by apply Hf.
      * apply elem_of_visit_order, load_refs, Hr in Hin. lia.
Qed.

Lemma loop_edges_mono nested1 nested2 f key (l : list edge) :
  (forall cnt k id res, nested1 cnt k id = Some res ->
                        nested2 cnt k id = Some res) ->
  forall count res,
  loop_edges nested1 f key l count = Some res ->
  loop_edges nested2 f key l count = Some res.
Proof.
  intros Hn. induction l as [|[k v] l IH]; intros count res; simpl; [done|].
  destruct v as [id|enc].
  - destruct (f (key +:+ k) true); simpl; [|apply IH].
    destruct (nested1 count (key +:+ k) id) as [[xs n]|] eqn:H1; [|done].
    rewrite (Hn _ _ _ _ H1). simpl.
    destruct (loop_edges nested1 f key l n) as [[ys n']|] eqn:H2; [|done].
    by rewrite (IH _ _ H2).
  - destruct (f (key +:+ k) false); simpl; [|apply IH].
    destruct (count - 1 =? 0)%Z; [done|].
    destruct (loop_edges nested1 f key l (count - 1)) as [[ys n']|] eqn:H2;
      [|done].
    by rewrite (IH _ _ H2).
Qed.

Lemma _loop_mono c sort f :
  forall fuel fuel' count key id res,
  fuel <= fuel' -> _loop fuel c sort f count key id = Some res ->
  _loop fuel' c sort f count key id = Some res.
Proof.
  induction fuel as [|fuel IH]; intros fuel' count key id res Hle H; [done|].
  destruct fuel' as [|fuel']; [lia|]. simpl in *.
  destruct (count =? 0)%Z; [done|].
  eapply loop_edges_mono; [|exact H]. intros cnt k t res'. apply IH. lia.
Qed.




(** ** The bounds [escape] keeps *)

Lemma literal_value_escape d body t :
  literal_value (String backslash (String d body)) = Some t ->
  exists x t', t = String x t' /\ literal_value body = Some t'.
Proof.
  simpl. rewrite ?Ascii.eqb_refl.
  repeat match goal with
         | |- context [if ?b then _ else _] => destruct b
         end;
    try done;
    destruct (literal_value body) as [t'|]; simpl; try done;
    intros [= <-]; eauto.
Qed.

Lemma literal_value_plain c body :
  Ascii.eqb c backslash = false -> Ascii.eqb c quote_char = false ->
  plain_char c = true ->
  literal_value (String c body) = String c <$> literal_value body.
Proof.
  intros Hb Hq Hp. simpl. rewrite Hb, Hq. simpl.
  unfold plain_char in Hp. rewrite Hb in Hp. simpl in Hp.
  apply negb_true_iff, orb_false_elim in Hp as [-> ->]. done.
Qed.

Lemma literal_value_quote body :
  literal_value (String backslash (String quote_char body))
  = String quote_char <$> literal_value body.
Proof. reflexivity. Qed.

Lemma literal_value_break c body :
  Ascii.eqb c backslash = false -> plain_char c = false ->
  literal_value (String c body) = None.
Proof.
  intros Hb Hp. simpl. rewrite Hb.
  unfold plain_char in Hp. rewrite Hb in Hp. simpl in Hp.
  apply negb_false_iff in Hp.
  destruct (Ascii.eqb c quote_char); [done|]. simpl. by rewrite Hp.
Qed.

(** The literal never denotes a string longer than the bound. *)
Lemma escape_length :
  forall n s t, String.length s <= n ->
  literal_value (escape_quotes s) = Some t -> String.length t <= String.length s.
Proof.
  induction n as [|n IH]; intros s t Hlen.
  { destruct s; [|simpl in Hlen; lia]. simpl. by intros [= <-]. }
  destruct s as [|c rest]; [simpl; by intros [= <-]|].
  simpl in Hlen. simpl escape_quotes.
  destruct (Ascii.eqb c quote_char) eqn:Hq.
  - rewrite literal_value_quote.
    destruct (literal_value (escape_quotes rest)) as [t'|] eqn:Ht'; [|done].
    simpl. intros [= <-]. simpl. apply IH in Ht'; lia.
  - destruct (Ascii.eqb c backslash) eqn:Hb.
    + apply Ascii.eqb_eq in Hb. subst c.
      destruct rest as [|d rest']; [done|]. simpl escape_quotes.
      destruct (Ascii.eqb d quote_char) eqn:Hdq.
      * intros (x & t' & -> & Ht')%literal_value_escape.
        simpl in Ht'. done.
      * intros (x & t' & -> & Ht')%literal_value_escape.
        simpl in *. apply IH in Ht'; lia.
    + destruct (plain_char c) eqn:Hp.
      * rewrite literal_value_plain by done.
        destruct (literal_value (escape_quotes rest)) as [t'|] eqn:Ht'; [|done].
        simpl. intros [= <-]. simpl. apply IH in Ht'; lia.
      * by rewrite literal_value_break.
Qed.

Lemma escape_plain value : plain value = true -> escape value = Some value.
Proof.
  unfold escape. induction value as [|c rest IH]; [done|]. simpl.
  intros [Hp Hrest]%andb_prop. specialize (IH Hrest).
  assert (Ascii.eqb c backslash = false) as Hb.
  { unfold plain_char in Hp. apply negb_true_iff in Hp.
    by apply orb_false_elim in Hp as [[? _]%orb_false_elim _]. }
  destruct (Ascii.eqb c quote_char) eqn:Hq.
  + apply Ascii.eqb_eq in Hq. subst c. rewrite literal_value_quote, IH. done.
  + rewrite literal_value_plain, IH by done. done.
Qed.

(** X8. [escape] builds a literal that reads back as the bound it was
    given exactly when the bound holds no backslash and no line break. *)
Theorem escape_reads_back value :
  escape value = Some value <-> plain value = true.
Proof.
  split; [unfold escape|].
  - induction value as [|c rest IH]; [done|]. simpl escape_quotes.
    destruct (Ascii.eqb c quote_char) eqn:Hq.
    + rewrite literal_value_quote.
      destruct (literal_value (escape_quotes rest)) as [t'|] eqn:Ht'; [|done].
      simpl. intros [= _ ->]. apply Ascii.eqb_eq in Hq. subst c.
      simpl. by apply IH.
    + destruct (Ascii.eqb c backslash) eqn:Hb.
      * apply Ascii.eqb_eq in Hb. subst c.
        destruct rest as [|d rest']; [done|]. simpl escape_quotes.
        destruct (Ascii.eqb d quote_char) eqn:Hdq.
        -- intros (x & t' & _ & Ht')%literal_value_escape.
           simpl in Ht'. done.
        -- intros (x & t' & [= _ <-] & Ht')%literal_value_escape.
           apply (escape_length _ _ _ (le_n _)) in Ht'. simpl in Ht'. lia.
      * destruct (plain_char c) eqn:Hp.
        -- rewrite literal_value_plain by done.
           destruct (literal_value (escape_quotes rest)) as [t'|] eqn:Ht'; [|done].
           simpl. intros [= ->]. simpl. rewrite Hp. by apply IH.
        -- by rewrite literal_value_break.
  - apply escape_plain.
Qed.


(** ** [nodeSort], the allocator and the shape of the store *)

Lemma str_lt_total (a b : string) :
  JS.lt a b = false -> a <> b -> JS.lt b a = true.
Proof.
  unfold JS.lt. intros Hab Hne.
  destruct (String.compare a b) eqn:Hc; [|done|].
  - by apply String.compare_eq_iff in Hc.
  - apply compare_Gt_Lt in Hc. by rewrite Hc.
Qed.

Lemma sort_insert_lt (e : edge) (node : list edge) :
  StronglySorted (fun a b : edge => JS.lt (fst a) (fst b) = true) node ->
  (forall x, x ∈ node -> fst x <> fst e) ->
  StronglySorted (fun a b : edge => JS.lt (fst a) (fst b) = true)
    (sort_insert e node).
Proof.
  intros Hs. induction Hs as [|x rest Hs IH Hx]; intros Hne; simpl.
  - constructor; [constructor|constructor].
  - unfold JS.gt. destruct (JS.lt (fst x) (fst e)) eqn:Hlt.
    + constructor.
      * apply IH. intros y Hy. apply Hne. by right.
      * apply Forall_forall. intros y Hy.
        rewrite sort_insert_perm in Hy. apply elem_of_cons in Hy as [->|Hy]; [done|].
        rewrite Forall_forall in Hx. by apply Hx.
    + assert (JS.lt (fst e) (fst x) = true) as Hex.
      { apply str_lt_total; [done|]. apply Hne. by left. }
      constructor; [by constructor|].
      constructor; [done|]. apply Forall_forall. intros y Hy.
      rewrite Forall_forall in Hx. eapply str_lt_trans; [done|]. by apply Hx.
Qed.

(** X11. [nodeSort] on edges with labels that are pairwise different
    returns the edges it was given, ascending by label; it is the one such
    arrangement, so that any procedure [Array.prototype.sort] may follow
    gives the same array. *)
Theorem nodeSort_sorts (node : list edge) :
  NoDup node.*1 ->
  nodeSort node ≡ₚ node
  /\ StronglySorted (fun a b : edge => JS.lt (fst a) (fst b) = true)
       (nodeSort node)
  /\ forall l : list edge,
       l ≡ₚ node ->
       StronglySorted (fun a b : edge => JS.lt (fst a) (fst b) = true) l ->
       l = nodeSort node.
Proof.
  intros Hnd.
  assert (StronglySorted (fun a b : edge => JS.lt (fst a) (fst b) = true)
            (nodeSort node)) as Hsorted.
  { induction node as [|e node IH]; [constructor|].
    apply NoDup_cons in Hnd as [Hnotin Hnd]. simpl.
    apply sort_insert_lt; [by apply IH|].
    intros x Hx Heq. apply Hnotin. rewrite <- Heq.
    apply (list_elem_of_fmap_2 fst). by apply elem_of_nodeSort_1. }
  split; [apply nodeSort_perm|]. split; [done|].
  intros l Hperm Hl.
  eapply (StronglySorted_unique_strong _ l (nodeSort node)); [|done|done|].
  - intros x1 x2 _ _ H12 H21. simpl in *.
    pose proof (str_lt_trans _ _ _ H12 H21) as Hirr.
    by rewrite str_lt_irrefl in Hirr.
  - by rewrite nodeSort_perm.
Qed.

Lemma nodeSort_sorts_witness :
  NoDup [("b", Leaf "1"); ("", Leaf "2"); ("a", Branch "0")].*1
  /\ nodeSort [("b", Leaf "1"); ("", Leaf "2"); ("a", Branch "0")]
     ≡ₚ [("b", Leaf "1"); ("", Leaf "2"); ("a", Branch "0")]
  /\ StronglySorted (fun a b : edge => JS.lt (fst a) (fst b) = true)
       (nodeSort [("b", Leaf "1"); ("", Leaf "2"); ("a", Branch "0")])
  /\ forall l : list edge,
       l ≡ₚ [("b", Leaf "1"); ("", Leaf "2"); ("a", Branch "0")] ->
       StronglySorted (fun a b : edge => JS.lt (fst a) (fst b) = true) l ->
       l = nodeSort [("b", Leaf "1"); ("", Leaf "2"); ("a", Branch "0")].
Proof.
  assert (NoDup [("b", Leaf "1"); ("", Leaf "2"); ("a", Branch "0")].*1) as Hnd.
  { apply (bool_decide_unpack _). vm_compute. exact I. }
  split; [exact Hnd|].
  exact (nodeSort_sorts [("b", Leaf "1"); ("", Leaf "2"); ("a", Branch "0")] Hnd).
Defined.



(** X10. [nextId] in a state the public calls lead to, as long as the id
    counter is below [2^53] (so that [++] still changes it): the id it
    hands out is the id of the root, which [del] had put into the recycle
    set, or an id under which nothing is stored and to which no edge
    leads; the store is left as it was. *)
Theorem nextId_fresh r id r' :
  reachable r -> counter_exact r -> nextId r = (id, r') ->
  cells r' = cells r
  /\ ((id = NODE_ROOT /\ NODE_ROOT ∈ m_recycleIds r)
      \/ (id <> NODE_ROOT /\ cells r !! id = None
          /\ forall a l, ~ refs (cells r) a l id)).
Proof.
  intros ((Hno & Hcl & Hu) & _ & Ha)%reachable_Inv _ Hnext.
  destruct (nextId_spec _ _ _ Ha Hnext) as (Hc & _ & _ & Hnew & _).
  split; [done|].
  destruct (decide (id = NODE_ROOT)) as [->|Hne].
  - left. split; [done|].
    destruct (decide (NODE_ROOT ∈ m_recycleIds r)) as [?|Hnot]; [done|].
    by destruct (nextId_not_root _ _ _ Hnot Hnext).
  - right. destruct Hnew as [?|Hnone]; [done|].
    split; [done|]. split; [done|].
    intros a l Href. pose proof (Hcl _ _ _ Href Hne) as [? Hsome].
    congruence.
Qed.

Lemma nextId_fresh_witness :
  reachable sample /\ counter_exact sample
  /\ nextId sample = (fst (nextId sample), snd (nextId sample))
  /\ cells (snd (nextId sample)) = cells sample
  /\ ((fst (nextId sample) = NODE_ROOT /\ NODE_ROOT ∈ m_recycleIds sample)
      \/ (fst (nextId sample) <> NODE_ROOT
          /\ cells sample !! fst (nextId sample) = None
          /\ forall a l, ~ refs (cells sample) a l (fst (nextId sample)))).
Proof.
  assert (nextId sample = (fst (nextId sample), snd (nextId sample))) as Heq
    by apply surjective_pairing.
  assert (counter_exact sample) as Hex by (vm_compute; reflexivity).
  split; [exact sample_reachable|]. split; [exact Hex|]. split; [exact Heq|].
  exact (nextId_fresh sample _ _ sample_reachable Hex Heq).
Defined.

Lemma bounds_safe_gte_cow : bounds_safe (gte_query "cow").
Proof.
  unfold bounds_safe, safe_bound. simpl.
  repeat split; try done. by intros x [= <-].
Qed.



(** ** The store calls of [set] and [del] *)

Lemma nextId_fields r new r1 :
  nextId r = (new, r1) ->
  (journal r1 = journal r
   \/ exists k, journal r1 = journal r ++ [StoreSetCounter k])
  /\ (synced r -> synced r1).
Proof.
  unfold nextId. destruct (m_recycleIds r) as [|id rest]; intros [= <- <-]; simpl.
  - split; [right; by eexists|]. intros _ n. simpl. by intros [= <-].
  - split; [by left|]. done.
Qed.

Lemma set_loop_fields fuel val r :
  forall old node key r',
  set_loop fuel val old node key r = Some r' ->
  (exists ws, journal r' = journal r ++ ws /\ set_footprint ws)
  /\ (synced r -> synced r').
Proof.
  induction fuel as [|fuel IH]; intros old node key r' Hset; [done|].
  simpl in Hset.
  assert (forall id node', 
            (exists ws, journal (store_set id node' r) = journal r ++ ws
                        /\ set_footprint ws)
            /\ (synced r -> synced (store_set id node' r))) as Hone.
  { intros id node'. split; [|done].
    exists [StoreSet id node']. split; [done|]. left. by eexists _, _. }
  destruct (scan_head 0 node key) as [[[i k] v]|];
    [|inversion Hset; subst; apply Hone].
  destruct (common k key) as [[kNew kLeft] key'].
  destruct (nextId r) as [new r1] eqn:Hnext.
  destruct (nextId_fields _ _ _ Hnext) as [Hj Hsync].
  assert (forall n1 n2,
            (exists ws,
               journal (store_set new n2 (store_set old n1 r1)) = journal r ++ ws
               /\ set_footprint ws)
            /\ (synced r -> synced (store_set new n2 (store_set old n1 r1))))
    as Hsplit.
  { intros n1 n2. split; [|done]. simpl.
    destruct Hj as [->|[k0 ->]].
    - exists [StoreSet old n1; StoreSet new n2].
      split; [by rewrite <- app_assoc|]. right. left. by eexists _, _, _, _.
    - exists [StoreSetCounter k0; StoreSet old n1; StoreSet new n2].
      split; [by rewrite <- !app_assoc|]. right. right. by eexists _, _, _, _, _. }
  destruct ((negb (JS.empty key') && JS.empty kLeft) || String.eqb k kNew);
    [|inversion Hset; subst; apply Hsplit].
  destruct v as [id|enc]; [by eapply IH|].
  destruct (String.eqb key' kLeft && JS.empty kLeft);
    inversion Hset; subst; [apply Hone|apply Hsplit].
Qed.

Lemma del_loop_fields fuel r :
  forall cur node frames key b r',
  del_loop fuel cur node frames key r = Some (b, r') ->
  (exists ws, journal r' = journal r ++ ws /\ del_footprint ws)
  /\ counter r' = counter r /\ m_id r' = m_id r.
Proof.
  assert (forall ws, del_footprint ws ->
            exists ws', journal r ++ ws = journal r ++ ws' /\ del_footprint ws')
    as Hex by (intros ws H; by exists ws).
  assert (forall id n, counter (in_place id n r) = counter r
                       /\ m_id (in_place id n r) = m_id r
                       /\ journal (in_place id n r) = journal r) as Hip.
  { intros id n. unfold in_place. by destruct (shares r). }
  induction fuel as [|fuel IH]; intros cur node frames key b r' Hdel; [done|].
  simpl in Hdel.
  assert ((exists ws, journal r = journal r ++ ws /\ del_footprint ws)
          /\ counter r = counter r /\ m_id r = m_id r) as Hnone.
  { split; [|done]. exists []. split; [by rewrite app_nil_r|by left]. }
  destruct (scan 0 node key) as [[[i n] v]|]; [|by inversion Hdel; subst].
  destruct v as [id|enc].
  { destruct (cells r !! id) as [node'|]; [by eapply IH|by inversion Hdel; subst]. }
  destruct (Hip cur (splice_out i node)) as (Hc1 & Hm1 & Hj1).
  destruct (splice_out i node) as [|[l t] [|e2 rest]] eqn:Hsp.
  - destruct (pop frames) as [[[[[curI ?] cur'] ?] ?]|].
    + destruct (_ !! cur') as [node2|]; inversion Hdel; subst; simpl;
        rewrite Hc1, Hm1, Hj1; (split; [|done]).
      * exists [StoreDel cur'; StoreSet cur' (splice_out curI node2)].
        split; [by rewrite <- app_assoc|]. right. right. right.
        by eexists _, _, _.
      * exists [StoreDel cur']. split; [done|]. right. right. left. by eexists.
    + inversion Hdel; subst. by rewrite Hc1, Hm1, Hj1.
  - destruct (pop frames) as [[[[[prevI prevN] ?] ?] rest']|].
    + destruct (pop rest') as [[[[[? ?] P] node2] ?]|];
        inversion Hdel; subst; simpl; rewrite Hc1, Hm1, Hj1; (split; [|done]).
      * eexists [StoreDel cur; StoreSet P _].
        split; [by rewrite <- app_assoc|]. right. right. right.
        by eexists _, _, _.
      * eexists [StoreDel cur; StoreSet NODE_ROOT _].
        split; [by rewrite <- app_assoc|]. right. right. right.
        by eexists _, _, _.
    + inversion Hdel; subst; simpl. rewrite Hc1, Hm1, Hj1. split; [|done].
      exists [StoreDel cur]. split; [done|]. right. right. left. by eexists.
  - inversion Hdel; subst; simpl. rewrite Hc1, Hm1, Hj1. split; [|done].
    eexists [StoreSet cur _]. split; [done|]. right. left. by eexists _, _.
Qed.

(** X12. One [set] makes one [store.set], or two of them, the two
    preceded by a [store.set] of the id counter when the id of the new
    node was not taken from the recycle set; it never calls [store.del]. *)
Theorem set_store_calls {V : Type} (encode : V -> string) fuel r key value r' :
  set encode fuel r key value = Some r' ->
  exists ws, journal r' = journal r ++ ws /\ set_footprint ws.
Proof. intros Hset. by eapply set_loop_fields. Qed.

Lemma del_ids fuel r key b r' :
  del fuel r key = Some (b, r') -> counter r' = counter r /\ m_id r' = m_id r.
Proof.
  unfold del. destruct (cells r !! NODE_ROOT) as [node|].
  - intros H. by destruct (del_loop_fields _ _ _ _ _ _ _ _ H) as (_ & ? & ?).
  - by intros [= <- <-].
Qed.

(** X13. One [del] makes no store call, one [store.set], one [store.del],
    or a [store.del] followed by a [store.set]; it leaves the id counter
    as it was. *)
Theorem del_store_calls fuel r key b r' :
  del fuel r key = Some (b, r') ->
  (exists ws, journal r' = journal r ++ ws /\ del_footprint ws)
  /\ counter r' = counter r /\ m_id r' = m_id r.
Proof.
  unfold del. destruct (cells r !! NODE_ROOT) as [node|].
  - apply del_loop_fields.
  - intros [= <- <-]. split; [|done]. exists [].
    split; [by rewrite app_nil_r|by left].
Qed.


Lemma set_store_calls_witness :
  set jsonEncode 9 sample "comma" (JStr "x")
  = Some (default sample (set jsonEncode 9 sample "comma" (JStr "x")))
  /\ exists ws,
       journal (default sample (set jsonEncode 9 sample "comma" (JStr "x")))
       = journal sample ++ ws
       /\ set_footprint ws.
Proof.
  assert (set jsonEncode 9 sample "comma" (JStr "x")
          = Some (default sample (set jsonEncode 9 sample "comma" (JStr "x"))))
    as Heq by (vm_compute; reflexivity).
  split; [exact Heq|].
  exact (set_store_calls jsonEncode 9 sample "comma" (JStr "x") _ Heq).
Defined.

Lemma del_store_calls_witness :
  del 9 sample "cow"
  = Some (true, default sample (snd <$> del 9 sample "cow"))
  /\ (exists ws,
        journal (default sample (snd <$> del 9 sample "cow"))
        = journal sample ++ ws
        /\ del_footprint ws)
  /\ counter (default sample (snd <$> del 9 sample "cow")) = counter sample
  /\ m_id (default sample (snd <$> del 9 sample "cow")) = m_id sample.
Proof.
  assert (del 9 sample "cow"
          = Some (true, default sample (snd <$> del 9 sample "cow")))
    as Heq by (vm_compute; reflexivity).
  split; [exact Heq|].
  exact (del_store_calls 9 sample "cow" true _ Heq).
Defined.

(** ** A new [Radix] on a store in use *)

Lemma alloc_ok_new known r : synced r -> alloc_ok r -> alloc_ok (Radix_new known r).
Proof.
  intros Hsync (_ & _ & Hnext & _). unfold alloc_ok, Radix_new. simpl.
  assert (next_ordinal (Radix_new known r) = next_ordinal r) as Hord.
  { unfold next_ordinal. simpl. destruct known; [done|].
    destruct (m_id r) as [n|] eqn:Hm; [|done]. by rewrite (Hsync n Hm). }
  unfold Radix_new in Hord. simpl in Hord. rewrite Hord.
  split; [constructor|]. split; [by intros p ?%elem_of_nil|].
  split; [done|]. by intros p n ?%elem_of_nil.
Qed.

(** Whatever sequence of [set], [del] and [new Radix(store)] has led to
    a state, the invariant of the store holds in it, and the cached next
    id is the one kept in the store. *)
Lemma opened_Inv r : opened r -> Inv r /\ synced r.
Proof.
  induction 1 as [sh|known r _ [IH Hsync]|fuel r key value r' _ [IH Hsync] Hset
                  |fuel r key b r' _ [IH Hsync] Hdel].
  - split; [apply Inv_empty|]. by intros n.
  - split.
    + destruct IH as (Hc & Hr & Ha).
      split; [done|]. split; [done|]. by apply alloc_ok_new.
    + intros n. unfold Radix_new. simpl. destruct known; [apply Hsync|done].
  - split; [by destruct (set_kept _ _ _ _ _ _ IH Hset)|].
    by eapply set_loop_fields.
  - split; [by destruct (del_kept _ _ _ _ _ IH Hdel)|].
    destruct (del_ids fuel r key b r' Hdel) as (Hc & Hm).
    intros n. rewrite Hc, Hm. apply Hsync.
Qed.

Lemma reachable_opened r : reachable r -> opened r.
Proof.
  induction 1 as [sh|fuel r key value r' _ IH Hset|fuel r key b r' _ IH Hdel].
  - constructor.
  - by eapply opened_set.
  - by eapply opened_del.
Qed.




(** ** [jsonEncode] on strings *)

Lemma unquote_unfold c text :
  unquote_9e999 0 (String c text)
  = if String.prefix (quoted "9e999") (String c text) then
      "9e999" +:+ unquote_9e999 6 text
    else if String.prefix (quoted "-9e999") (String c text) then
      "-9e999" +:+ unquote_9e999 7 text
    else String c (unquote_9e999 0 text).
Proof. reflexivity. Qed.

Lemma prefix_cons a s1 b s2 :
  String.prefix (String a s1) (String b s2)
  = if ascii_dec a b then String.prefix s1 s2 else false.
Proof. reflexivity. Qed.

Lemma quoted_cons s : quoted s = String dquote (quoted_tail s).
Proof. reflexivity. Qed.

Lemma unquote_other c text :
  c <> dquote ->
  unquote_9e999 0 (String c text) = String c (unquote_9e999 0 text).
Proof.
  intros Hc. rewrite unquote_unfold, !quoted_cons, !prefix_cons.
  destruct (ascii_dec dquote c) as [Heq|_]; [by symmetry in Heq|]. done.
Qed.

Lemma unquote_quote text :
  String.prefix (quoted_tail "9e999") text = false ->
  String.prefix (quoted_tail "-9e999") text = false ->
  unquote_9e999 0 (String dquote text) = String dquote (unquote_9e999 0 text).
Proof.
  intros H1 H2. rewrite unquote_unfold, !quoted_cons, !prefix_cons.
  destruct (ascii_dec dquote dquote) as [_|Hne]; [|done].
  by rewrite H1, H2.
Qed.

(** What [JSON.stringify] writes for one character: the character itself,
    or an escape, which starts with a backslash. *)
Lemma quote_chars_step c s t :
  quote_chars (String c s) +:+ t
  = quote_chars (String c "") +:+ (quote_chars s +:+ t).
Proof. destruct c as [[] [] [] [] [] [] [] []]; reflexivity. Qed.

Lemma escape_head c :
  (quote_chars (String c "") = String c "" /\ c <> dquote /\ c <> backslash)
  \/ exists pre, quote_chars (String c "") = String backslash pre.
Proof.
  destruct c as [[] [] [] [] [] [] [] []];
    first [ left; split; [reflexivity|split; discriminate]
          | right; eexists; reflexivity ].
Qed.

(** The pass over the text leaves the text of a character other than the
    double quote as it is. *)
Lemma unquote_escape c text :
  c <> dquote ->
  unquote_9e999 0 (quote_chars (String c "") +:+ text)
  = quote_chars (String c "") +:+ unquote_9e999 0 text.
Proof.
  intros Hc.
  destruct c as [[] [] [] [] [] [] [] []];
    try (by destruct Hc);
    match goal with
    | |- context [quote_chars ?x] =>
        let v := eval vm_compute in (quote_chars x) in
        change (quote_chars x) with v
    end;
    cbn [String.append];
    repeat rewrite unquote_other by discriminate;
    reflexivity.
Qed.

Lemma quoted_tail_cons c s :
  quoted_tail (String c s) = quote_chars (String c "") +:+ quoted_tail s.
Proof. apply quote_chars_step. Qed.

(** The text of a string starts with the double quote only when the
    string is empty, and with a character that is neither the double
    quote nor the backslash only when the string starts with it. *)
Lemma quoted_tail_quote s p :
  String.prefix (String dquote p) (quoted_tail s) = true -> s = "".
Proof.
  destruct s as [|c s]; [done|]. rewrite quoted_tail_cons.
  destruct (escape_head c) as [(-> & Hq & _)|[pre ->]];
    cbn [String.append]; rewrite prefix_cons.
  - destruct (ascii_dec dquote c) as [Heq|_]; [by symmetry in Heq|done].
  - by destruct (ascii_dec dquote backslash).
Qed.

Lemma quoted_tail_char a p s :
  a <> dquote -> a <> backslash ->
  String.prefix (String a p) (quoted_tail s) = true ->
  exists s', s = String a s' /\ String.prefix p (quoted_tail s') = true.
Proof.
  intros Hq Hb. destruct s as [|c s].
  - unfold quoted_tail. simpl quote_chars. cbn [String.append].
    rewrite prefix_cons. by destruct (ascii_dec a dquote).
  - rewrite quoted_tail_cons.
    destruct (escape_head c) as [(-> & _ & _)|[pre ->]];
      cbn [String.append]; rewrite prefix_cons.
    + destruct (ascii_dec a c) as [->|_]; [|done]. intros H. by exists s.
    + by destruct (ascii_dec a backslash).
Qed.

Lemma quoted_tail_9e999 s :
  String.prefix (quoted_tail "9e999") (quoted_tail s) = true -> s = "9e999".
Proof.
  change (quoted_tail "9e999")
    with (String "9" (String "e" (String "9" (String "9" (String "9"
            (String dquote "")))))).
  intros (s1 & -> & H)%quoted_tail_char; [|discriminate..].
  apply quoted_tail_char in H as (s2 & -> & H); [|discriminate..].
  apply quoted_tail_char in H as (s3 & -> & H); [|discriminate..].
  apply quoted_tail_char in H as (s4 & -> & H); [|discriminate..].
  apply quoted_tail_char in H as (s5 & -> & H); [|discriminate..].
  apply quoted_tail_quote in H. by subst.
Qed.

Lemma quoted_tail_neg_9e999 s :
  String.prefix (quoted_tail "-9e999") (quoted_tail s) = true -> s = "-9e999".
Proof.
  change (quoted_tail "-9e999")
    with (String "-" (quoted_tail "9e999")).
  intros (s1 & -> & H)%quoted_tail_char; [|discriminate..].
  apply quoted_tail_9e999 in H. by subst.
Qed.

Lemma unquote_quoted_tail s :
  (forall p, s <> p +:+ "9e999") ->
  unquote_9e999 0 (quoted_tail s) = quoted_tail s.
Proof.
  induction s as [|c s IH]; intros Hend; [reflexivity|].
  assert (forall p, s <> p +:+ "9e999") as Hend'.
  { intros p ->. by apply (Hend (String c p)). }
  rewrite quoted_tail_cons.
  destruct (decide (c = dquote)) as [->|Hc].
  - change (quote_chars (String dquote ""))
      with (String backslash (String dquote "")).
    cbn [String.append]. rewrite unquote_other by discriminate.
    rewrite unquote_quote, IH; [done|done| |].
    + destruct (String.prefix (quoted_tail "9e999") (quoted_tail s)) eqn:H;
        [|done].
      apply quoted_tail_9e999 in H. subst s.
      by destruct (Hend (String dquote "")).
    + destruct (String.prefix (quoted_tail "-9e999") (quoted_tail s)) eqn:H;
        [|done].
      apply quoted_tail_neg_9e999 in H. subst s.
      by destruct (Hend (String dquote (String "-" ""))).
  - rewrite unquote_escape by done. by rewrite IH.
Qed.

(** X15. [jsonEncode] of a string that does not end in [9e999] is the
    text [JSON.stringify] writes for it, the string between double quotes
    with its characters escaped: the pass that takes the quotes off the
    encoded infinities leaves it alone. *)
Theorem jsonEncode_string s :
  (forall p, s <> p +:+ "9e999") -> jsonEncode (JStr s) = quoted s.
Proof.
  intros Hend. unfold jsonEncode.
  change (stringify (JStr s)) with (quoted s).
  rewrite quoted_cons, unquote_quote, unquote_quoted_tail; [done|done| |].
  - destruct (String.prefix (quoted_tail "9e999") (quoted_tail s)) eqn:H;
      [|done].
    apply quoted_tail_9e999 in H. subst s. by destruct (Hend "").
  - destruct (String.prefix (quoted_tail "-9e999") (quoted_tail s)) eqn:H;
      [|done].
    apply quoted_tail_neg_9e999 in H. subst s. by destruct (Hend "-").
Qed.

Lemma jsonEncode_string_witness :
  (forall p, "cow" <> p +:+ "9e999") /\ jsonEncode (JStr "cow") = quoted "cow".
Proof.
  assert (forall p, "cow" <> p +:+ "9e999") as Hend.
  { intros [|a [|b [|c [|d p]]]] H; simpl in H; discriminate H. }
  split; [exact Hend|]. exact (jsonEncode_string "cow" Hend).
Defined.


(** ** The keys [del] keeps *)

Lemma elem_of_splice_in_iff (i : nat) (e x : edge) (node : list edge) :
  i < length node ->
  x ∈ splice_in i e node <-> x = e \/ x ∈ splice_out i node.
Proof.
  intros Hi. unfold splice_in, splice_out.
  rewrite !elem_of_app, elem_of_cons. tauto.
Qed.

(** The keys of a node whose edge [(n, Branch cur)] leads to the part of
    the store that has changed: a key other than [n +:+ key] is found as
    before when this holds below, for the keys other than [key]. *)
Lemma others_lift c c' rk P pnode n cur key :
  cells_ok c -> ranked rk c -> rk P <= rk NODE_ROOT ->
  c !! P = Some pnode -> (n, Branch cur) ∈ pnode ->
  c' !! P = c !! P ->
  (forall x, c' !! x = c !! x \/ desc c cur x) ->
  (forall s e, s <> key ->
     finds c' (load c' cur) s e <-> finds c (load c cur) s e) ->
  forall k e, k <> n +:+ key ->
    finds c' (load c' P) k e <-> finds c (load c P) k e.
Proof.
  intros (Hno & Hcl & Hu) Hr HrkP HP Hin HsP Hconf Hbelow k e Hk.
  assert (refs c P n cur) as R by by exists pnode.
  pose proof (Hr _ _ _ R) as Rlt.
  assert (cur <> NODE_ROOT) as Hne by (intros ->; lia).
  assert (load c' P = pnode) as -> by (unfold load; by rewrite HsP, HP).
  assert (load c P = pnode) as -> by (unfold load; by rewrite HP).
  assert (forall ed, ed ∈ pnode -> via c' ed k e <-> via c ed k e) as Hvia.
  { intros [l w] Hed. destruct (decide ((l, w) = (n, Branch cur))) as [[= -> ->]|Hned].
    - unfold via. simpl. split; intros (s & -> & Hf); exists s; (split; [done|]).
      + apply Hbelow; [|done]. intros ->. by apply Hk.
      + apply Hbelow; [|done]. intros ->. by apply Hk.
    - apply via_agree. simpl. intros t -> x Hx.
      assert (refs c P l t) as R' by by exists pnode.
      destruct (Hconf x) as [?|Hd]; [done|]. exfalso.
      eapply (desc_disjoint c rk P n l cur t x); try done.
      intros <-. apply Hned. f_equal.
      by destruct (Hu P n P l cur Hne R R') as [_ ->]. }
  rewrite !finds_via. split; intros (ed & Hed & Hv); exists ed;
    (split; [done|]); by apply Hvia.
Qed.

(** A leaf edge taken out of a node that stays: the keys other than its
    label are found as before. *)
Lemma splice_out_others c rk cur (node : list edge) j m enc :
  closed c -> ranked rk c -> rk cur <= rk NODE_ROOT ->
  c !! cur = Some node -> node_ok node -> node !! j = Some (m, Leaf enc) ->
  let c' := <[cur := splice_out j node]> c in
  forall s e, s <> m ->
    finds c' (load c' cur) s e <-> finds c (load c cur) s e.
Proof.
  intros Hcl Hr Hrk Hcur Hok Hj c' s e Hs.
  assert (load c' cur = splice_out j node) as ->.
  { unfold load, c'. by rewrite lookup_insert_eq. }
  assert (load c cur = node) as -> by (unfold load; by rewrite Hcur).
  assert (forall ed, ed ∈ node -> via c' ed s e <-> via c ed s e) as Hvia.
  { intros [l w] Hed. apply via_agree. simpl. intros t -> x Hx.
    destruct (below_child c rk cur l t x) as [Hxc _]; try done.
    { by exists node. }
    unfold c'. by rewrite lookup_insert_ne. }
  rewrite !finds_via. split; intros (ed & Hed & Hv).
  - assert (ed ∈ node) as Hin.
    { eapply elem_of_sublist; [done|apply splice_out_sublist]. }
    exists ed. split; [done|]. by apply Hvia.
  - destruct (proj1 (elem_of_splice j node (m, Leaf enc) ed Hj) Hed)
      as [Hed'| ->].
    + exists ed. split; [done|]. by apply Hvia.
    + by destruct Hv as [-> _].
Qed.

Lemma del_loop_others r rk :
  cells_ok (cells r) -> ranked rk (cells r) ->
  forall fuel cur node frames key P pnode i n fs b r' ws,
  cells r !! cur = Some node -> rk P <= rk NODE_ROOT ->
  cells r !! P = Some pnode -> pnode !! i = Some (n, Branch cur) ->
  frames = fs ++ [(i, n, cur, node)] ->
  (fs = [] /\ P = NODE_ROOT) \/ (exists fs' i' n', fs = fs' ++ [(i', n', P, pnode)]) ->
  has_loop fuel (cells r) node key = Some true ->
  del_loop fuel cur node frames key r = Some (b, r') ->
  journal r' = journal r ++ ws -> del_in_place ws ->
  forall k e, k <> n +:+ key ->
    finds (cells r') (load (cells r') P) k e
    <-> finds (cells r) (load (cells r) P) k e.
Proof.
  intros Hc Hr. pose proof Hc as (Hno & Hcl & Hu).
  induction fuel as [|fuel IH];
    intros cur node frames key P pnode i n fs b r' ws Hcur HrkP HP Hi Hframes Hfs
      Hhas Hdel Hj Hws; [done|].
  pose proof Hdel as Hdel0. pose proof Hhas as Hhas0.
  simpl in Hdel, Hhas.
  assert ((n, Branch cur) ∈ pnode) as HinP by by eapply list_elem_of_lookup_2.
  assert (refs (cells r) P n cur) as HPcur by by exists pnode.
  pose proof (Hr _ _ _ HPcur) as Hlt.
  assert (cur <> NODE_ROOT) as Hne by (intros ->; lia).
  assert (cur <> P) as HneP by (intros ->; lia).
  destruct (Hno _ _ HP) as [HokP _].
  destruct (Hno _ _ Hcur) as [Hok Hlen]. specialize (Hlen Hne).
  destruct (scan 0 node key) as [[[j m] v]|] eqn:Hscan; [|done].
  apply scan_Some in Hscan as (_ & Hjn & _ & Hkey).
  replace (j - 0) with j in Hjn by lia.
  set (key' := JS.drop (String.length m) key) in *.
  assert ((m, v) ∈ node) as Hin by by eapply list_elem_of_lookup_2.
  destruct v as [id|enc].
  - simpl in Hhas. rewrite andb_false_r in Hhas.
    destruct (cells r !! id) as [node'|] eqn:Hid.
    2: { unfold load in Hhas. rewrite Hid in Hhas. simpl in Hhas.
         by apply has_loop_nil in Hhas. }
    assert (load (cells r) id = node') as Hlid by (unfold load; by rewrite Hid).
    rewrite Hlid in Hhas.
    assert (rk cur <= rk NODE_ROOT) as Hrkc by lia.
    assert (frames ++ [(j, m, id, node')] = frames ++ [(j, m, id, node')]) as Hfr'
      by done.
    assert ((frames = [] /\ cur = NODE_ROOT)
            \/ (exists fs' i' n', frames = fs' ++ [(i', n', cur, node)])) as Hfs'.
    { right. subst frames. by exists fs, i, n. }
    destruct (del_loop_removed r rk Hc Hr fuel id node' _ key' cur node j m
                frames b r' Hid Hrkc Hcur Hjn Hfr' Hfs' Hhas Hdel)
      as (_ & _ & Hconf).
    pose proof (IH id node' _ key' cur node j m frames b r' ws Hid Hrkc Hcur Hjn
                  Hfr' Hfs' Hhas Hdel Hj Hws) as Hbelow.
    rewrite Hkey.
    apply (others_lift (cells r) (cells r') rk P pnode n cur (m +:+ key'));
      try done.
    destruct (Hconf P) as [?|Hd]; [done|].
    eapply desc_rank in Hd; [|done]. lia.
  - simpl in Hhas. rewrite andb_true_r in Hhas.
    destruct (JS.empty key') eqn:Hempty.
    2: { by apply has_loop_nil in Hhas. }
    apply empty_true in Hempty. rewrite Hempty, str_append_nil_r in Hkey.
    subst key. clear Hhas.
    pose proof (length_splice_out _ _ _ Hjn) as Hl1.
    destruct (splice_out j node) as [|[l t] [|e2 rest]] eqn:Hsp.
    + simpl in Hl1. lia.
    + subst frames. rewrite pop_snoc in Hdel.
      assert ((l, t) ∈ node /\ hcode l <> hcode m) as [Hlt' Hlm].
      { eapply (elem_of_splice_out j node m (Leaf enc) (l, t)); [by destruct Hok|done|].
        rewrite Hsp. left. }
      assert (forall ed, ed ∈ node -> ed = (m, Leaf enc) \/ ed = (l, t)) as Hnode.
      { intros ed Hed.
        destruct (proj1 (elem_of_splice j node (m, Leaf enc) ed Hjn) Hed)
          as [Hed'|?]; [|by left].
        rewrite Hsp in Hed'. apply list_elem_of_singleton in Hed'. by right. }
      destruct Hfs as [[-> ->]|(fs' & i' & n' & ->)].
      * (* the entry of the root is missing: the root is written from an
           empty array *)
        rewrite pop_nil in Hdel. inversion Hdel; subst b r'.
        destruct (collapse_fields cur [(l, t)] NODE_ROOT
                    (splice_in i (n +:+ l, t) []) r) as (_ & _ & _ & Hj' & _).
        rewrite Hj' in Hj. apply app_inv_head in Hj. subst ws.
        destruct Hws as [(? & ? & [=])|(? & ? & ? & [= _ <- _] & HQ)]. done.
      * rewrite pop_snoc in Hdel. inversion Hdel; subst b r'.
        destruct (collapse_fields cur [(l, t)] P
                    (splice_in i (n +:+ l, t) pnode) r) as (Hcells & _).
        rewrite Hcells. clear Hcells Hj Hws Hdel0 Hhas0.
        set (c' := <[P := splice_in i (n +:+ l, t) pnode]> (delete cur (cells r))).
        intros k e Hk.
        assert (load c' P = splice_in i (n +:+ l, t) pnode) as ->.
        { unfold load, c'. by rewrite lookup_insert_eq. }
        assert (load (cells r) P = pnode) as -> by (unfold load; by rewrite HP).
        assert (forall x, x <> P -> x <> cur -> c' !! x = cells r !! x) as Hsame.
        { intros x HxP Hxc. unfold c'.
          rewrite lookup_insert_ne by done. by rewrite lookup_delete_ne. }
        assert (forall ed, ed ∈ splice_out i pnode ->
                  via c' ed k e <-> via (cells r) ed k e) as Hsib.
        { intros [l' w] Hed.
          destruct (elem_of_splice_out i pnode n (Branch cur) (l', w))
            as [HedP Hh]; [by destruct HokP|done|done|].
          apply via_agree. simpl. intros t' -> x Hx.
          assert (refs (cells r) P l' t') as R' by by exists pnode.
          assert (t' <> cur) as Hnc.
          { intros ->. simpl in Hh. apply Hh.
            by destruct (Hu P n P l' cur Hne HPcur R') as [_ ->]. }
          destruct (below_child (cells r) rk P l' t' x) as [HxP _]; try done.
          apply Hsame; [done|]. intros ->.
          eapply (desc_disjoint (cells r) rk P n l' cur t' cur); try done;
            apply rtc_refl. }
        assert (forall s, via c' (l, t) s e <-> via (cells r) (l, t) s e) as Hlt2.
        { intros s. apply via_agree. simpl. intros t2 -> x Hx.
          assert (refs (cells r) cur l t2) as R2 by by exists node.
          destruct (below_child (cells r) rk cur l t2 x) as [Hxc _];
            try done; [lia|].
          apply Hsame; [|done]. intros ->.
          pose proof (Hr _ _ _ R2). eapply desc_rank in Hx; [|done]. lia. }
        assert (i < length pnode) as Hilen by by eapply lookup_lt_Some.
        rewrite !finds_via. split; intros (ed & Hed & Hv).
        -- apply elem_of_splice_in_iff in Hed as [->|Hed]; [| |done].
           ++ exists (n, Branch cur). split; [done|].
              apply via_split in Hv as (s & -> & Hv). exists s. split; [done|].
              simpl. unfold load. rewrite Hcur. simpl.
              apply finds_via. exists (l, t). split; [done|]. by apply Hlt2.
           ++ exists ed. split; [|by apply Hsib].
              eapply elem_of_sublist; [done|apply splice_out_sublist].
        -- destruct (proj1 (elem_of_splice i pnode (n, Branch cur) ed Hi) Hed)
             as [Hed'| ->].
           ++ exists ed. split; [|by apply Hsib].
              apply elem_of_splice_in_iff; [done|by right].
           ++ destruct Hv as (s & -> & Hf). simpl in Hf.
              unfold load in Hf. rewrite Hcur in Hf. simpl in Hf.
              apply finds_via in Hf as (ed & Hed' & Hv).
              destruct (Hnode ed Hed') as [-> | ->].
              ** destruct Hv as [-> _]. done.
              ** exists (n +:+ l, t). split.
                 { apply elem_of_splice_in_iff; [done|by left]. }
                 apply via_split. exists s. split; [done|]. by apply Hlt2.
    + inversion Hdel; subst b r'. rewrite <- Hsp in *.
      destruct (set_in_place_fields cur (splice_out j node) r) as (Hcells & _).
      rewrite Hcells.
      apply (others_lift (cells r) _ rk P pnode n cur m); try done.
      * by rewrite lookup_insert_ne.
      * intros x. destruct (decide (x = cur)) as [->|Hxc].
        { right. apply rtc_refl. }
        left. by rewrite lookup_insert_ne.
      * apply (splice_out_others (cells r) rk cur node j m enc); try done. lia.
Qed.

Lemma del_others fuel r rk key b r' ws :
  cells_ok (cells r) -> ranked rk (cells r) ->
  has_loop fuel (cells r) (load (cells r) NODE_ROOT) key = Some true ->
  del fuel r key = Some (b, r') ->
  journal r' = journal r ++ ws -> del_in_place ws ->
  forall k e, k <> key ->
    finds (cells r') (load (cells r') NODE_ROOT) k e
    <-> finds (cells r) (load (cells r) NODE_ROOT) k e.
Proof.
  intros Hc Hr Hhas Hdel Hj Hws. pose proof Hc as (Hno & Hcl & _).
  unfold del in Hdel. unfold load in Hhas.
  destruct (cells r !! NODE_ROOT) as [node|] eqn:Hroot; simpl in *.
  2: { by apply has_loop_nil in Hhas. }
  destruct (Hno _ _ Hroot) as [Hok _].
  destruct fuel as [|fuel]; [done|]. simpl in Hdel, Hhas.
  destruct (scan 0 node key) as [[[j m] v]|] eqn:Hscan; [|done].
  apply scan_Some in Hscan as (_ & Hjn & _ & Hkey).
  replace (j - 0) with j in Hjn by lia.
  set (key' := JS.drop (String.length m) key) in *.
  destruct v as [id|enc].
  - simpl in Hhas. rewrite andb_false_r in Hhas.
    destruct (cells r !! id) as [node'|] eqn:Hid.
    2: { unfold load in Hhas. rewrite Hid in Hhas. simpl in Hhas.
         by apply has_loop_nil in Hhas. }
    assert (load (cells r) id = node') as Hlid by (unfold load; by rewrite Hid).
    rewrite Hlid in Hhas. rewrite Hkey.
    eapply (del_loop_others r rk Hc Hr fuel id node' ([] ++ [(j, m, id, node')])
              key' NODE_ROOT node j m [] b r' ws); try done.
    by left.
  - simpl in Hhas. rewrite andb_true_r in Hhas.
    destruct (JS.empty key') eqn:Hempty.
    2: { by apply has_loop_nil in Hhas. }
    apply empty_true in Hempty. rewrite Hempty, str_append_nil_r in Hkey.
    subst key. clear Hhas.
    destruct (splice_out j node) as [|[l t] [|e2 rest]] eqn:Hsp.
    + rewrite ?pop_nil in Hdel; simpl in Hdel. inversion Hdel; subst b r'.
      destruct (in_place_same NODE_ROOT [] r) as (Hj' & _).
      rewrite Hj' in Hj. rewrite <- (app_nil_r (journal r)) in Hj at 1.
      apply app_inv_head in Hj. subst ws.
      by destruct Hws as [(? & ? & [=])|(? & ? & ? & [=] & _)].
    + rewrite ?pop_nil in Hdel; simpl in Hdel. inversion Hdel; subst b r'.
      destruct (recycle_del_fields NODE_ROOT [(l, t)] r) as (_ & _ & _ & Hj' & _).
      rewrite Hj' in Hj. apply app_inv_head in Hj. subst ws.
      by destruct Hws as [(? & ? & [=])|(? & ? & ? & [=] & _)].
    + inversion Hdel; subst b r'. rewrite <- Hsp in *.
      destruct (set_in_place_fields NODE_ROOT (splice_out j node) r)
        as (Hcells & _).
      rewrite Hcells.
      by apply (splice_out_others (cells r) rk NODE_ROOT node j m enc).
Qed.



(** The call of the witness is one that [del_in_place] covers. *)
Example del_in_place_cow :
  exists r' ws,
    del 9 sample "cow" = Some (true, r')
    /\ journal r' = journal sample ++ ws /\ del_in_place ws.
Proof.
  eexists _, _. split; [vm_compute; reflexivity|].
  split; [vm_compute; reflexivity|]. left. by eexists _, _.
Qed.


(** ** The filter of a query with plain bounds *)

Lemma plain_bound_safe bound : plain_bound bound = true -> safe_bound bound.
Proof. intros H x ->. by apply escape_plain. Qed.

Lemma plain_query_safe q : plain_query q = true -> bounds_safe q.
Proof.
  unfold plain_query. rewrite !andb_true_iff.
  intros ((((((? & ?) & ?) & ?) & ?) & ?) & Hsome).
  repeat (split; [by apply plain_bound_safe|]).
  intros xs Hxs. rewrite Hxs in Hsome. apply Forall_forall.
  intros x Hx. apply escape_plain.
  rewrite forallb_forall in Hsome. apply Hsome. by apply list_elem_of_In.
Qed.

(** X17. For a query whose bounds hold no backslash and no line break,
    [buildQueryFilter] makes a function; on a leaf it holds exactly when
    the key satisfies every clause of the query; and when it turns a
    branch away, no key that starts with the path of the branch satisfies
    the query. *)
Theorem query_filter_exact q :
  plain_query q = true ->
  exists f,
    buildQueryFilter (Some q) = Some f
    /\ (forall key, f key false = satisfies q key)
    /\ (forall p s, f p true = false -> satisfies q (p +:+ s) = false).
Proof.
  intros Hsafe%plain_query_safe.
  destruct (buildQueryFilter_safe q Hsafe) as (f & Hf & Hleaf & Hcons).
  exists f. split; [done|]. split; [done|].
  intros p s Hp. rewrite <- Hleaf. by apply Hcons.
Qed.

Lemma query_filter_exact_witness :
  plain_query (query_of (Some "b") None None (Some "it's") (Some "c")) = true
  /\ exists f,
       buildQueryFilter
         (Some (query_of (Some "b") None None (Some "it's") (Some "c"))) = Some f
       /\ (forall key,
             f key false
             = satisfies (query_of (Some "b") None None (Some "it's") (Some "c"))
                 key)
       /\ (forall p s,
             f p true = false ->
             satisfies (query_of (Some "b") None None (Some "it's") (Some "c"))
               (p +:+ s) = false).
Proof.
  assert (plain_query (query_of (Some "b") None None (Some "it's") (Some "c"))
          = true) as Hplain by reflexivity.
  split; [exact Hplain|].
  exact (query_filter_exact _ Hplain).
Defined.

(** ** [jsonEncode] on numbers *)

Lemma unquote_quote_free text :
  quote_free text = true -> unquote_9e999 0 text = text.
Proof.
  induction text as [|c text IH]; [done|]. simpl quote_free.
  intros [Hc Hrest]%andb_prop. rewrite unquote_other, IH; [done|done|].
  apply negb_true_iff, Ascii.eqb_neq in Hc. done.
Qed.

Lemma uint_quote_free d : quote_free (NilEmpty.string_of_uint d) = true.
Proof. induction d; simpl; done. Qed.

Lemma int_quote_free d : quote_free (NilZero.string_of_int d) = true.
Proof.
  destruct d as [d|d]; simpl.
  - destruct d; try done; apply (uint_quote_free (_ d)) || apply uint_quote_free.
  - destruct d; try done; apply (uint_quote_free (_ d)) || apply uint_quote_free.
Qed.

Lemma jsonEncode_finite z :
  jsonEncode (JNum (Finite z)) = NilZero.string_of_int (Z.to_int z).
Proof.
  unfold jsonEncode.
  change (stringify (JNum (Finite z))) with (NilZero.string_of_int (Z.to_int z)).
  apply unquote_quote_free, int_quote_free.
Qed.

Lemma to_int_read z :
  NilZero.int_of_string (NilZero.string_of_int (Z.to_int z)) = Some (Z.to_int z).
Proof.
  apply NilZero.isi; destruct z as [|p|p]; simpl; try done.
  - intros [= H]. by apply DecimalPos.Unsigned.to_uint_nonnil in H.
  - intros [= H]. by apply DecimalPos.Unsigned.to_uint_nonnil in H.
Qed.

(** X18. [jsonEncode] on numbers: a safe integer (one a double holds
    exactly, below [2^53] in size) is written in decimal, two different
    safe integers get two different texts, and none of them the text of
    an infinity; [Infinity] becomes [9e999], [-Infinity] becomes [-9e999],
    and [NaN] becomes [null]. *)
Theorem jsonEncode_numbers :
  (forall z, safe_integer z ->
             jsonEncode (num z) = NilZero.string_of_int (Z.to_int z))
  /\ (forall z1 z2, safe_integer z1 -> safe_integer z2 ->
        jsonEncode (num z1) = jsonEncode (num z2) -> z1 = z2)
  /\ (forall z, safe_integer z ->
                jsonEncode (num z) <> jsonEncode (JNum Infinity)
                /\ jsonEncode (num z) <> jsonEncode (JNum NegInfinity))
  /\ jsonEncode (JNum Infinity) = "9e999"
  /\ jsonEncode (JNum NegInfinity) = "-9e999"
  /\ jsonEncode (JNum NaN) = "null".
Proof.
  unfold num. split; [intros z _; apply jsonEncode_finite|]. split; [|split].
  - intros z1 z2 _ _. rewrite !jsonEncode_finite. intros Heq.
    apply DecimalZ.to_int_inj.
    pose proof (to_int_read z1) as H1. rewrite Heq, to_int_read in H1.
    by inversion H1.
  - intros z _. rewrite jsonEncode_finite.
    split; intros Heq; pose proof (to_int_read z) as H; rewrite Heq in H;
      vm_compute in H; discriminate H.
  - split; [reflexivity|]. split; reflexivity.
Qed.


(** ** The length of the walk *)

Lemma length_str_drop_append (n s : string) :
  String.length (n +:+ s) = String.length n + String.length s.
Proof. induction n as [|c n IH]; simpl; [done|]. by rewrite IH. Qed.

Lemma get_loop_within c :
  nodes_ok c ->
  forall fuel (node : list edge) key,
  (forall l t, (l, Branch t) ∈ node -> l <> "") ->
  String.length key + 2 <= fuel -> is_Some (get_loop fuel c node key).
Proof.
  intros Hno. induction fuel as [|fuel IH]; intros node key Hb Hfuel; [lia|].
  simpl. destruct (scan 0 node key) as [[[i n] v]|] eqn:Hscan; [|done].
  apply scan_Some in Hscan as (_ & Hi & _ & Hkey).
  assert ((n, v) ∈ node) as Hin by by eapply list_elem_of_lookup_2.
  set (key' := JS.drop (String.length n) key) in *.
  assert (String.length key = String.length n + String.length key') as Hlen.
  { rewrite Hkey at 1. apply length_str_drop_append. }
  destruct v as [id|enc].
  - assert (n <> "") as Hn by by eapply Hb.
    assert (0 < String.length n) by (destruct n; [done|simpl; lia]).
    assert (is_Some (get_loop fuel c (load_target c (Branch id)) key')) as Hs.
    { apply IH; [|lia]. simpl. intros l t Hlt.
      destruct (load_node_ok c id Hno) as [_ Hb']. by eapply Hb'. }
    by destruct (JS.empty key').
  - destruct (JS.empty key'); [done|]. simpl.
    destruct fuel as [|fuel]; [lia|]. done.
Qed.

Lemma set_loop_within val r :
  nodes_ok (cells r) ->
  forall fuel old (node : list edge) key,
  (forall l t, (l, Branch t) ∈ node -> l <> "") ->
  String.length key + 1 <= fuel ->
  is_Some (set_loop fuel val old node key r).
Proof.
  intros Hno. induction fuel as [|fuel IH]; intros old node key Hb Hfuel; [lia|].
  simpl. destruct (scan_head 0 node key) as [[[i k] v]|] eqn:Hscan; [|done].
  apply scan_head_Some in Hscan as (_ & Hi & _).
  assert ((k, v) ∈ node) as Hin by by eapply list_elem_of_lookup_2.
  destruct (common k key) as [[kNew kLeft] key'] eqn:Hcom.
  destruct (nextId r) as [new r1].
  destruct (common_spec _ _ _ _ _ Hcom) as (Hk & Hkey & _).
  destruct ((negb (JS.empty key') && JS.empty kLeft) || String.eqb k kNew)
    eqn:Hcond; [|done].
  destruct v as [id|enc].
  - assert (kLeft = "") as HkLeft.
    { apply orb_prop in Hcond as [[_ ?%empty_true]%andb_prop|Heq]; [done|].
      apply String.eqb_eq in Heq. rewrite Heq in Hk at 1.
      symmetry in Hk. by apply str_append_eq_self in Hk. }
    assert (k <> "") as Hk0 by by eapply Hb.
    assert (0 < String.length kNew).
    { rewrite Hk, HkLeft, str_append_nil_r in Hk0.
      destruct kNew; [done|simpl; lia]. }
    apply IH.
    + intros l t Hlt. destruct (load_node_ok (cells r) id Hno) as [_ Hb'].
      by eapply Hb'.
    + rewrite Hkey, length_str_drop_append in Hfuel. lia.
  - by destruct (String.eqb key' kLeft && JS.empty kLeft).
Qed.

Lemma del_loop_within r :
  nodes_ok (cells r) ->
  forall fuel cur (node : list edge) frames key,
  (forall l t, (l, Branch t) ∈ node -> l <> "") ->
  String.length key + 1 <= fuel ->
  is_Some (del_loop fuel cur node frames key r).
Proof.
  intros Hno. induction fuel as [|fuel IH];
    intros cur node frames key Hb Hfuel; [lia|].
  simpl. destruct (scan 0 node key) as [[[i n] v]|] eqn:Hscan; [|done].
  apply scan_Some in Hscan as (_ & Hi & _ & Hkey).
  assert ((n, v) ∈ node) as Hin by by eapply list_elem_of_lookup_2.
  set (key' := JS.drop (String.length n) key) in *.
  assert (String.length key = String.length n + String.length key') as Hlen.
  { rewrite Hkey at 1. apply length_str_drop_append. }
  destruct v as [id|enc].
  - destruct (cells r !! id) as [node'|] eqn:Hid; [|done].
    assert (n <> "") as Hn by by eapply Hb.
    assert (0 < String.length n) by (destruct n; [done|simpl; lia]).
    apply IH; [|lia]. intros l t Hlt.
    destruct (Hno _ _ Hid) as [[_ Hb'] _]. by eapply Hb'.
  - destruct (splice_out i node) as [|[l t] [|e2 rest]].
    + destruct (pop frames) as [[[[[curI ?] cur'] ?] ?]|]; [|done].
      by destruct (_ !! cur').
    + destruct (pop frames) as [[[[[prevI prevN] ?] ?] rest']|]; [|done].
      by destruct (pop rest') as [[[[[? ?] ?] ?] ?]|].
    + done.
Qed.

(** X19. In a state the public calls lead to, [has], [get], [set] and
    [del] return after a walk of no more than the length of the key plus
    two nodes: an edge to another node has a label that is not empty, so
    every step down takes a part of the key away. *)
Theorem walk_within_key_length {V : Type} (encode : V -> string) r key value fuel :
  reachable r -> String.length key + 2 <= fuel ->
  is_Some (has fuel r key) /\ is_Some (get_enc fuel r key)
  /\ is_Some (set encode fuel r key value) /\ is_Some (del fuel r key).
Proof.
  intros ((Hno & _) & _)%reachable_Inv Hfuel.
  assert (forall l t, (l, Branch t) ∈ load (cells r) NODE_ROOT -> l <> "") as Hb.
  { intros l t Hlt. destruct (load_node_ok (cells r) NODE_ROOT Hno) as [_ Hb].
    by eapply Hb. }
  assert (is_Some (get_enc fuel r key)) as Hget.
  { by apply get_loop_within. }
  split; [|split; [done|split]].
  - rewrite has_of_get_enc. destruct Hget as [o ->]. by eexists.
  - apply set_loop_within; [done|done|lia].
  - unfold del. destruct (cells r !! NODE_ROOT) as [node|] eqn:Hroot; [|done].
    apply del_loop_within; [done| |lia].
    intros l t Hlt. destruct (Hno _ _ Hroot) as [[_ Hb'] _]. by eapply Hb'.
Qed.

Lemma walk_within_key_length_witness :
  reachable sample /\ String.length "coworker" + 2 <= 10
  /\ is_Some (has 10 sample "coworker")
  /\ is_Some (get_enc 10 sample "coworker")
  /\ is_Some (set jsonEncode 10 sample "coworker" (num 8))
  /\ is_Some (del 10 sample "coworker").
Proof.
  assert (String.length "coworker" + 2 <= 10) as Hfuel by (simpl; lia).
  split; [exact sample_reachable|]. split; [exact Hfuel|].
  exact (walk_within_key_length jsonEncode sample "coworker" (num 8) 10
           sample_reachable Hfuel).
Defined.


(** ** What [del] has done when it returns [true] *)

Lemma head_append (p rest : string) :
  p <> "" -> JS.head (p +:+ rest) = JS.head p.
Proof. by destruct p. Qed.

Lemma str_take_prefix (l p rest : string) :
  JS.take (String.length l) p = l -> JS.take (String.length l) (p +:+ rest) = l.
Proof.
  revert p. induction l as [|a l IH]; intros [|b p]; simpl; try done.
  intros [= -> H]. by rewrite IH.
Qed.

(** The edge [scan] stops at for a key is the one it stops at for every
    start of the key that the label of the edge starts. *)
Lemma scan_prefix i0 (node : list edge) p rest i n v s :
  scan i0 node (p +:+ rest) = Some (i, n, v) -> p = n +:+ s -> n <> "" ->
  scan i0 node p = Some (i, n, v).
Proof.
  intros Hscan -> Hn. revert i0 Hscan.
  assert (JS.head ((n +:+ s) +:+ rest) = JS.head (n +:+ s)) as Hhead.
  { apply head_append. by destruct n. }
  induction node as [|[l w] node IH]; intros i0; simpl; [done|].
  rewrite Hhead.
  destruct (negb (JS.option_ascii_eqb (JS.head l) (JS.head (n +:+ s))));
    [apply IH|].
  destruct (String.eqb (JS.take (String.length l) ((n +:+ s) +:+ rest)) l)
    eqn:Hkey.
  - intros [= <- <- <-]. by rewrite str_take_append, String.eqb_refl.
  - destruct (String.eqb (JS.take (String.length l) (n +:+ s)) l) eqn:Hp;
      [|apply IH].
    apply String.eqb_eq, (str_take_prefix _ _ rest) in Hp.
    apply String.eqb_neq in Hkey. done.
Qed.

Lemma del_loop_consumed r :
  nodes_ok (cells r) ->
  forall fuel cur (node : list edge) frames key r',
  (forall l t, (l, Branch t) ∈ node -> l <> "") ->
  del_loop fuel cur node frames key r = Some (true, r') ->
  exists kd rest,
    key = kd +:+ rest
    /\ has_loop fuel (cells r) node kd = Some true
    /\ del_loop fuel cur node frames kd r = Some (true, r')
    /\ (has_loop fuel (cells r) node key = Some true -> rest = "").
Proof.
  intros Hno. induction fuel as [|fuel IH];
    intros cur node frames key r' Hb Hdel; [done|].
  simpl in Hdel.
  destruct (scan 0 node key) as [[[i n] v]|] eqn:Hscan; [|done].
  pose proof Hscan as Hscan0.
  apply scan_Some in Hscan as (_ & Hi & Hh & Hkey).
  assert ((n, v) ∈ node) as Hin by by eapply list_elem_of_lookup_2.
  set (key' := JS.drop (String.length n) key) in *.
  destruct v as [id|enc].
  - destruct (cells r !! id) as [node'|] eqn:Hid; [|done].
    assert (n <> "") as Hn by by eapply Hb.
    destruct (IH id node' (frames ++ [(i, n, id, node')]) key' r') as (kd & rest & Hk' & Hhas & Hdel' & Hrest);
      [|exact Hdel|].
    { intros l t Hlt. destruct (Hno _ _ Hid) as [[_ Hb'] _]. by eapply Hb'. }
    exists (n +:+ kd), rest.
    assert (scan 0 node (n +:+ kd) = Some (i, n, Branch id)) as Hscan'.
    { apply (scan_prefix 0 node (n +:+ kd) rest i n (Branch id) kd);
        [|done|done].
      by rewrite str_append_assoc, <- Hk', <- Hkey. }
    assert (load (cells r) id = node') as Hl by (unfold load; by rewrite Hid).
    split; [by rewrite str_append_assoc, <- Hk'|].
    split; [|split].
    + simpl. rewrite Hscan', str_drop_append. simpl.
      by rewrite andb_false_r, Hl.
    + simpl. rewrite Hscan', str_drop_append, Hid. done.
    + simpl. rewrite Hscan0. fold key'. simpl. rewrite andb_false_r, Hl. done.
  - exists n, key'. split; [done|].
    assert (scan 0 node n = Some (i, n, Leaf enc)) as Hscan'.
    { destruct (decide (n = "")) as [->|Hn].
      - (* the empty label is found by the empty key only *)
        simpl in Hh. symmetry in Hh. apply hcode_zero in Hh.
        by rewrite Hh in Hscan0.
      - apply (scan_prefix 0 node n key' i n (Leaf enc) ""); [|by rewrite str_append_nil_r|done].
        by rewrite <- Hkey. }
    assert (JS.drop (String.length n) n = "") as Hdrop.
    { rewrite <- (str_append_nil_r n) at 2. apply str_drop_append. }
    split; [|split].
    + simpl. by rewrite Hscan', Hdrop.
    + simpl. by rewrite Hscan'.
    + simpl. rewrite Hscan0. fold key'. simpl. rewrite andb_true_r.
      destruct (JS.empty key') eqn:He; [by apply empty_true in He|].
      intros H. by apply has_loop_nil in H.
Qed.

(** X20. [del(key)] that returns [true] has done what [del(kd)] does, for
    a key [kd] that is present and that [key] starts with: the state it
    leaves is the same.  When [key] itself is present, [kd] is [key]. *)
Theorem del_true_is_del_of_prefix r key fuel r' :
  reachable r -> del fuel r key = Some (true, r') ->
  exists kd rest,
    key = kd +:+ rest
    /\ has fuel r kd = Some true
    /\ del fuel r kd = Some (true, r')
    /\ (has fuel r key = Some true -> rest = "").
Proof.
  intros ((Hno & _) & _)%reachable_Inv Hdel. unfold del, has, load in *.
  destruct (cells r !! NODE_ROOT) as [node|] eqn:Hroot; [|done]. simpl.
  apply del_loop_consumed; [done| |done].
  intros l t Hlt. destruct (Hno _ _ Hroot) as [[_ Hb] _]. by eapply Hb.
Qed.

Lemma del_true_is_del_of_prefix_witness :
  reachable sample
  /\ del 9 sample "communityx"
     = Some (true, default sample (snd <$> del 9 sample "communityx"))
  /\ exists kd rest,
       "communityx" = kd +:+ rest
       /\ has 9 sample kd = Some true
       /\ del 9 sample kd
          = Some (true, default sample (snd <$> del 9 sample "communityx"))
       /\ (has 9 sample "communityx" = Some true -> rest = "").
Proof.
  assert (del 9 sample "communityx"
          = Some (true, default sample (snd <$> del 9 sample "communityx")))
    as Hdel by (vm_compute; reflexivity).
  split; [exact sample_reachable|]. split; [exact Hdel|].
  exact (del_true_is_del_of_prefix sample "communityx" 9 _ sample_reachable Hdel).
Defined.


(** ** The two kinds of store *)

Lemma radix_eq r1 r2 :
  cells r1 = cells r2 -> counter r1 = counter r2 -> m_id r1 = m_id r2 ->
  m_recycleIds r1 = m_recycleIds r2 -> shares r1 = shares r2 ->
  journal r1 = journal r2 -> r1 = r2.
Proof. destruct r1, r2. simpl. by intros -> -> -> -> -> ->. Qed.

Lemma nextId_shares b r :
  nextId (with_shares b r)
  = (fst (nextId r), with_shares b (snd (nextId r))).
Proof. unfold nextId. simpl. by destruct (m_recycleIds r). Qed.

Lemma set_loop_shares b val r :
  forall fuel old node key,
  set_loop fuel val old node key (with_shares b r)
  = with_shares b <$> set_loop fuel val old node key r.
Proof.
  induction fuel as [|fuel IH]; intros old node key; [done|]. simpl.
  destruct (scan_head 0 node key) as [[[i k] v]|]; [|done].
  destruct (common k key) as [[kNew kLeft] key'].
  rewrite nextId_shares. destruct (nextId r) as [new r1]. simpl.
  destruct ((negb (JS.empty key') && JS.empty kLeft) || String.eqb k kNew);
    [|done].
  destruct v as [id|enc]; [apply IH|].
  by destruct (String.eqb key' kLeft && JS.empty kLeft).
Qed.

(** After the edge is taken out in place, the node is deleted or written:
    the store is then the same for both kinds. *)
Lemma in_place_deleted b id node r :
  recycle id (store_del id (in_place id node (with_shares b r)))
  = with_shares b (recycle id (store_del id (in_place id node r))).
Proof.
  apply radix_eq; simpl; try (unfold in_place; simpl;
                              by destruct b, (shares r)).
  rewrite !delete_in_place. done.
Qed.

Lemma in_place_written b id node r :
  store_set id node (in_place id node (with_shares b r))
  = with_shares b (store_set id node (in_place id node r)).
Proof.
  apply radix_eq; simpl; try (unfold in_place; simpl;
                              by destruct b, (shares r)).
  rewrite !insert_in_place. done.
Qed.

Lemma del_loop_shares b r :
  forall fuel cur node frames key,
  frames = [] \/ (exists fs i n nd, frames = fs ++ [(i, n, cur, nd)]) ->
  match del_loop fuel cur node frames key r with
  | None => del_loop fuel cur node frames key (with_shares b r) = None
  | Some (res, r1) =>
      exists r2,
        del_loop fuel cur node frames key (with_shares b r) = Some (res, r2)
        /\ (r2 = with_shares b r1
            \/ (frames = [] /\ res = true
                /\ exists l enc, node = [(l, Leaf enc)]))
  end.
Proof.
  induction fuel as [|fuel IH]; intros cur node frames key Hfr; [done|].
  simpl. destruct (scan 0 node key) as [[[i n] v]|] eqn:Hscan.
  2: { eexists. split; [done|]. by left. }
  apply scan_Some in Hscan as (_ & Hi & _).
  replace (i - 0) with i in Hi by lia.
  destruct v as [id|enc].
  { destruct (cells r !! id) as [node'|].
    - specialize (IH id node' (frames ++ [(i, n, id, node')]) 
                    (JS.drop (String.length n) key)).
      destruct (del_loop fuel id node' _ _ r) as [[res r1]|].
      + destruct IH as (r2 & -> & [->|(Hnil & _)]).
        * right. by eexists frames, i, n, node'.
        * eexists. split; [done|]. by left.
        * by destruct frames.
      + apply IH. right. by eexists frames, i, n, node'.
    - eexists. split; [done|]. by left. }
  pose proof (length_splice_out _ _ _ Hi) as Hl1.
  destruct (splice_out i node) as [|[l t] [|e2 rest]] eqn:Hsp.
  - destruct Hfr as [->|(fs & i0 & n0 & nd & ->)].
    + rewrite pop_nil. eexists. split; [done|]. right.
      split; [done|]. split; [done|].
      destruct node as [|x [|y node]]; simpl in Hl1; try lia.
      destruct i as [|i]; [|done]. simpl in Hi. inversion Hi. by eexists _, _.
    + rewrite pop_snoc. rewrite !lookup_delete_eq, in_place_deleted.
      eexists. split; [done|]. by left.
  - destruct (pop frames) as [[[[[prevI prevN] ?] ?] rest']|].
    + destruct (pop rest') as [[[[[? ?] P] node2] ?]|];
        rewrite in_place_deleted; (eexists; split; [done|]; by left).
    + rewrite in_place_deleted. eexists. split; [done|]. by left.
  - rewrite in_place_written. eexists. split; [done|]. by left.
Qed.

(** X21. On the contents of a state the public calls lead to (where no
    node lies below itself), the effect of [set] and [del] does not depend
    on whether [store.get] hands out the stored array itself or a copy of
    it: the results and the states they leave are the same, with one
    exception, [del] that takes the only edge of the root away and
    returns without any store call. *)
Theorem store_kind_is_immaterial {V : Type} (encode : V -> string)
  b r fuel key value :
  reachable r ->
  set encode fuel (with_shares b r) key value
  = with_shares b <$> set encode fuel r key value
  /\ match del fuel r key with
     | None => del fuel (with_shares b r) key = None
     | Some (res, r1) =>
         exists r2,
           del fuel (with_shares b r) key = Some (res, r2)
           /\ (r2 = with_shares b r1
               \/ (res = true
                   /\ exists l enc, cells r !! NODE_ROOT = Some [(l, Leaf enc)]))
     end.
Proof.
  intros _. split; [apply set_loop_shares|]. unfold del. simpl.
  destruct (cells r !! NODE_ROOT) as [node|] eqn:Hroot.
  - pose proof (del_loop_shares b r fuel NODE_ROOT node [] key (or_introl eq_refl))
      as H.
    destruct (del_loop fuel NODE_ROOT node [] key r) as [[res r1]|]; [|done].
    destruct H as (r2 & Hdel & [->|(_ & -> & l & enc & ->)]).
    + exists (with_shares b r1). split; [done|by left].
    + exists r2. split; [done|]. right. split; [done|]. by exists l, enc.
  - eexists. split; [done|]. by left.
Qed.

Lemma store_kind_is_immaterial_witness :
  reachable sample
  /\ set jsonEncode 9 (with_shares false sample) "cowl" (num 8)
     = with_shares false <$> set jsonEncode 9 sample "cowl" (num 8)
  /\ match del 9 sample "cow" with
     | None => del 9 (with_shares false sample) "cow" = None
     | Some (res, r1) =>
         exists r2,
           del 9 (with_shares false sample) "cow" = Some (res, r2)
           /\ (r2 = with_shares false r1
               \/ (res = true
                   /\ exists l enc,
                        cells sample !! NODE_ROOT = Some [(l, Leaf enc)]))
     end.
Proof.
  split; [exact sample_reachable|].
  pose proof (store_kind_is_immaterial jsonEncode false sample 9 "cow" (num 8)
                sample_reachable) as [_ Hdel].
  pose proof (store_kind_is_immaterial jsonEncode false sample 9 "cowl" (num 8)
                sample_reachable) as [Hset _].
  split; [exact Hset|exact Hdel].
Defined.


(** ** The keys of the store *)

Lemma digit36_not_hash (d : N) : (d < 36)%N -> digit36 d <> "#"%char.
Proof.
  intros Hd Heq. apply (f_equal N_of_ascii) in Heq. unfold digit36 in Heq.
  destruct (d <? 10)%N eqn:H10.
  - apply N.ltb_lt in H10. rewrite N_ascii_embedding in Heq by lia.
    simpl in Heq. lia.
  - apply N.ltb_ge in H10. rewrite N_ascii_embedding in Heq by lia.
    simpl in Heq. lia.
Qed.

Lemma id_ok_not_counter id : id_ok id -> id <> "#".
Proof.
  intros [->|[n ->]]; [done|]. unfold toString36.
  destruct (toString36_go_head (N.to_nat (N.log2 n)) n "") as (d & rest & Hd & ->).
  intros [= Heq _]. by apply digit36_not_hash in Heq.
Qed.

Lemma nextId_ids r new r1 :
  ids_ok r -> nextId r = (new, r1) ->
  id_ok new /\ cells r1 = cells r
  /\ (forall id, id ∈ m_recycleIds r1 -> id ∈ m_recycleIds r).
Proof.
  unfold nextId. intros Hids Hnext.
  destruct (m_recycleIds r) as [|id rest] eqn:Hpool; inversion Hnext; subst; simpl.
  - split; [right; by eexists|]. split; [done|]. by intros id ?%elem_of_nil.
  - split; [|split; [done|]].
    + apply Hids. right. rewrite Hpool. by left.
    + intros id' Hin. by right.
Qed.

Lemma ids_ok_intro r r' :
  ids_ok r ->
  (forall id, is_Some (cells r' !! id) -> is_Some (cells r !! id) \/ id_ok id) ->
  (forall id, id ∈ m_recycleIds r' ->
     id ∈ m_recycleIds r \/ is_Some (cells r !! id)) ->
  ids_ok r'.
Proof.
  intros Hids Hc Hp id [[?|?]%Hc|[?|?]%Hp]; auto; apply Hids; auto.
Qed.

Lemma set_loop_ids fuel val r :
  closed (cells r) -> ids_ok r ->
  forall old node key r',
  node = load (cells r) old -> id_ok old ->
  set_loop fuel val old node key r = Some r' -> ids_ok r'.
Proof.
  intros Hcl Hids.
  induction fuel as [|fuel IH]; intros old node key r' Hnode Hold Hset;
    [done|].
  simpl in Hset.
  assert (forall node', ids_ok (store_set old node' r)) as Hone.
  { intros node'. apply (ids_ok_intro r); [done| |by left]. simpl.
    intros id. destruct (decide (id = old)) as [->|Hne]; [by right|].
    rewrite lookup_insert_ne by done. by left. }
  destruct (scan_head 0 node key) as [[[i k] v]|] eqn:Hscan;
    [|inversion Hset; subst; apply Hone].
  apply scan_head_Some in Hscan as (_ & Hi & _).
  replace (i - 0) with i in Hi by lia.
  assert ((k, v) ∈ node) as Hin by by eapply list_elem_of_lookup_2.
  destruct (common k key) as [[kNew kLeft] key'].
  destruct (nextId r) as [new r1] eqn:Hnext.
  destruct (nextId_ids _ _ _ Hids Hnext) as (Hnew & Hc1 & Hp1).
  assert (forall n1 n2, ids_ok (store_set new n2 (store_set old n1 r1))) as Hsplit.
  { intros n1 n2. apply (ids_ok_intro r); [done| |]; simpl.
    - intros id. rewrite Hc1.
      destruct (decide (id = new)) as [->|?]; [by right|].
      rewrite lookup_insert_ne by done.
      destruct (decide (id = old)) as [->|?]; [by right|].
      rewrite lookup_insert_ne by done. by left.
    - intros id Hid. left. by apply Hp1. }
  destruct ((negb (JS.empty key') && JS.empty kLeft) || String.eqb k kNew);
    [|inversion Hset; subst; apply Hsplit].
  destruct v as [id|enc].
  - assert (refs (cells r) old k id) as R.
    { apply load_refs. by rewrite <- Hnode. }
    eapply (IH id); [done| |exact Hset].
    destruct (decide (id = NODE_ROOT)) as [->|Hne]; [by left|].
    apply Hids. left. by apply (Hcl old k id R).
  - destruct (String.eqb key' kLeft && JS.empty kLeft);
      inversion Hset; subst; [apply Hone|apply Hsplit].
Qed.

Lemma del_loop_ids fuel r :
  ids_ok r ->
  forall cur node frames key b r',
  is_Some (cells r !! cur) ->
  Forall (fun fr : frame => is_Some (cells r !! snd (fst fr))) frames ->
  del_loop fuel cur node frames key r = Some (b, r') -> ids_ok r'.
Proof.
  intros Hids. induction fuel as [|fuel IH];
    intros cur node frames key b r' Hcur Hfr Hdel; [done|].
  simpl in Hdel.
  destruct (scan 0 node key) as [[[i n] v]|] eqn:Hscan;
    [|by inversion Hdel; subst].
  destruct v as [id|enc].
  { destruct (cells r !! id) as [node'|] eqn:Hid; [|by inversion Hdel; subst].
    eapply (IH id node'); [by rewrite Hid| |exact Hdel].
    apply Forall_app. split; [done|]. constructor; [|done]. simpl.
    by rewrite Hid. }
  assert (forall r2,
    (forall id, is_Some (cells r2 !! id) ->
       is_Some (cells r !! id) \/ id = NODE_ROOT) ->
    (forall id, id ∈ m_recycleIds r2 ->
       id ∈ m_recycleIds r \/ is_Some (cells r !! id)) ->
    ids_ok r2) as Hok.
  { intros r2 Hc2 Hp2. apply (ids_ok_intro r); [done| |done].
    intros id [?| ->]%Hc2; [by left|]. right. by left. }
  assert (forall x, is_Some (cells r !! x) ->
            forall id,
            id ∈ (if bool_decide (x ∈ m_recycleIds r)
                  then m_recycleIds r else m_recycleIds r ++ [x]) ->
            id ∈ m_recycleIds r \/ is_Some (cells r !! id)) as Hrec.
  { intros x Hx id. case_bool_decide; [by left|].
    intros [?| ->%list_elem_of_singleton]%elem_of_app; auto. }
  assert (forall id x, is_Some (delete x (cells r) !! id) ->
            is_Some (cells r !! id)) as Hdl.
  { intros id x. destruct (decide (id = x)) as [->|?].
    - rewrite lookup_delete_eq. by intros [? ?].
    - by rewrite lookup_delete_ne. }
  assert (forall id x P node', is_Some (cells r !! P) \/ P = NODE_ROOT ->
            is_Some (<[P := node']> (delete x (cells r)) !! id) ->
            is_Some (cells r !! id) \/ id = NODE_ROOT) as Hins.
  { intros id x P node' HP. destruct (decide (id = P)) as [->|?]; [done|].
    rewrite lookup_insert_ne by done. intros ?%Hdl. by left. }
  destruct (splice_out i node) as [|[l t] [|e2 rest]] eqn:Hsp.
  - destruct (pop frames) as [[[[[curI ?] cur'] ?] ?]|] eqn:Hpop.
    + assert (is_Some (cells r !! cur')) as Hcur'.
      { unfold pop in Hpop. destruct (reverse frames) as [|f fs] eqn:Hrev;
          [done|]. inversion Hpop; subst.
        apply (f_equal reverse) in Hrev.
        rewrite reverse_involutive, reverse_cons in Hrev. subst frames.
        apply Forall_app in Hfr as [_ Hf]. by inversion Hf; subst. }

      simpl in Hdel. rewrite lookup_delete_eq in Hdel.
      inversion Hdel; subst. apply Hok; simpl.
      * intros id. destruct (decide (id = cur')) as [->|?].
        { rewrite lookup_delete_eq. by intros [? ?]. }
        rewrite lookup_delete_ne, cells_in_place by done.
        destruct (shares r); [|by left].
        destruct (decide (id = cur)) as [->|?]; [by left|].
        rewrite lookup_insert_ne by done. by left.
      * destruct (in_place_same cur [] r) as (_ & _ & -> & _).
        by apply Hrec.
    + inversion Hdel; subst. apply Hok.
      * intros id. rewrite cells_in_place. destruct (shares r); [|by left].
        destruct (decide (id = cur)) as [->|?]; [by left|].
        rewrite lookup_insert_ne by done. by left.
      * destruct (in_place_same cur [] r) as (_ & _ & -> & _). by left.
  - destruct (pop frames) as [[[[[prevI prevN] ?] ?] rest']|] eqn:Hpop.
    + assert (Forall (fun fr : frame => is_Some (cells r !! snd (fst fr))) rest')
        as Hrest.
      { unfold pop in Hpop. destruct (reverse frames) as [|f fs] eqn:Hrev;
          [done|]. inversion Hpop; subst.
        apply (f_equal reverse) in Hrev.
        rewrite reverse_involutive, reverse_cons in Hrev. subst frames.
        by apply Forall_app in Hfr as [? _]. }
      destruct (pop rest') as [[[[[? ?] P] node2] ?]|] eqn:Hpop2.
      * assert (is_Some (cells r !! P)) as HP.
        { unfold pop in Hpop2. destruct (reverse rest') as [|f fs] eqn:Hrev;
            [done|]. inversion Hpop2; subst.
          apply (f_equal reverse) in Hrev.
          rewrite reverse_involutive, reverse_cons in Hrev. subst rest'.
          apply Forall_app in Hrest as [_ Hf]. by inversion Hf; subst. }
        inversion Hdel; subst.
        destruct (collapse_fields cur [(l, t)] P
                    (splice_in prevI (prevN +:+ l, t) node2) r)
          as (Ec & Ep & _).
        apply Hok.
        -- intros id. rewrite Ec. apply Hins. by left.
        -- rewrite Ep. by apply Hrec.
      * inversion Hdel; subst.
        destruct (collapse_fields cur [(l, t)] NODE_ROOT
                    (splice_in prevI (prevN +:+ l, t) []) r)
          as (Ec & Ep & _).
        apply Hok.
        -- intros id. rewrite Ec. apply Hins. by right.
        -- rewrite Ep. by apply Hrec.
    + inversion Hdel; subst.
      destruct (recycle_del_fields cur [(l, t)] r) as (Ec & Ep & _).
      apply Hok.
      * intros id. rewrite Ec. intros ?%Hdl. by left.
      * rewrite Ep. by apply Hrec.
  - inversion Hdel; subst.
    destruct (set_in_place_fields cur ((l, t) :: e2 :: rest) r) as (Ec & Ep & _).
    apply Hok.
    + intros id. rewrite Ec. destruct (decide (id = cur)) as [->|?]; [by left|].
      rewrite lookup_insert_ne by done. by left.
    + intros id. rewrite Ep. by left.
Qed.

Lemma reachable_ids r : reachable r -> ids_ok r.
Proof.
  induction 1 as [sh|fuel r key value r' Hr IH Hset|fuel r key b r' Hr IH Hdel].
  - intros id [[? H]|H]; simpl in H; [by rewrite lookup_empty in H|].
    by apply elem_of_nil in H.
  - destruct (reachable_Inv r Hr) as ((_ & Hcl & _) & _).
    unfold set in Hset. eapply set_loop_ids; [done|done|done| |exact Hset].
    by left.
  - unfold del in Hdel.
    destruct (cells r !! NODE_ROOT) as [node|] eqn:Hroot;
      [|by inversion Hdel; subst].
    eapply del_loop_ids; [done| | |exact Hdel]; [by rewrite Hroot|done].
Qed.

(** X22. In every state the public calls lead to, as long as the id
    counter is below [2^53] (so that [++] still changes it), the id of a
    stored node or of the recycle set is never ["#"], the key under which
    [nextId] keeps the id counter: it is the id of the root, or a number
    below the next one the counter gives, written in base 36. *)
Theorem node_ids_avoid_counter r id :
  reachable r -> counter_exact r ->
  is_Some (cells r !! id) \/ id ∈ m_recycleIds r ->
  id <> "#"
  /\ (id = NODE_ROOT
      \/ exists n, id = toString36 n /\ (n < next_ordinal r)%N).
Proof.
  intros Hr _ Hid. pose proof (reachable_ids r Hr id Hid) as Hok.
  split; [by apply id_ok_not_counter|].
  destruct Hok as [->|[n ->]]; [by left|]. right. exists n. split; [done|].
  destruct (reachable_Inv r Hr) as (_ & _ & (_ & _ & Hfree & Hpool)).
  destruct (N.lt_ge_cases n (next_ordinal r)) as [?|Hge]; [done|].
  destruct Hid as [[x Hx]|Hin].
  - by rewrite (Hfree n Hge) in Hx.
  - by destruct (Hpool _ n Hin Hge).
Qed.

Lemma node_ids_avoid_counter_witness :
  reachable sample /\ counter_exact sample
  /\ (is_Some (cells sample !! "0") \/ "0" ∈ m_recycleIds sample)
  /\ "0" <> "#"
  /\ ("0" = NODE_ROOT
      \/ exists n, "0" = toString36 n /\ (n < next_ordinal sample)%N).
Proof.
  assert (is_Some (cells sample !! "0") \/ "0" ∈ m_recycleIds sample) as Hid.
  { left. vm_compute. by eexists. }
  assert (counter_exact sample) as Hex by (vm_compute; reflexivity).
  split; [exact sample_reachable|]. split; [exact Hex|]. split; [exact Hid|].
  exact (node_ids_avoid_counter sample "0" sample_reachable Hex Hid).
Defined.
